(** * Dense fixed-capacity bitsets ([bitset.c], [bitset.h])

    A bitset is one contiguous array of 64-bit lanes.  Lane 0 is the header
    ([setfields_t]: a 32-bit [size], 16-bit [flags], 16-bit [tag]); lanes
    [1..size] carry the elements.  The development embeds the C functions as
    Rocq functions over [list Z] and proves the properties the documentation
    states about them. *)

From Stdlib Require Import ZArith Lia.
From stdpp Require Import list.

Local Open Scope Z_scope.

(** ** Machine integers

    [uint64_t] and [size_t] values are integers in [0, 2^64); arithmetic on
    [size_t] wraps around. *)

Definition UINT64_MAX : Z := 0xFFFFFFFFFFFFFFFF.

Definition word64 (x : Z) : Prop := 0 <= x < 2 ^ 64.

Definition sz_add (x y : Z) : Z := (x + y) mod 2 ^ 64.
Definition sz_sub (x y : Z) : Z := (x - y) mod 2 ^ 64.
Definition sz_mul (x y : Z) : Z := (x * y) mod 2 ^ 64.

(** [~x] on a [uint64_t]: every one of the 64 bits is flipped. *)
Definition not64 (x : Z) : Z := Z.lxor x UINT64_MAX.

(** [1ull << bit] *)
Definition shl64 (x s : Z) : Z := Z.shiftl x s mod 2 ^ 64.

(** [__builtin_popcountll]: the number of one bits among the 64. *)
Definition popcountll (x : Z) : Z :=
  Z.of_nat (length (filter (λ k : nat, Z.testbit x (Z.of_nat k) = true) (seq 0 64))).

(** ** The header lane ([setfields_t], packed, little-endian)

    bytes 0-3 hold [size], bytes 4-5 [flags], bytes 6-7 [tag]. *)

Definition hdr_size (h : Z) : Z := Z.land h 0xFFFFFFFF.
Definition hdr_flags (h : Z) : Z := Z.land (Z.shiftr h 32) 0xFFFF.
Definition hdr_tag (h : Z) : Z := Z.land (Z.shiftr h 48) 0xFFFF.

(** [((setfields_t * )h)->size = (uint32_t)v] *)
Definition hdr_with_size (h v : Z) : Z :=
  Z.lor (Z.land h 0xFFFFFFFF00000000) (Z.land v 0xFFFFFFFF).

(** [((setfields_t * )h)->tag = (uint16_t)v] *)
Definition hdr_with_tag (h v : Z) : Z :=
  Z.lor (Z.land h 0x0000FFFFFFFFFFFF) (Z.shiftl (Z.land v 0xFFFF) 48).

(** [((setfields_t * )h)->flags = (uint16_t)v] *)
Definition hdr_with_flags (h v : Z) : Z :=
  Z.lor (Z.land h 0xFFFF0000FFFFFFFF) (Z.shiftl (Z.land v 0xFFFF) 32).

(** ** Storage

    A [bitset_t *] points to an array of lanes, modelled as the list of the
    lanes from the pointer on.  An access outside the array is undefined in C;
    the model has no result for it ([None]).  Parameters declared [restrict]
    are distinct lists. *)

Abbreviation bitset := (list Z).

Definition load (s : bitset) (i : nat) : option Z := s !! i.

Definition store (s : bitset) (i : nat) (v : Z) : option bitset :=
  if decide (i < length s)%nat then Some (<[i:=v]> s) else None.

(** [BITSET_FIELD(set, size)] read as an rvalue *)
Definition BITSET_FIELD_size (s : bitset) : option Z :=
  h ← load s 0; Some (hdr_size h).

(** [BITSET_COPY_FIELD(dst, src, size)]: the assignment, and its value *)
Definition BITSET_COPY_FIELD_size (dst src : bitset) : option (bitset * Z) :=
  hs ← load src 0;
  hd ← load dst 0;
  dst' ← store dst 0 (hdr_with_size hd (hdr_size hs));
  Some (dst', hdr_size hs).

Definition bitset_get_size (s : bitset) : option Z := BITSET_FIELD_size s.

Definition bitset_set_size (s : bitset) (v : Z) : option bitset :=
  h ← load s 0; store s 0 (hdr_with_size h v).

Definition bitset_get_tag (s : bitset) : option Z :=
  h ← load s 0; Some (hdr_tag h).

Definition bitset_set_tag (s : bitset) (v : Z) : option bitset :=
  h ← load s 0; store s 0 (hdr_with_tag h v).

Definition bitset_get_flag (s : bitset) (flag : Z) : option bool :=
  h ← load s 0; Some (negb (Z.land (hdr_flags h) flag =? 0)).

Definition bitset_set_flag (s : bitset) (flag : Z) : option bitset :=
  h ← load s 0;
  store s 0 (hdr_with_flags h (Z.lor (hdr_flags h) (Z.land flag 0xFFFF))).

(** ** Loops

    [for (size_t i = n; i > 0; i--) body], the shape of every pass over the
    payload: lanes [n], [n-1], ..., [1] in this order. *)

Fixpoint for_down (n : nat) (body : nat → bitset → option bitset)
    (s : bitset) : option bitset :=
  match n with
  | O => Some s
  | S m => s' ← body n s; for_down m body s'
  end.

(** The same pass for a predicate that leaves at the first lane where
    [stop] holds. *)
Fixpoint none_down (n : nat) (stop : nat → option bool) : option bool :=
  match n with
  | O => Some true
  | S m => t ← stop n; if t : bool then Some false else none_down m stop
  end.

(** The same pass accumulating into a [size_t] sum. *)
Fixpoint sum_down (n : nat) (term : nat → option Z) (sum : Z) : option Z :=
  match n with
  | O => Some sum
  | S m => t ← term n; sum_down m term (sz_add sum t)
  end.

(** ** Macros of [bitset.h] *)

Definition ELEM_WORD (elem : Z) : Z := sz_add 1 (Z.shiftr elem 6).
Definition ELEM_BIT (elem : Z) : Z := Z.land elem 63.
Definition REQ_SZ (elems : Z) : Z := sz_add 2 (Z.shiftr (sz_sub elems 1) 6).

(** ** Library routines

    All byte counts in the source are a lane count times [sizeof(bitset_t)]
    and never overflow [size_t] (the largest is [8 * (2^58 + 1)]), so the
    routines are modelled with lane counts. *)

(** [memset(s, 0, n * sizeof(bitset_t))] *)
Definition memset0 (s : bitset) (n : Z) : option bitset :=
  if decide (n <= Z.of_nat (length s))
  then Some (replicate (Z.to_nat n) 0 ++ drop (Z.to_nat n) s)
  else None.

(** [memcpy(dst, src, n * sizeof(bitset_t))] *)
Definition memcpy (dst src : bitset) (n : Z) : option bitset :=
  if decide (n <= Z.of_nat (length dst) ∧ n <= Z.of_nat (length src))
  then Some (take (Z.to_nat n) src ++ drop (Z.to_nat n) dst)
  else None.

(** [memcmp(x, y, n * sizeof(bitset_t))].  Only whether the result is zero is
    observed; every nonzero result is represented by [1]. *)
Definition memcmp (x y : bitset) (n : Z) : option Z :=
  if decide (n <= Z.of_nat (length x) ∧ n <= Z.of_nat (length y))
  then Some (if decide (take (Z.to_nat n) x = take (Z.to_nat n) y) then 0 else 1)
  else None.

(** The allocator: [avail] is the number of lanes it can still hand out and
    [junk] the indeterminate content of memory obtained from [malloc].  When
    the request cannot be met the wrappers call [abort()]: no result. *)
Record heap := { avail : Z; junk : nat → Z }.

Definition xcalloc (hp : heap) (count : Z) : option bitset :=
  if decide (count <= avail hp) then Some (replicate (Z.to_nat count) 0) else None.

Definition xmalloc (hp : heap) (count : Z) : option bitset :=
  if decide (count <= avail hp) then Some (junk hp <$> seq 0 (Z.to_nat count)) else None.

(** ** Allocation and lifecycle *)

Definition bitset_new (hp : heap) (elements : Z) : option bitset :=
  let w := REQ_SZ elements in
  set ← xcalloc hp w;
  bitset_set_size set (sz_sub w 1).

(** [BITSET_FIELD(set, size) + 1] is computed in [uint32_t] (the field's
    type absorbs the [int] literal) before it is widened to [size_t]. *)
Definition bitset_dupl (hp : heap) (set : bitset) : option bitset :=
  n ← BITSET_FIELD_size set;
  let len := (n + 1) mod 2 ^ 32 in
  dupl ← xmalloc hp len;
  memcpy dupl set len.

Definition bitset_copy (dst src : bitset) : option bitset :=
  len ← BITSET_FIELD_size src;
  memcpy dst src (sz_add len 1).

Definition bitset_null (set : bitset) (elements : Z) : option bitset :=
  let w := REQ_SZ elements in
  set ← memset0 set w;
  bitset_set_size set (sz_sub w 1).

Definition bitset_reset (set : bitset) : option bitset :=
  w ← BITSET_FIELD_size set;
  set ← memset0 set (sz_add w 1);
  bitset_set_size set w.

(** [for (size_t i = first; i <= w; i++) body], with [cnt] lanes to go. *)
Fixpoint for_up (cnt : nat) (i : nat) (body : nat → bitset → option bitset)
    (s : bitset) : option bitset :=
  match cnt with
  | O => Some s
  | S c => s' ← body i s; for_up c (S i) body s'
  end.

(** A shift by 64 or more is undefined; the model has no result for it. *)
Definition bitset_universe (set : bitset) (elements : Z) : option bitset :=
  set ← store set 0 0;
  let w := sz_sub (REQ_SZ elements) 1 in
  set ← for_up (Z.to_nat w) 1 (λ i s, store s i UINT64_MAX) set;
  x ← load set (Z.to_nat w);
  let sh := sz_sub (sz_mul 64 w) elements in
  set ← (if decide (sh < 64) then store set (Z.to_nat w) (Z.shiftr x sh) else None);
  bitset_set_size set w.

(** ** Element accessors *)

Definition bitset_get (set : bitset) (index : Z) : option bool :=
  let word := ELEM_WORD index in
  let bit := ELEM_BIT index in
  x ← load set (Z.to_nat word);
  Some (negb (Z.land x (shl64 1 bit) =? 0)).

Definition bitset_set (set : bitset) (index : Z) : option bitset :=
  let word := ELEM_WORD index in
  let bit := ELEM_BIT index in
  x ← load set (Z.to_nat word);
  store set (Z.to_nat word) (Z.lor x (shl64 1 bit)).

Definition bitset_clear (set : bitset) (index : Z) : option bitset :=
  let word := ELEM_WORD index in
  let bit := ELEM_BIT index in
  x ← load set (Z.to_nat word);
  store set (Z.to_nat word) (Z.land x (not64 (shl64 1 bit))).

(** ** Predicates and metrics *)

Definition bitset_equal (a b : bitset) : option bool :=
  len ← BITSET_FIELD_size a;
  c ← memcmp (drop 1 a) (drop 1 b) len;
  Some (c =? 0).

Definition bitset_ord (set : bitset) : option Z :=
  n ← BITSET_FIELD_size set;
  sum_down (Z.to_nat n) (λ i, x ← load set i; Some (popcountll x)) 0.

Definition bitset_tag_ord (set : bitset) : option bitset :=
  n ← BITSET_FIELD_size set;
  sum ← sum_down (Z.to_nat n) (λ i, x ← load set i; Some (popcountll x)) 0;
  bitset_set_tag set sum.

Definition bitset_dist (a b : bitset) : option Z :=
  n ← BITSET_FIELD_size a;
  sum_down (Z.to_nat n)
    (λ i, ai ← load a i; bi ← load b i; Some (popcountll (Z.land ai bi))) 0.

Definition bitset_empty (a : bitset) : option bool :=
  n ← BITSET_FIELD_size a;
  none_down (Z.to_nat n) (λ i, ai ← load a i; Some (negb (ai =? 0))).

Definition bitset_disjoint (a b : bitset) : option bool :=
  n ← BITSET_FIELD_size a;
  none_down (Z.to_nat n)
    (λ i, ai ← load a i; bi ← load b i; Some (negb (Z.land ai bi =? 0))).

Definition bitset_implies (a b : bitset) : option bool :=
  n ← BITSET_FIELD_size a;
  none_down (Z.to_nat n)
    (λ i, ai ← load a i; bi ← load b i; Some (negb (Z.land ai (not64 bi) =? 0))).

Definition bitset_implies_alt (a b : bitset) : option bool :=
  n ← BITSET_FIELD_size a;
  none_down (Z.to_nat n)
    (λ i, ai ← load a i; bi ← load b i; Some (negb (Z.land (not64 ai) bi =? 0))).

(** ** Set algebra *)

Definition bitset_and (r a b : bitset) : option bitset :=
  '(r, n) ← BITSET_COPY_FIELD_size r a;
  for_down (Z.to_nat n)
    (λ i r, ai ← load a i; bi ← load b i; store r i (Z.land ai bi)) r.

Definition bitset_and_inplace (a b : bitset) : option bitset :=
  n ← BITSET_FIELD_size a;
  for_down (Z.to_nat n)
    (λ i a, ai ← load a i; bi ← load b i; store a i (Z.land ai bi)) a.

Definition bitset_or (r a b : bitset) : option bitset :=
  '(r, n) ← BITSET_COPY_FIELD_size r a;
  for_down (Z.to_nat n)
    (λ i r, ai ← load a i; bi ← load b i; store r i (Z.lor ai bi)) r.

Definition bitset_or_inplace (a b : bitset) : option bitset :=
  n ← BITSET_FIELD_size a;
  for_down (Z.to_nat n)
    (λ i a, ai ← load a i; bi ← load b i; store a i (Z.lor ai bi)) a.

(** The bound is read from [a]; the lanes written are those of [r]. *)
Definition bitset_xand (r a b : bitset) : option bitset :=
  n ← BITSET_FIELD_size a;
  for_down (Z.to_nat n)
    (λ i r, ri ← load r i; ai ← load a i; bi ← load b i;
            store r i (Z.land ri (Z.lxor ai bi))) r.

Definition bitset_diff (r a b : bitset) : option bitset :=
  '(r, n) ← BITSET_COPY_FIELD_size r a;
  for_down (Z.to_nat n)
    (λ i r, ai ← load a i; bi ← load b i; store r i (Z.land ai (not64 bi))) r.

Definition bitset_diff_inplace (a b : bitset) : option bitset :=
  n ← BITSET_FIELD_size a;
  for_down (Z.to_nat n)
    (λ i a, ai ← load a i; bi ← load b i; store a i (Z.land ai (not64 bi))) a.

Definition bitset_diff_inplace_alt (a b : bitset) : option bitset :=
  n ← BITSET_FIELD_size a;
  for_down (Z.to_nat n)
    (λ i b, ai ← load a i; bi ← load b i; store b i (Z.land ai (not64 bi))) b.

Definition bitset_symmetric_diff_union (r a b c : bitset) : option bitset :=
  '(r, n) ← BITSET_COPY_FIELD_size r a;
  for_down (Z.to_nat n)
    (λ i r, ai ← load a i; bi ← load b i; ci ← load c i;
            store r i (Z.lor ai (Z.land bi (not64 ci)))) r.

Definition mask_lane (a b : Z) : Z := Z.land a (not64 (Z.land a (not64 b))).

Definition bitset_mask_inplace (a b : bitset) : option bitset :=
  n ← BITSET_FIELD_size a;
  for_down (Z.to_nat n)
    (λ i a, ai ← load a i; bi ← load b i; store a i (mask_lane ai bi)) a.

Definition merge_lane (a b c : Z) : Z := Z.lxor b (Z.land (Z.lxor b a) c).

(** The two-step form the documentation names as the idiomatic equivalent:
    [(a & c) | (b & ~c)]. *)
Definition merge_lane_two_step (a b c : Z) : Z :=
  Z.lor (Z.land a c) (Z.land b (not64 c)).

Definition bitset_merge (r a b c : bitset) : option bitset :=
  '(r, n) ← BITSET_COPY_FIELD_size r a;
  for_down (Z.to_nat n)
    (λ i r, ai ← load a i; bi ← load b i; ci ← load c i;
            store r i (merge_lane ai bi ci)) r.

(** ** Notions used to state the properties *)

(** The storage holds the header and the payload lanes the header declares. *)
Definition size_of (s : bitset) : nat :=
  Z.to_nat (hdr_size (default 0 (s !! 0%nat))).

Definition holds (s : bitset) : Prop := (size_of s < length s)%nat.

(** One step of a pass that rewrites lane [i] from its old value. *)
Definition lane_update (f : nat → Z → option Z) (i : nat) (s : bitset)
    : option bitset :=
  x ← s !! i; y ← f i x; Some (<[i:=y]> s).

(** [res] is the outcome of a pass over lanes [n], ..., [1] of [s] that
    replaces lane [i], holding [x], by [f i x]: the pass completes, the
    storage keeps its length, lane 0 and the lanes above [n] are untouched. *)
Definition pass_result (n : nat) (f : nat → Z → option Z) (s : bitset)
    (res : option bitset) : Prop :=
  ∃ s', res = Some s'
    ∧ length s' = length s
    ∧ (∀ i, (i = 0 ∨ n < i)%nat → s' !! i = s !! i)
    ∧ (∀ i, (1 ≤ i ≤ n)%nat →
         ∃ x y, s !! i = Some x ∧ f i x = Some y ∧ s' !! i = Some y).

(** Lane 0 holds the size [v] and nothing else: [flags] and [tag] read 0. *)
Definition header_cleared (s : bitset) (v : Z) : Prop :=
  s !! 0%nat = Some (hdr_with_size 0 v)
  ∧ bitset_get_size s = Some (v mod 2 ^ 32)
  ∧ bitset_get_tag s = Some 0
  ∧ ∀ flag, bitset_get_flag s flag = Some false.

(** The operands of the documented scenario, capacity 128 (two payload
    lanes): [a_low] holds elements 0-63, [b_high] elements 64-127. *)
Definition a_low : bitset := [2; UINT64_MAX; 0].
Definition b_high : bitset := [2; 0; UINT64_MAX].

(** ** Remaining header macros *)

(** [bitset_clear_flag]: [flags &= ~(uint16_t)(flag)]; the complement is taken
    in [int] and the result narrowed back to the 16-bit field. *)
Definition bitset_clear_flag (s : bitset) (flag : Z) : option bitset :=
  h ← load s 0;
  store s 0 (hdr_with_flags h (Z.land (hdr_flags h) (Z.lnot (Z.land flag 0xFFFF)))).

(** [bitset_inc_key]: [tag++]; the value of the expression is the old tag. *)
Definition bitset_inc_key (s : bitset) : option (bitset * Z) :=
  h ← load s 0;
  s' ← store s 0 (hdr_with_tag h (hdr_tag h + 1));
  Some (s', hdr_tag h).

(** [bitset_dec_tag]: [tag--] *)
Definition bitset_dec_tag (s : bitset) : option (bitset * Z) :=
  h ← load s 0;
  s' ← store s 0 (hdr_with_tag h (hdr_tag h - 1));
  Some (s', hdr_tag h).

(** The flags of [setflags_t]. *)
Definition SET_ACTIVE : Z := 0x01.
Definition SET_COMPRESSED : Z := 0x02.
Definition SET_CAN_BE_FREED : Z := 0x04.

(** Outcome of an out-of-place operation into [r] whose bound is [a]'s size:
    the call completes, [r] takes the size of [a] and keeps its own flags and
    tag, payload lane [i] of the result is [f i] for [i] up to that size, and
    the lanes of [r] above it are untouched. *)
Definition out_result (r a : bitset) (f : nat → option Z)
    (res : option bitset) : Prop :=
  ∃ r', res = Some r'
    ∧ length r' = length r
    ∧ bitset_get_size r' = bitset_get_size a
    ∧ bitset_get_tag r' = bitset_get_tag r
    ∧ (∀ flag, bitset_get_flag r' flag = bitset_get_flag r flag)
    ∧ (∀ i, (1 ≤ i ≤ size_of a)%nat → ∃ y, f i = Some y ∧ r' !! i = Some y)
    ∧ (∀ i, (size_of a < i)%nat → r' !! i = r !! i).

(** Only lane 0 differs between [s] and [s'], and its size field is kept. *)
Definition header_only (s s' : bitset) : Prop :=
  length s' = length s
  ∧ bitset_get_size s' = bitset_get_size s
  ∧ ∀ i, (1 ≤ i)%nat → s' !! i = s !! i.

(** * Properties *)

(** ** Storage and loop lemmas *)

Lemma store_Some (s : bitset) i v :
  (i < length s)%nat → store s i v = Some (<[i:=v]> s).
Proof. intros Hi. unfold store. by rewrite decide_True. Qed.

Lemma holds_header (s : bitset) :
  holds s → ∃ h, s !! 0%nat = Some h ∧ size_of s = Z.to_nat (hdr_size h).
Proof.
  unfold holds, size_of. destruct s as [|h t]; simpl; [lia|]. eauto.
Qed.

Lemma holds_field_size (s : bitset) :
  holds s →
  ∃ n, BITSET_FIELD_size s = Some n ∧ Z.to_nat n = size_of s
       ∧ 0 <= n < 2 ^ 32.
Proof.
  intros (h & Hh & Hs)%holds_header. exists (hdr_size h).
  unfold BITSET_FIELD_size, load. rewrite Hh. simpl.
  split; [done|]. split; [done|].
  unfold hdr_size. change 0xFFFFFFFF with (Z.ones 32).
  rewrite Z.land_ones by lia. apply Z.mod_pos_bound. lia.
Qed.

Lemma for_down_ext n f g s :
  (∀ i s, (1 ≤ i ≤ n)%nat → f i s = g i s) →
  for_down n f s = for_down n g s.
Proof.
  revert s. induction n as [|n IH]; intros s Hfg; [done|].
  simpl. rewrite Hfg by lia. destruct (g (S n) s); simpl; [|done].
  apply IH. intros; apply Hfg; lia.
Qed.

Lemma lane_update_inv f i (s s1 : bitset) :
  lane_update f i s = Some s1 →
  ∃ x y, s !! i = Some x ∧ f i x = Some y ∧ s1 = <[i:=y]> s.
Proof.
  unfold lane_update. intros H.
  destruct (s !! i) as [x|]; simpl in H; [|done].
  destruct (f i x) as [y|] eqn:Ey; simpl in H; [|done].
  injection H as <-. eauto.
Qed.

Lemma lane_update_Some f i (s : bitset) x y :
  s !! i = Some x → f i x = Some y → lane_update f i s = Some (<[i:=y]> s).
Proof. unfold lane_update. intros -> ?. simpl. by rewrite H. Qed.

Lemma for_down_S n body s :
  for_down (S n) body s = body (S n) s ≫= for_down n body.
Proof. done. Qed.

Lemma for_down_inv n f (s s' : bitset) :
  for_down n (lane_update f) s = Some s' →
  length s' = length s
  ∧ (∀ i, (i = 0 ∨ n < i)%nat → s' !! i = s !! i)
  ∧ (∀ i, (1 ≤ i ≤ n)%nat →
       ∃ x y, s !! i = Some x ∧ f i x = Some y ∧ s' !! i = Some y).
Proof.
  revert s. induction n as [|n IH]; intros s H.
  - injection H as <-. split; [done|]. split; [done|]. intros; lia.
  - rewrite for_down_S in H.
    destruct (lane_update f (S n) s) as [s1|] eqn:E1; simpl in H; [|done].
    apply lane_update_inv in E1 as (x & y & Ex & Ey & ->).
    apply IH in H as (Hlen & Hframe & Hlanes).
    rewrite length_insert in Hlen. split; [done|]. split.
    + intros i Hi. rewrite Hframe by lia. apply list_lookup_insert_ne; lia.
    + intros i Hi. destruct (decide (i = S n)) as [->|Hne].
      * exists x, y. split; [done|]. split; [done|].
        rewrite Hframe by lia. apply list_lookup_insert_eq.
        by apply lookup_lt_Some in Ex.
      * destruct (Hlanes i) as (x' & y' & Hx' & Hy' & Hs'); [lia|].
        exists x', y'. rewrite list_lookup_insert_ne in Hx' by lia. done.
Qed.

Lemma for_down_ok n f (s : bitset) :
  (∀ i, (1 ≤ i ≤ n)%nat → ∃ x y, s !! i = Some x ∧ f i x = Some y) →
  ∃ s', for_down n (lane_update f) s = Some s'.
Proof.
  revert s. induction n as [|n IH]; intros s H; [by exists s|].
  destruct (H (S n)) as (x & y & Hx & Hy); [lia|].
  rewrite for_down_S, (lane_update_Some _ _ _ _ _ Hx Hy). simpl.
  apply IH. intros i Hi. destruct (H i) as (x' & y' & Hx' & Hy'); [lia|].
  exists x', y'. rewrite list_lookup_insert_ne by lia. done.
Qed.

Lemma none_down_spec n (stop : nat → option bool) :
  (∀ i, (1 ≤ i ≤ n)%nat → is_Some (stop i)) →
  ∃ r, none_down n stop = Some r
       ∧ (r = true ↔ ∀ i, (1 ≤ i ≤ n)%nat → stop i = Some false).
Proof.
  induction n as [|n IH]; intros H; simpl.
  - exists true. split; [done|]. split; [intros; lia|done].
  - destruct (H (S n)) as [t Ht]; [lia|]. rewrite Ht. simpl.
    destruct t.
    + exists false. split; [done|]. split; [done|].
      intros Hall. specialize (Hall (S n)). rewrite Ht in Hall.
      assert (Some true = Some false) by (apply Hall; lia). done.
    + destruct IH as (r & Hr & Hiff); [intros; apply H; lia|].
      exists r. split; [done|]. rewrite Hiff. split.
      * intros Hall i Hi. destruct (decide (i = S n)) as [->|]; [done|].
        apply Hall; lia.
      * intros Hall i Hi. apply Hall; lia.
Qed.

Lemma sum_down_ext n f g acc :
  (∀ i, (1 ≤ i ≤ n)%nat → f i = g i) → sum_down n f acc = sum_down n g acc.
Proof.
  revert acc. induction n as [|n IH]; intros acc Hfg; [done|].
  simpl. rewrite Hfg by lia. destruct (g (S n)); simpl; [|done].
  apply IH. intros; apply Hfg; lia.
Qed.

Lemma sum_down_ok n (term : nat → option Z) acc :
  (∀ i, (1 ≤ i ≤ n)%nat → is_Some (term i)) →
  is_Some (sum_down n term acc).
Proof.
  revert acc. induction n as [|n IH]; intros acc H; simpl; [eauto|].
  destruct (H (S n)) as [t Ht]; [lia|]. rewrite Ht. simpl.
  apply IH. intros; apply H; lia.
Qed.

(** ** Bit-level facts about lanes *)

Lemma UINT64_MAX_ones : UINT64_MAX = Z.ones 64.
Proof. reflexivity. Qed.

Lemma not64_spec x k :
  0 <= k →
  Z.testbit (not64 x) k = if k <? 64 then negb (Z.testbit x k) else Z.testbit x k.
Proof.
  intros Hk. unfold not64. rewrite UINT64_MAX_ones, Z.lxor_spec.
  rewrite Z.testbit_ones by lia.
  destruct (Z.ltb_spec k 64), (Z.leb_spec 0 k); try lia;
    destruct (Z.testbit x k); reflexivity.
Qed.

Lemma word64_high x k : word64 x → 64 <= k → Z.testbit x k = false.
Proof.
  intros [H0 H1] Hk. destruct (decide (x = 0)) as [->|Hx].
  - apply Z.testbit_0_l.
  - apply Z.bits_above_log2; [done|].
    assert (Z.log2 x < 64); [|lia]. apply Z.log2_lt_pow2; lia.
Qed.

Lemma word64_eq x y :
  word64 x → word64 y →
  (∀ k, 0 <= k < 64 → Z.testbit x k = Z.testbit y k) → x = y.
Proof.
  intros Hx Hy H. apply Z.bits_inj'. intros k Hk.
  destruct (Z.lt_ge_cases k 64); [apply H; lia|].
  by rewrite !word64_high.
Qed.

Lemma merge_lane_select a b c k :
  0 <= k →
  Z.testbit (merge_lane a b c) k
  = if Z.testbit c k then Z.testbit a k else Z.testbit b k.
Proof.
  intros Hk. unfold merge_lane. rewrite Z.lxor_spec, Z.land_spec, Z.lxor_spec.
  by destruct (Z.testbit a k), (Z.testbit b k), (Z.testbit c k).
Qed.

Lemma merge_lane_two_step_select a b c k :
  0 <= k < 64 →
  Z.testbit (merge_lane_two_step a b c) k
  = if Z.testbit c k then Z.testbit a k else Z.testbit b k.
Proof.
  intros Hk. unfold merge_lane_two_step.
  rewrite Z.lor_spec, !Z.land_spec, not64_spec by lia.
  destruct (Z.ltb_spec k 64); [|lia].
  by destruct (Z.testbit a k), (Z.testbit b k), (Z.testbit c k).
Qed.

Lemma merge_lane_two_step_eq a b c :
  word64 a → word64 b → word64 c →
  merge_lane a b c = merge_lane_two_step a b c.
Proof.
  intros Ha Hb Hc. apply Z.bits_inj'. intros k Hk.
  destruct (Z.lt_ge_cases k 64).
  - by rewrite merge_lane_select, merge_lane_two_step_select by lia.
  - unfold merge_lane, merge_lane_two_step.
    rewrite Z.lxor_spec, Z.lor_spec, !Z.land_spec, Z.lxor_spec.
    by rewrite (word64_high a), (word64_high b), (word64_high c).
Qed.

Lemma mask_lane_and a b : mask_lane a b = Z.land a b.
Proof.
  apply Z.bits_inj'. intros k Hk. unfold mask_lane.
  rewrite !Z.land_spec, not64_spec, Z.land_spec, not64_spec by lia.
  destruct (k <? 64), (Z.testbit a k), (Z.testbit b k); reflexivity.
Qed.

Lemma implies_lane_zero a b :
  word64 a →
  Z.land a (not64 b) = 0 ↔
  ∀ k, 0 <= k < 64 → Z.testbit a k = true → Z.testbit b k = true.
Proof.
  intros Ha. split.
  - intros H k Hk Hak.
    assert (Z.testbit (Z.land a (not64 b)) k = false) as Hbit
      by (rewrite H; apply Z.bits_0).
    rewrite Z.land_spec, not64_spec, Hak in Hbit by lia.
    destruct (Z.ltb_spec k 64); [|lia]. by destruct (Z.testbit b k).
  - intros H. apply Z.bits_inj'. intros k Hk.
    rewrite Z.land_spec, Z.bits_0, not64_spec by lia.
    destruct (Z.ltb_spec k 64).
    + destruct (Z.testbit a k) eqn:Hak; [|done]. by rewrite H.
    + by rewrite word64_high.
Qed.

(** ** The header fields *)

Ltac bitblast :=
  apply Z.bits_inj'; intros ?k ?Hk;
  repeat first
    [ rewrite Z.land_spec | rewrite Z.lor_spec | rewrite Z.bits_0
    | rewrite Z.shiftl_spec by lia | rewrite Z.shiftr_spec by lia
    | rewrite Z.testbit_ones by lia ];
  repeat match goal with
    | |- context [?a <? ?b] => destruct (Z.ltb_spec a b)
    | |- context [?a <=? ?b] => destruct (Z.leb_spec a b)
    end;
  try lia;
  rewrite ?(Z.testbit_neg_r _ (_ - _)) by lia;
  simpl; rewrite ?andb_true_r, ?andb_false_r, ?orb_false_r, ?orb_false_l;
  try reflexivity; try (f_equal; lia).

Lemma mask_lo32 : 0xFFFFFFFF = Z.ones 32.
Proof. reflexivity. Qed.
Lemma mask_hi32 : 0xFFFFFFFF00000000 = Z.shiftl (Z.ones 32) 32.
Proof. reflexivity. Qed.
Lemma mask_lo16 : 0xFFFF = Z.ones 16.
Proof. reflexivity. Qed.
Lemma mask_lo48 : 0x0000FFFFFFFFFFFF = Z.ones 48.
Proof. reflexivity. Qed.

Lemma hdr_size_mod h : hdr_size h = h mod 2 ^ 32.
Proof. unfold hdr_size. rewrite mask_lo32. apply Z.land_ones. lia. Qed.

Lemma hdr_size_range h : 0 <= hdr_size h < 2 ^ 32.
Proof. rewrite hdr_size_mod. apply Z.mod_pos_bound. lia. Qed.

Lemma hdr_size_with_size h v : hdr_size (hdr_with_size h v) = v mod 2 ^ 32.
Proof.
  rewrite <- (Z.land_ones v 32) by lia.
  unfold hdr_size, hdr_with_size. rewrite mask_lo32, mask_hi32. bitblast.
Qed.

Lemma hdr_flags_with_size h v : hdr_flags (hdr_with_size h v) = hdr_flags h.
Proof.
  unfold hdr_flags, hdr_with_size. rewrite mask_lo32, mask_hi32, mask_lo16.
  bitblast.
Qed.

Lemma hdr_tag_with_size h v : hdr_tag (hdr_with_size h v) = hdr_tag h.
Proof.
  unfold hdr_tag, hdr_with_size. rewrite mask_lo32, mask_hi32, mask_lo16.
  bitblast.
Qed.

Lemma hdr_tag_with_tag h v : hdr_tag (hdr_with_tag h v) = v mod 2 ^ 16.
Proof.
  rewrite <- (Z.land_ones v 16) by lia.
  unfold hdr_tag, hdr_with_tag. rewrite mask_lo48, mask_lo16. bitblast.
Qed.

Lemma hdr_size_with_tag h v : hdr_size (hdr_with_tag h v) = hdr_size h.
Proof.
  unfold hdr_size, hdr_with_tag. rewrite mask_lo48, mask_lo16, mask_lo32.
  bitblast.
Qed.

Lemma hdr_flags_with_tag h v : hdr_flags (hdr_with_tag h v) = hdr_flags h.
Proof.
  unfold hdr_flags, hdr_with_tag. rewrite mask_lo48, mask_lo16.
  bitblast.
Qed.

(** ** The passes of the set algebra as lane updates *)

Lemma copy_field_ok (r a : bitset) ha hr :
  a !! 0%nat = Some ha → r !! 0%nat = Some hr →
  BITSET_COPY_FIELD_size r a
  = Some (<[0%nat := hdr_with_size hr (hdr_size ha)]> r, hdr_size ha).
Proof.
  intros Ha Hr. unfold BITSET_COPY_FIELD_size, load. rewrite Ha, Hr. simpl.
  rewrite store_Some by (by apply lookup_lt_Some in Hr). done.
Qed.

Ltac body_cases r i :=
  unfold load, lane_update, store;
  destruct (r !! i) eqn:?E;
  [ apply lookup_lt_Some in E | apply lookup_ge_None in E ];
  repeat match goal with
    | |- context [@lookup _ _ _ _ i ?s] => destruct (s !! i); simpl
    end;
  try done; case_decide; (done || lia).

(** [r[i] = g(a[i], b[i], c[i])] *)
Lemma body_out3 (g : Z → Z → Z → Z) (a b c r : bitset) i :
  (ai ← load a i; bi ← load b i; ci ← load c i; store r i (g ai bi ci))
  = lane_update
      (λ i _, ai ← a !! i; bi ← b !! i; ci ← c !! i; Some (g ai bi ci)) i r.
Proof. body_cases r i. Qed.

(** [a[i] = g(a[i], b[i])] *)
Lemma body_in2 (g : Z → Z → Z) (a b : bitset) i :
  (ai ← load a i; bi ← load b i; store a i (g ai bi))
  = lane_update (λ i ai, bi ← b !! i; Some (g ai bi)) i a.
Proof. body_cases a i. Qed.

(** [r[i] = g(r[i], a[i], b[i])] *)
Lemma body_in3 (g : Z → Z → Z → Z) (r a b : bitset) i :
  (ri ← load r i; ai ← load a i; bi ← load b i; store r i (g ri ai bi))
  = lane_update (λ i ri, ai ← a !! i; bi ← b !! i; Some (g ri ai bi)) i r.
Proof. body_cases r i. Qed.

Lemma lookup_lt_ex (s : bitset) i : (i < length s)%nat → ∃ x, s !! i = Some x.
Proof. intros H. by apply lookup_lt_is_Some in H as [x Hx]; exists x. Qed.

Lemma for_down_pass_result n f (s : bitset) :
  (∀ i, (1 ≤ i ≤ n)%nat → ∃ x y, s !! i = Some x ∧ f i x = Some y) →
  pass_result n f s (for_down n (lane_update f) s).
Proof.
  intros H. destruct (for_down_ok n f s H) as [s' Hs'].
  exists s'. split; [done|]. by apply for_down_inv.
Qed.

Lemma in2_pass_result (g : Z → Z → Z) (a b : bitset) :
  holds a → (size_of a < length b)%nat →
  pass_result (size_of a) (λ i ai, bi ← b !! i; Some (g ai bi)) a
    (n ← BITSET_FIELD_size a;
     for_down (Z.to_nat n)
       (λ i a, ai ← load a i; bi ← load b i; store a i (g ai bi)) a).
Proof.
  intros Ha Hb. destruct (holds_field_size a Ha) as (n & Hn & Hsz & _).
  rewrite Hn. simpl. rewrite Hsz.
  erewrite for_down_ext; [|intros i s _; apply (body_in2 g)].
  apply for_down_pass_result. intros i Hi.
  destruct (lookup_lt_ex a i) as [ai Hai]; [unfold holds in Ha; lia|].
  destruct (lookup_lt_ex b i) as [bi Hbi]; [lia|].
  exists ai, (g ai bi). by rewrite Hbi.
Qed.

Lemma bitset_xand_pass (r a b : bitset) :
  holds a → (size_of a < length r)%nat → (size_of a < length b)%nat →
  pass_result (size_of a)
    (λ i ri, ai ← a !! i; bi ← b !! i; Some (Z.land ri (Z.lxor ai bi))) r
    (bitset_xand r a b).
Proof.
  intros Ha Hr Hb. unfold bitset_xand.
  destruct (holds_field_size a Ha) as (n & Hn & Hsz & _).
  rewrite Hn. simpl. rewrite Hsz.
  erewrite for_down_ext;
    [|intros i s _; apply (body_in3 (λ ri ai bi, Z.land ri (Z.lxor ai bi)))].
  apply for_down_pass_result. intros i Hi.
  destruct (lookup_lt_ex r i) as [ri Hri]; [lia|].
  destruct (lookup_lt_ex a i) as [ai Hai]; [unfold holds in Ha; lia|].
  destruct (lookup_lt_ex b i) as [bi Hbi]; [lia|].
  exists ri, (Z.land ri (Z.lxor ai bi)). by rewrite Hai, Hbi.
Qed.

(** * Merge *)

(** C1: every bit of every payload lane of [bitset_merge(r, a, b, c)] is the
    bit of [a] where the bit of [c] is 1 and the bit of [b] where it is 0;
    the lane agrees bit for bit with the two-step form [(a & c) | (b & ~c)],
    and is equal to it as a 64-bit word. *)
Theorem bitset_merge_select (r a b c : bitset) :
  holds a →
  (size_of a < length r)%nat →
  (size_of a < length b)%nat →
  (size_of a < length c)%nat →
  ∃ r', bitset_merge r a b c = Some r'
    ∧ ∀ i, (1 ≤ i ≤ size_of a)%nat →
        ∃ ai bi ci ri,
          a !! i = Some ai ∧ b !! i = Some bi ∧ c !! i = Some ci
          ∧ r' !! i = Some ri
          ∧ (∀ k, 0 <= k < 64 →
               Z.testbit ri k
               = if Z.testbit ci k then Z.testbit ai k else Z.testbit bi k)
          ∧ (∀ k, 0 <= k < 64 →
               Z.testbit ri k = Z.testbit (merge_lane_two_step ai bi ci) k)
          ∧ (word64 ai → word64 bi → word64 ci →
               ri = merge_lane_two_step ai bi ci).
Proof.
  intros Ha Hr Hb Hc.
  destruct (holds_header a Ha) as (ha & Hha & Hsz).
  destruct (lookup_lt_ex r 0) as [hr Hhr]; [lia|].
  unfold bitset_merge. rewrite (copy_field_ok r a ha hr Hha Hhr). simpl.
  rewrite <- Hsz.
  erewrite for_down_ext; [|intros i s _; apply (body_out3 merge_lane)].
  set (r1 := <[0%nat:=_]> r).
  assert (length r1 = length r) as Hlen by apply length_insert.
  edestruct (for_down_ok (size_of a)) as [r' Hr']; last first.
  - exists r'. split; [exact Hr'|].
    apply for_down_inv in Hr' as (_ & _ & Hlanes).
    intros i Hi. destruct (Hlanes i Hi) as (x & y & Hx & Hy & Hy').
    destruct (a !! i) as [ai|]; simpl in Hy; [|done].
    destruct (b !! i) as [bi|]; simpl in Hy; [|done].
    destruct (c !! i) as [ci|]; simpl in Hy; [|done].
    injection Hy as <-. exists ai, bi, ci, (merge_lane ai bi ci).
    repeat (split; [done|]). split; [|split].
    + intros k Hk. apply merge_lane_select. lia.
    + intros k Hk.
      rewrite merge_lane_select, merge_lane_two_step_select by lia. done.
    + apply merge_lane_two_step_eq.
  - intros i Hi. simpl.
    destruct (lookup_lt_ex r1 i) as [x Hx]; [lia|].
    destruct (lookup_lt_ex a i) as [ai Hai]; [unfold holds in Ha; lia|].
    destruct (lookup_lt_ex b i) as [bi Hbi]; [lia|].
    destruct (lookup_lt_ex c i) as [ci Hci]; [lia|].
    exists x, (merge_lane ai bi ci). rewrite Hai, Hbi, Hci. done.
Qed.

Lemma bitset_merge_select_witness :
  ∃ r', bitset_merge [0; 0; 0] [2; 5; 3] [2; 6; 12] [2; 3; 10] = Some r'
        ∧ r' !! 1%nat = Some 5 ∧ r' !! 2%nat = Some 6.
Proof.
  destruct (bitset_merge_select [0; 0; 0] [2; 5; 3] [2; 6; 12] [2; 3; 10])
    as (r' & Hr' & _).
  - unfold holds. vm_compute. lia.
  - vm_compute. lia.
  - vm_compute. lia.
  - vm_compute. lia.
  - exists r'. split; [exact Hr'|].
    vm_compute in Hr'. injection Hr' as <-. split; reflexivity.
Defined.

(** C2 (amended): with capacity 128, [a] = elements 0-63, [b] = elements
    64-127 and [c] = elements 0-63, [bitset_merge(r, a, b, c)] leaves in [r]
    elements 0-63 set (taken from [a], where [c] is 1) and elements 64-127
    set as well (taken from [b], where [c] is 0): all 128 elements, under a
    header whose size is that of [a].  The result differs from [a]. *)
Theorem bitset_merge_scenario :
  REQ_SZ 128 = 3
  ∧ Forall (λ e, bitset_get a_low e = Some (bool_decide (e < 64))) (seqZ 0 128)
  ∧ Forall (λ e, bitset_get b_high e = Some (bool_decide (64 <= e))) (seqZ 0 128)
  ∧ (∀ hr x y,
       ∃ r', bitset_merge [hr; x; y] a_low b_high a_low = Some r'
             ∧ r' = [hdr_with_size hr 2; UINT64_MAX; UINT64_MAX]
             ∧ Forall (λ e, bitset_get r' e = Some true) (seqZ 0 128)
             ∧ bitset_equal r' a_low = Some false)
  ∧ bitset_new {| avail := 3; junk := λ _, 0 |} 128 = Some [2; 0; 0]
  ∧ bitset_merge [2; 0; 0] a_low b_high a_low
    = Some [2; UINT64_MAX; UINT64_MAX].
Proof.
  split; [reflexivity|].
  split; [compute_done|].
  split; [compute_done|].
  split; [|split; vm_compute; reflexivity].
  intros hr x y. exists [hdr_with_size hr 2; UINT64_MAX; UINT64_MAX].
  split; [reflexivity|]. split; [reflexivity|].
  split; [compute_done|].
  unfold bitset_equal, BITSET_FIELD_size, load.
  change (_ !! 0%nat) with (Some (hdr_with_size hr 2)). simpl.
  rewrite hdr_size_with_size. reflexivity.
Qed.

(** C2 as stated fails: element 64 of the result is set, and the result is
    not [a]. *)
Lemma bitset_merge_scenario_counterexample :
  ∃ r', bitset_merge [2; 0; 0] a_low b_high a_low = Some r'
        ∧ bitset_get r' 64 = Some true
        ∧ r' ≠ a_low
        ∧ bitset_equal r' a_low = Some false.
Proof.
  eexists. split; [vm_compute; reflexivity|].
  split; [vm_compute; reflexivity|].
  split; [|vm_compute; reflexivity].
  intros H. vm_compute in H. discriminate H.
Qed.

(** * Masking *)

(** C6: [bitset_mask_inplace(a, b)] returns what [bitset_and_inplace(a, b)]
    returns, for all operands; each payload lane of the result keeps exactly
    the bits of [a] that are also set in [b], and the header is untouched.
    With [a] = {0,1,2} and [b] = {1,2} (capacity 3), [a] becomes {1,2}. *)
Theorem bitset_mask_inplace_is_and :
  (∀ a b : bitset, bitset_mask_inplace a b = bitset_and_inplace a b)
  ∧ (∀ a b : bitset, holds a → (size_of a < length b)%nat →
       ∃ a', bitset_mask_inplace a b = Some a'
         ∧ bitset_and_inplace a b = Some a'
         ∧ a' !! 0%nat = a !! 0%nat
         ∧ ∀ i, (1 ≤ i ≤ size_of a)%nat →
             ∃ ai bi x, a !! i = Some ai ∧ b !! i = Some bi ∧ a' !! i = Some x
               ∧ ∀ k, 0 <= k →
                   Z.testbit x k = Z.testbit ai k && Z.testbit bi k)
  ∧ (let hp := {| avail := 2; junk := λ _, 0 |} in
     (a ← bitset_new hp 3; a ← bitset_set a 0; a ← bitset_set a 1;
      bitset_set a 2) = Some [1; 7]
     ∧ (b ← bitset_new hp 3; b ← bitset_set b 1; bitset_set b 2) = Some [1; 6]
     ∧ bitset_mask_inplace [1; 7] [1; 6] = Some [1; 6]
     ∧ Forall (λ e, bitset_get [1; 6] e = Some (bool_decide (e = 1 ∨ e = 2)))
         (seqZ 0 64)).
Proof.
  assert (∀ a b : bitset, bitset_mask_inplace a b = bitset_and_inplace a b)
    as Heq.
  { intros a b. unfold bitset_mask_inplace, bitset_and_inplace.
    destruct (BITSET_FIELD_size a) as [n|]; simpl; [|done].
    apply for_down_ext. intros i s _. unfold load.
    destruct (s !! i) as [ai|]; simpl; [|done].
    destruct (b !! i) as [bi|]; simpl; [|done].
    by rewrite mask_lane_and. }
  split; [exact Heq|]. split.
  - intros a b Ha Hb. rewrite Heq.
    destruct (in2_pass_result Z.land a b Ha Hb)
      as (a' & Ha' & _ & Hframe & Hlanes).
    exists a'. split; [done|]. split; [done|].
    split; [apply Hframe; lia|].
    intros i Hi. destruct (Hlanes i Hi) as (ai & y & Hai & Hy & Hx).
    destruct (b !! i) as [bi|]; [|done]. injection Hy as <-.
    exists ai, bi, (Z.land ai bi). repeat (split; [done|]).
    intros k _. apply Z.land_spec.
  - simpl. split; [vm_compute; reflexivity|]. split; [vm_compute; reflexivity|].
    split; [vm_compute; reflexivity|]. compute_done.
Qed.

Lemma bitset_mask_inplace_is_and_witness :
  ∃ a', bitset_mask_inplace [2; 12; 10] [2; 10; 3] = Some a'
        ∧ bitset_and_inplace [2; 12; 10] [2; 10; 3] = Some a'.
Proof.
  destruct bitset_mask_inplace_is_and as (_ & H & _).
  destruct (H [2; 12; 10] [2; 10; 3]) as (a' & Hm & Ha & _).
  - unfold holds. vm_compute. lia.
  - vm_compute. lia.
  - exists a'. split; [exact Hm|exact Ha].
Defined.

(** * Implication and equality *)

Lemma lanes_eq_zero x y :
  word64 x → word64 y →
  Z.land x (not64 y) = 0 ∧ Z.land y (not64 x) = 0 ↔ x = y.
Proof.
  intros Hx Hy. rewrite !implies_lane_zero by done. split.
  - intros [Hxy Hyx]. apply word64_eq; [done..|]. intros k Hk.
    destruct (Z.testbit x k) eqn:Ex, (Z.testbit y k) eqn:Ey; try done.
    + specialize (Hxy k Hk Ex). congruence.
    + specialize (Hyx k Hk Ey). congruence.
  - intros ->. done.
Qed.

Lemma lane_self_zero x : word64 x → Z.land x (not64 x) = 0.
Proof. intros Hx. by apply implies_lane_zero. Qed.

Lemma lane_word64 (s : bitset) i x :
  Forall word64 s → s !! i = Some x → word64 x.
Proof. intros Hs Hx. exact (Forall_lookup_1 _ _ _ _ Hs Hx). Qed.

Lemma payload_eq_lookup (a b : bitset) n :
  take n (drop 1 a) = take n (drop 1 b)
  ↔ ∀ i, (1 ≤ i ≤ n)%nat → a !! i = b !! i.
Proof.
  split.
  - intros H i Hi.
    assert (take n (drop 1 a) !! (i - 1)%nat = take n (drop 1 b) !! (i - 1)%nat)
      as Hl by (by rewrite H).
    rewrite !lookup_take, !lookup_drop in Hl.
    rewrite !decide_True in Hl by lia.
    replace (1 + (i - 1))%nat with i in Hl by lia. exact Hl.
  - intros H. apply list_eq. intros j.
    rewrite !lookup_take, !lookup_drop. case_decide; [|done].
    apply H. lia.
Qed.

Lemma bitset_implies_spec (a b : bitset) :
  holds a → (size_of a < length b)%nat →
  ∃ r, bitset_implies a b = Some r
    ∧ (r = true ↔
       ∀ i ai bi, (1 ≤ i ≤ size_of a)%nat →
         a !! i = Some ai → b !! i = Some bi → Z.land ai (not64 bi) = 0).
Proof.
  intros Ha Hb. unfold bitset_implies.
  destruct (holds_field_size a Ha) as (n & Hn & Hsz & Hrange).
  rewrite Hn. simpl. rewrite Hsz.
  edestruct (none_down_spec (size_of a)) as (r & Hr & Hiff); last first.
  - exists r. split; [exact Hr|]. rewrite Hiff. unfold load. split.
    + intros H i ai bi Hi Hai Hbi. specialize (H i Hi).
      rewrite Hai, Hbi in H. simpl in H. injection H as H.
      apply negb_false_iff in H. by apply Z.eqb_eq in H.
    + intros H i Hi.
      destruct (lookup_lt_ex a i) as [ai Hai]; [unfold holds in Ha; lia|].
      destruct (lookup_lt_ex b i) as [bi Hbi]; [lia|].
      rewrite Hai, Hbi. simpl. f_equal. apply negb_false_iff, Z.eqb_eq. eauto.
  - intros i Hi. simpl. unfold load.
    destruct (lookup_lt_ex a i) as [ai Hai]; [unfold holds in Ha; lia|].
    destruct (lookup_lt_ex b i) as [bi Hbi]; [lia|].
    rewrite Hai, Hbi. simpl. eauto.
Qed.

Lemma bitset_equal_spec (a b : bitset) :
  holds a → (size_of a < length b)%nat →
  ∃ r, bitset_equal a b = Some r
    ∧ (r = true ↔ ∀ i, (1 ≤ i ≤ size_of a)%nat → a !! i = b !! i).
Proof.
  intros Ha Hb. unfold bitset_equal.
  destruct (holds_field_size a Ha) as (n & Hn & Hsz & Hrange).
  rewrite Hn. simpl. unfold memcmp.
  rewrite decide_True; last first.
  { rewrite !length_drop. unfold holds in Ha. lia. }
  simpl. rewrite Hsz. eexists. split; [reflexivity|].
  rewrite <- payload_eq_lookup. case_decide; split; done.
Qed.

(** C7: for bitsets of equal declared size over 64-bit lanes,
    [bitset_implies(a, b)] and [bitset_implies(b, a)] are both true exactly
    when [bitset_equal(a, b)] is true. *)
Theorem bitset_implies_antisym (a b : bitset) :
  holds a → holds b → size_of a = size_of b →
  Forall word64 a → Forall word64 b →
  ∃ x y z,
    bitset_implies a b = Some x
    ∧ bitset_implies b a = Some y
    ∧ bitset_equal a b = Some z
    ∧ (x = true ∧ y = true ↔ z = true).
Proof.
  intros Ha Hb Hsz Wa Wb.
  assert (size_of a < length b)%nat as Hab by (unfold holds in Hb; lia).
  assert (size_of b < length a)%nat as Hba by (unfold holds in Ha; lia).
  destruct (bitset_implies_spec a b Ha Hab) as (x & Hx & Hxi).
  destruct (bitset_implies_spec b a Hb Hba) as (y & Hy & Hyi).
  destruct (bitset_equal_spec a b Ha Hab) as (z & Hz & Hzi).
  exists x, y, z. repeat (split; [done|]).
  rewrite Hxi, Hyi, Hzi, <- Hsz. split.
  - intros [Hxy Hyx] i Hi.
    destruct (lookup_lt_ex a i) as [ai Hai]; [lia|].
    destruct (lookup_lt_ex b i) as [bi Hbi]; [lia|].
    rewrite Hai, Hbi. f_equal. apply lanes_eq_zero.
    + exact (lane_word64 _ _ _ Wa Hai).
    + exact (lane_word64 _ _ _ Wb Hbi).
    + split; [eapply Hxy | eapply Hyx]; eauto.
  - intros Heq. split; intros i ai bi Hi Hai Hbi.
    + pose proof (lane_word64 _ _ _ Wa Hai) as W.
      rewrite Heq, Hbi in Hai by done. injection Hai as <-.
      by apply lane_self_zero.
    + pose proof (lane_word64 _ _ _ Wb Hai) as W.
      rewrite <- Heq, Hbi in Hai by done. injection Hai as <-.
      by apply lane_self_zero.
Qed.

Lemma bitset_implies_antisym_witness :
  ∃ x y z,
    bitset_implies [2; 12; 10] [2; 12; 10] = Some x
    ∧ bitset_implies [2; 12; 10] [2; 12; 10] = Some y
    ∧ bitset_equal [2; 12; 10] [2; 12; 10] = Some z
    ∧ (x = true ∧ y = true ↔ z = true).
Proof.
  apply (bitset_implies_antisym [2; 12; 10] [2; 12; 10]).
  - unfold holds. vm_compute. lia.
  - unfold holds. vm_compute. lia.
  - reflexivity.
  - repeat constructor; unfold word64; lia.
  - repeat constructor; unfold word64; lia.
Defined.

(** * In-place passes: iteration bound and frame *)

(** C8 (amended): [bitset_or_inplace], [bitset_and_inplace],
    [bitset_diff_inplace] and [bitset_mask_inplace] iterate up to the size
    field of the operand [a] they mutate, rewrite its lanes [1..size(a)] by
    their formula and leave every other lane of [a] as it was.
    [bitset_xand(r, a, b)] mutates [r] but iterates up to the size field of
    its first read-only operand [a]: it rewrites lanes [1..size(a)] of [r] and
    leaves the other lanes of [r] as they were; the bound is the size field of
    [r] when the two sizes are equal. *)
Theorem inplace_bound_and_frame :
  (∀ a b : bitset, holds a → (size_of a < length b)%nat →
     pass_result (size_of a) (λ i ai, bi ← b !! i; Some (Z.lor ai bi)) a
       (bitset_or_inplace a b)
     ∧ pass_result (size_of a) (λ i ai, bi ← b !! i; Some (Z.land ai bi)) a
         (bitset_and_inplace a b)
     ∧ pass_result (size_of a)
         (λ i ai, bi ← b !! i; Some (Z.land ai (not64 bi))) a
         (bitset_diff_inplace a b)
     ∧ pass_result (size_of a)
         (λ i ai, bi ← b !! i; Some (Z.land ai (not64 (Z.land ai (not64 bi))))) a
         (bitset_mask_inplace a b))
  ∧ (∀ r a b : bitset,
       holds a → (size_of a < length r)%nat → (size_of a < length b)%nat →
       pass_result (size_of a)
         (λ i ri, ai ← a !! i; bi ← b !! i; Some (Z.land ri (Z.lxor ai bi))) r
         (bitset_xand r a b)
       ∧ (size_of r = size_of a →
          pass_result (size_of r)
            (λ i ri, ai ← a !! i; bi ← b !! i; Some (Z.land ri (Z.lxor ai bi)))
            r (bitset_xand r a b))).
Proof.
  split.
  - intros a b Ha Hb.
    split; [apply (in2_pass_result Z.lor); done|].
    split; [apply (in2_pass_result Z.land); done|].
    split; [apply (in2_pass_result (λ x y, Z.land x (not64 y))); done|].
    apply (in2_pass_result mask_lane); done.
  - intros r a b Ha Hr Hb.
    pose proof (bitset_xand_pass r a b Ha Hr Hb) as H.
    split; [exact H|]. intros ->. exact H.
Qed.

Lemma inplace_bound_and_frame_witness :
  pass_result 2 (λ i ai, bi ← [2; 10; 3] !! i; Some (Z.lor ai bi)) [2; 12; 10]
    (bitset_or_inplace [2; 12; 10] [2; 10; 3])
  ∧ pass_result 1
      (λ i ri, ai ← [1; 6; 0] !! i; bi ← [1; 5; 0] !! i;
               Some (Z.land ri (Z.lxor ai bi)))
      [2; 7; 7] (bitset_xand [2; 7; 7] [1; 6; 0] [1; 5; 0]).
Proof.
  destruct inplace_bound_and_frame as [H2 H3]. split.
  - refine (proj1 (H2 [2; 12; 10] [2; 10; 3] _ _)).
    + unfold holds. vm_compute. lia.
    + vm_compute. lia.
  - refine (proj1 (H3 [2; 7; 7] [1; 6; 0] [1; 5; 0] _ _ _)).
    + unfold holds. vm_compute. lia.
    + vm_compute. lia.
    + vm_compute. lia.
Defined.

(** C8 as stated fails for [bitset_xand]: with [size(r) = 1] and
    [size(a) = 2] lane 2 of [r], outside [1..size(r)], is rewritten; with
    [size(r) = 2] and [size(a) = 1] lane 2 of [r] is not visited. *)
Lemma inplace_bound_counterexample :
  size_of [1; 3; 3] = 1%nat
  ∧ bitset_xand [1; 3; 3] [2; 0; 0] [2; 0; 0] = Some [1; 0; 0]
  ∧ size_of [2; 3; 3] = 2%nat
  ∧ bitset_xand [2; 3; 3] [1; 0; 0] [1; 0; 0] = Some [2; 0; 3]
  ∧ ¬ pass_result (size_of [1; 3; 3])
        (λ i ri, ai ← [2; 0; 0] !! i; bi ← [2; 0; 0] !! i;
                 Some (Z.land ri (Z.lxor ai bi)))
        [1; 3; 3] (bitset_xand [1; 3; 3] [2; 0; 0] [2; 0; 0]).
Proof.
  split; [reflexivity|]. split; [vm_compute; reflexivity|].
  split; [reflexivity|]. split; [vm_compute; reflexivity|].
  intros (s' & Hs' & _ & Hframe & _).
  vm_compute in Hs'. injection Hs' as <-.
  specialize (Hframe 2%nat). vm_compute in Hframe.
  assert (Some 0 = Some 3) as H by (apply Hframe; right; lia).
  discriminate H.
Qed.

(** * Reinitialisation: [bitset_reset], [bitset_null], [bitset_universe] *)

Lemma REQ_SZ_pos e : 1 <= e < 2 ^ 64 → REQ_SZ e = 2 + (e - 1) / 64.
Proof.
  intros He. unfold REQ_SZ, sz_add, sz_sub.
  rewrite Z.shiftr_div_pow2 by lia. change (2 ^ 6) with 64.
  change (2 ^ 64) with 18446744073709551616 in *.
  rewrite (Z.mod_small (e - 1)) by lia.
  apply Z.mod_small. Z.div_mod_to_equations. lia.
Qed.

Lemma REQ_SZ_range e : 0 <= e < 2 ^ 64 → 2 <= REQ_SZ e <= 2 ^ 58 + 1.
Proof.
  intros He. destruct (decide (e = 0)) as [->|Hne].
  - vm_compute. split; discriminate.
  - rewrite REQ_SZ_pos by lia.
    change (2 ^ 64) with 18446744073709551616 in *.
    change (2 ^ 58) with 288230376151711744.
    Z.div_mod_to_equations. lia.
Qed.

Lemma last_lane e :
  0 <= e < 2 ^ 64 → sz_sub (REQ_SZ e) 1 = REQ_SZ e - 1.
Proof.
  intros He. pose proof (REQ_SZ_range e He) as H. unfold sz_sub.
  apply Z.mod_small. change (2 ^ 58) with 288230376151711744 in H.
  change (2 ^ 64) with 18446744073709551616. lia.
Qed.

(** The pad of the last lane, [64 * w - elements], is a legal shift count. *)
Lemma pad_bits_range e :
  0 <= e < 2 ^ 64 →
  0 <= sz_sub (sz_mul 64 (sz_sub (REQ_SZ e) 1)) e < 64.
Proof.
  intros He. destruct (decide (e = 0)) as [->|Hne].
  - vm_compute. split; [discriminate|reflexivity].
  - rewrite last_lane, REQ_SZ_pos by lia. unfold sz_sub, sz_mul.
    change (2 ^ 64) with 18446744073709551616 in *.
    Z.div_mod_to_equations. lia.
Qed.

Lemma pad_bits_pos e :
  1 <= e < 2 ^ 64 →
  sz_sub (sz_mul 64 (sz_sub (REQ_SZ e) 1)) e = 64 * (REQ_SZ e - 1) - e.
Proof.
  intros He. rewrite last_lane, REQ_SZ_pos by lia. unfold sz_sub, sz_mul.
  change (2 ^ 64) with 18446744073709551616 in *.
  Z.div_mod_to_equations. lia.
Qed.

Lemma for_up_fill cnt i v (s : bitset) :
  (i + cnt ≤ length s)%nat →
  ∃ s', for_up cnt i (λ i s, store s i v) s = Some s'
    ∧ length s' = length s
    ∧ (∀ j, (i ≤ j < i + cnt)%nat → s' !! j = Some v)
    ∧ (∀ j, (j < i ∨ i + cnt ≤ j)%nat → s' !! j = s !! j).
Proof.
  revert i s. induction cnt as [|c IH]; intros i s Hlen.
  - exists s. split; [done|]. split; [done|]. split; [intros; lia|done].
  - simpl. rewrite store_Some by lia. simpl.
    destruct (IH (S i) (<[i:=v]> s)) as (s' & Hs' & Hl & Hin & Hout).
    { rewrite length_insert. lia. }
    exists s'. split; [done|]. rewrite length_insert in Hl.
    split; [done|]. split.
    + intros j Hj. destruct (decide (j = i)) as [->|Hne].
      * rewrite Hout by lia. apply list_lookup_insert_eq. lia.
      * apply Hin. lia.
    + intros j Hj. rewrite Hout by lia. apply list_lookup_insert_ne. lia.
Qed.

Lemma bitset_set_size_Some (s : bitset) h v :
  s !! 0%nat = Some h →
  bitset_set_size s v = Some (<[0%nat := hdr_with_size h v]> s).
Proof.
  intros Hh. unfold bitset_set_size, load. rewrite Hh. simpl.
  apply store_Some. by apply lookup_lt_Some in Hh.
Qed.

Lemma memset0_Some (s : bitset) n :
  0 <= n <= Z.of_nat (length s) →
  memset0 s n = Some (replicate (Z.to_nat n) 0 ++ drop (Z.to_nat n) s).
Proof. intros Hn. unfold memset0. rewrite decide_True by lia. done. Qed.

Lemma lookup_zeroed (s : bitset) n i :
  (n ≤ length s)%nat →
  (replicate n 0 ++ drop n s) !! i
  = if decide (i < n)%nat then Some 0 else s !! i.
Proof.
  intros Hn. case_decide.
  - rewrite lookup_app_l by (rewrite length_replicate; lia).
    apply lookup_replicate. done.
  - rewrite lookup_app_r by (rewrite length_replicate; lia).
    rewrite length_replicate, lookup_drop. f_equal. lia.
Qed.

Lemma hdr_fresh v :
  hdr_flags (hdr_with_size 0 v) = 0 ∧ hdr_tag (hdr_with_size 0 v) = 0
  ∧ hdr_size (hdr_with_size 0 v) = v mod 2 ^ 32.
Proof.
  rewrite hdr_flags_with_size, hdr_tag_with_size, hdr_size_with_size. done.
Qed.

(** What [bitset_universe] leaves in the storage. *)
Lemma bitset_universe_lanes (s : bitset) e :
  0 <= e < 2 ^ 64 →
  let w := Z.to_nat (REQ_SZ e - 1) in
  let sh := sz_sub (sz_mul 64 (sz_sub (REQ_SZ e) 1)) e in
  (w < length s)%nat →
  ∃ s', bitset_universe s e = Some s'
    ∧ length s' = length s
    ∧ s' !! 0%nat = Some (hdr_with_size 0 (REQ_SZ e - 1))
    ∧ (∀ j, (1 ≤ j < w)%nat → s' !! j = Some UINT64_MAX)
    ∧ s' !! w = Some (Z.shiftr UINT64_MAX sh)
    ∧ (∀ j, (w < j)%nat → s' !! j = s !! j).
Proof.
  intros He w sh Hlen.
  pose proof (REQ_SZ_range e He) as Hreq.
  pose proof (pad_bits_range e He) as Hsh. fold sh in Hsh.
  assert (1 ≤ w)%nat as Hw by (unfold w; lia).
  unfold bitset_universe. cbv zeta.
  change (sz_sub (sz_mul 64 (sz_sub (REQ_SZ e) 1)) e) with sh.
  rewrite store_Some by lia. simpl.
  rewrite last_lane by done. fold w.
  destruct (for_up_fill w 1 UINT64_MAX (<[0%nat:=0]> s))
    as (s1 & Hs1 & Hl1 & Hin & Hout).
  { rewrite length_insert. lia. }
  rewrite length_insert in Hl1.
  rewrite Hs1. simpl. unfold load. rewrite Hin by lia. simpl.
  rewrite decide_True by lia. rewrite store_Some by lia. simpl.
  assert (<[w:=Z.shiftr UINT64_MAX sh]> s1 !! 0%nat = Some 0) as H0.
  { rewrite list_lookup_insert_ne by lia. rewrite Hout by lia.
    apply list_lookup_insert_eq. lia. }
  rewrite (bitset_set_size_Some _ 0 _ H0).
  eexists. split; [reflexivity|].
  split; [by rewrite !length_insert|].
  split; [apply list_lookup_insert_eq; rewrite length_insert; lia|].
  split; [|split].
  - intros j Hj. rewrite !list_lookup_insert_ne by lia. apply Hin. lia.
  - rewrite list_lookup_insert_ne by lia. apply list_lookup_insert_eq. lia.
  - intros j Hj. rewrite !list_lookup_insert_ne by lia.
    rewrite Hout by lia. apply list_lookup_insert_ne. lia.
Qed.

Lemma header_cleared_intro (s : bitset) v :
  s !! 0%nat = Some (hdr_with_size 0 v) → header_cleared s v.
Proof.
  intros H. destruct (hdr_fresh v) as (Hf & Ht & Hs).
  unfold header_cleared, bitset_get_size, BITSET_FIELD_size, bitset_get_tag,
    bitset_get_flag, load.
  rewrite H. cbn [mbind option_bind]. rewrite Hf, Ht, Hs.
  split; [reflexivity|]. split; [reflexivity|]. split; [reflexivity|].
  intros flag. reflexivity.
Qed.

Lemma bitset_reset_header (set : bitset) :
  holds set →
  ∃ set' n, BITSET_FIELD_size set = Some n
    ∧ bitset_reset set = Some set'
    ∧ set' !! 0%nat = Some (hdr_with_size 0 n)
    ∧ length set' = length set
    ∧ (∀ i, (1 ≤ i ≤ size_of set)%nat → set' !! i = Some 0)
    ∧ (∀ i, (size_of set < i)%nat → set' !! i = set !! i).
Proof.
  intros Hs. destruct (holds_field_size set Hs) as (n & Hn & Hsz & Hr).
  exists (<[0%nat := hdr_with_size 0 n]>
            (replicate (Z.to_nat (n + 1)) 0 ++ drop (Z.to_nat (n + 1)) set)), n.
  split; [done|]. unfold bitset_reset. rewrite Hn. simpl.
  assert (sz_add n 1 = n + 1) as ->.
  { unfold sz_add. apply Z.mod_small.
    change (2 ^ 32) with 4294967296 in Hr.
    change (2 ^ 64) with 18446744073709551616. lia. }
  assert (Z.to_nat (n + 1) ≤ length set)%nat as Hle
    by (unfold holds in Hs; lia).
  rewrite memset0_Some by lia. simpl.
  assert (length (replicate (Z.to_nat (n + 1)) 0 ++ drop (Z.to_nat (n + 1)) set)
          = length set) as Hlen.
  { rewrite length_app, length_replicate, length_drop. lia. }
  erewrite bitset_set_size_Some; last first.
  { rewrite lookup_zeroed by done. rewrite decide_True by lia. done. }
  split; [done|].
  split; [apply list_lookup_insert_eq; lia|].
  split; [by rewrite length_insert|]. split.
  - intros i Hi. rewrite list_lookup_insert_ne by lia.
    rewrite lookup_zeroed by done. rewrite decide_True by lia. done.
  - intros i Hi. rewrite list_lookup_insert_ne by lia.
    rewrite lookup_zeroed by done. rewrite decide_False by lia. done.
Qed.

Lemma bitset_null_header (set : bitset) e :
  0 <= e < 2 ^ 64 →
  REQ_SZ e <= Z.of_nat (length set) →
  ∃ set', bitset_null set e = Some set'
    ∧ set' !! 0%nat = Some (hdr_with_size 0 (REQ_SZ e - 1))
    ∧ length set' = length set
    ∧ (∀ i, (1 ≤ i < Z.to_nat (REQ_SZ e))%nat → set' !! i = Some 0).
Proof.
  intros He Hlen. pose proof (REQ_SZ_range e He) as Hreq.
  unfold bitset_null. cbv zeta. rewrite memset0_Some by lia. simpl.
  rewrite last_lane by done.
  assert (length (replicate (Z.to_nat (REQ_SZ e)) 0
                  ++ drop (Z.to_nat (REQ_SZ e)) set) = length set) as Hl.
  { rewrite length_app, length_replicate, length_drop. lia. }
  erewrite bitset_set_size_Some; last first.
  { rewrite lookup_zeroed by lia. rewrite decide_True by lia. done. }
  eexists. split; [reflexivity|].
  split; [apply list_lookup_insert_eq; lia|].
  split; [by rewrite length_insert|].
  intros i Hi. rewrite list_lookup_insert_ne by lia.
  rewrite lookup_zeroed by lia. rewrite decide_True by lia. done.
Qed.

(** C10: [bitset_reset], [bitset_null] and [bitset_universe] leave lane 0
    holding the size alone: whatever the header held before, its flags and
    its tag read zero afterwards. *)
Theorem reinit_clears_flags_and_tag :
  (∀ set : bitset, holds set →
     ∃ set' n, BITSET_FIELD_size set = Some n
       ∧ bitset_reset set = Some set' ∧ header_cleared set' n)
  ∧ (∀ (set : bitset) e,
       0 <= e < 2 ^ 64 → REQ_SZ e <= Z.of_nat (length set) →
       ∃ set', bitset_null set e = Some set'
         ∧ header_cleared set' (REQ_SZ e - 1))
  ∧ (∀ (set : bitset) e,
       0 <= e < 2 ^ 64 → REQ_SZ e <= Z.of_nat (length set) →
       ∃ set', bitset_universe set e = Some set'
         ∧ header_cleared set' (REQ_SZ e - 1)).
Proof.
  split; [|split].
  - intros set Hs.
    destruct (bitset_reset_header set Hs) as (set' & n & Hn & Hr & H0 & _).
    exists set', n. split; [done|]. split; [done|].
    by apply header_cleared_intro.
  - intros set e He Hlen.
    destruct (bitset_null_header set e He Hlen) as (set' & Hr & H0 & _).
    exists set'. split; [done|]. by apply header_cleared_intro.
  - intros set e He Hlen. pose proof (REQ_SZ_range e He) as Hreq.
    destruct (bitset_universe_lanes set e He) as (set' & Hr & _ & H0 & _);
      [lia|].
    exists set'. split; [done|]. by apply header_cleared_intro.
Qed.

Lemma reinit_clears_flags_and_tag_witness :
  (∃ set', bitset_reset [0x0123000700000002; 3; 3] = Some set'
           ∧ header_cleared set' 2)
  ∧ (∃ set', bitset_null [0x0123000700000002; 3; 3] 70 = Some set'
             ∧ header_cleared set' 2)
  ∧ (∃ set', bitset_universe [0x0123000700000002; 3; 3] 70 = Some set'
             ∧ header_cleared set' 2).
Proof.
  destruct reinit_clears_flags_and_tag as (Hreset & Hnull & Huniv).
  split; [|split].
  - destruct (Hreset [0x0123000700000002; 3; 3]) as (set' & n & Hn & Hr & Hc).
    + unfold holds. vm_compute. lia.
    + vm_compute in Hn. injection Hn as <-. exists set'. split; [exact Hr|exact Hc].
  - apply (Hnull [0x0123000700000002; 3; 3] 70); [lia|vm_compute; discriminate].
  - apply (Huniv [0x0123000700000002; 3; 3] 70); [lia|vm_compute; discriminate].
Defined.

(** * Cardinality *)

Lemma popcountll_full : popcountll UINT64_MAX = 64.
Proof. vm_compute. reflexivity. Qed.

Lemma popcountll_shifted sh :
  0 <= sh < 64 → popcountll (Z.shiftr UINT64_MAX sh) = 64 - sh.
Proof.
  intros Hsh.
  assert (Forall (λ s, popcountll (Z.shiftr UINT64_MAX s) = 64 - s) (seqZ 0 64))
    as H by compute_done.
  rewrite Forall_seqZ in H. apply H. lia.
Qed.

Lemma popcountll_range x : 0 <= popcountll x <= 64.
Proof.
  unfold popcountll. split; [lia|].
  pose proof (length_filter
    (λ k : nat, Z.testbit x (Z.of_nat k) = true) (seq 0 64)) as H.
  rewrite length_seq in H. lia.
Qed.

Lemma shifted_full_bits sh k :
  0 <= sh → 0 <= k →
  Z.testbit (Z.shiftr UINT64_MAX sh) k = (k <? 64 - sh).
Proof.
  intros Hsh Hk. rewrite Z.shiftr_spec, UINT64_MAX_ones by lia.
  rewrite Z.testbit_ones by lia.
  destruct (Z.leb_spec 0 (k + sh)), (Z.ltb_spec (k + sh) 64),
    (Z.ltb_spec k (64 - sh)); simpl; lia || done.
Qed.

Lemma sum_down_S m term acc :
  sum_down (S m) term acc = term (S m) ≫= λ t, sum_down m term (sz_add acc t).
Proof. done. Qed.

Lemma sum_down_const (term : nat → option Z) c m acc :
  (∀ j, (1 ≤ j ≤ m)%nat → term j = Some c) →
  0 <= acc → 0 <= c → acc + c * Z.of_nat m < 2 ^ 64 →
  sum_down m term acc = Some (acc + c * Z.of_nat m).
Proof.
  revert acc. induction m as [|m IH]; intros acc Hs Hacc Hc Hbound.
  - simpl. f_equal. lia.
  - rewrite sum_down_S, Hs by lia. cbn [mbind option_bind].
    assert (sz_add acc c = acc + c) as ->.
    { unfold sz_add. apply Z.mod_small. nia. }
    rewrite IH; [f_equal; lia|intros; apply Hs; lia|lia|lia|lia].
Qed.

Lemma shl64_one b : 0 <= b < 64 → shl64 1 b = 2 ^ b.
Proof.
  intros Hb. unfold shl64. rewrite Z.shiftl_1_l. apply Z.mod_small.
  split; [apply Z.pow_nonneg; lia|apply Z.pow_lt_mono_r; lia].
Qed.

Lemma testbit_via_mask x b :
  0 <= b < 64 → negb (Z.land x (shl64 1 b) =? 0) = Z.testbit x b.
Proof.
  intros Hb. rewrite shl64_one by done.
  destruct (Z.testbit x b) eqn:E.
  - apply negb_true_iff, Z.eqb_neq. intros H0.
    assert (Z.testbit (Z.land x (2 ^ b)) b = false) as Hbit
      by (rewrite H0; apply Z.bits_0).
    rewrite Z.land_spec, E, Z.pow2_bits_true in Hbit by lia. done.
  - apply negb_false_iff, Z.eqb_eq. apply Z.bits_inj'. intros k Hk.
    rewrite Z.land_spec, Z.bits_0, Z.pow2_bits_eqb by lia.
    destruct (Z.eqb_spec b k) as [<-|]; [by rewrite E|apply andb_false_r].
Qed.

Lemma bitset_get_lane (set : bitset) e x :
  0 <= e < 2 ^ 64 →
  set !! Z.to_nat (1 + e / 64) = Some x →
  bitset_get set e = Some (Z.testbit x (e mod 64)).
Proof.
  intros He Hx. unfold bitset_get, ELEM_WORD, ELEM_BIT, load. cbv zeta.
  rewrite Z.shiftr_div_pow2 by lia. change (2 ^ 6) with 64.
  assert (sz_add 1 (e / 64) = 1 + e / 64) as ->.
  { unfold sz_add. apply Z.mod_small.
    change (2 ^ 64) with 18446744073709551616 in *.
    Z.div_mod_to_equations. lia. }
  rewrite Hx. cbn [mbind option_bind]. f_equal.
  change 63 with (Z.ones 6). rewrite Z.land_ones by lia.
  change (2 ^ 6) with 64. apply testbit_via_mask.
  Z.div_mod_to_equations. lia.
Qed.

Lemma ceil_lanes n : 1 <= n < 2 ^ 64 → REQ_SZ n - 1 = (n + 63) / 64.
Proof.
  intros Hn. rewrite REQ_SZ_pos by lia. Z.div_mod_to_equations. lia.
Qed.

(** C3: for an element count [n] that is valid for the 32-bit size field
    ([1 <= n <= 64 * (2^32 - 1)]) and storage of [ceil(n/64)] payload lanes,
    after [bitset_universe(set, n)] the size is [ceil(n/64)], [bitset_ord]
    returns [n], a bit of a payload lane is set exactly when its element index
    is below [n], and the last payload lane is all ones shifted right by the
    [64 * lastLane - n] pad bits. *)
Theorem bitset_universe_ord (set : bitset) n :
  1 <= n <= 64 * (2 ^ 32 - 1) →
  let w := (n + 63) / 64 in
  (Z.to_nat w < length set)%nat →
  ∃ set', bitset_universe set n = Some set'
    ∧ bitset_get_size set' = Some w
    ∧ bitset_ord set' = Some n
    ∧ (∀ i x k, (1 ≤ i ≤ Z.to_nat w)%nat → set' !! i = Some x →
         0 <= k < 64 →
         (Z.testbit x k = true ↔ 64 * (Z.of_nat i - 1) + k < n))
    ∧ (∀ e, 0 <= e < 64 * w →
         bitset_get set' e = Some (bool_decide (e < n)))
    ∧ set' !! Z.to_nat w = Some (Z.shiftr UINT64_MAX (64 * w - n))
    ∧ 0 <= 64 * w - n < 64.
Proof.
  intros Hn w Hlen.
  change (2 ^ 32) with 4294967296 in Hn.
  assert (1 <= n < 2 ^ 64) as Hn64
    by (change (2 ^ 64) with 18446744073709551616; lia).
  assert (0 <= n < 2 ^ 64) as Hn0 by lia.
  pose proof (ceil_lanes n Hn64) as Hw. fold w in Hw.
  assert (1 <= w <= 4294967295) as Hwr
    by (unfold w; Z.div_mod_to_equations; lia).
  assert (0 <= 64 * w - n < 64) as Hpad
    by (unfold w; Z.div_mod_to_equations; lia).
  destruct (bitset_universe_lanes set n Hn0)
    as (set' & Hu & Hl & H0 & Hfull & Hlast & _); [rewrite Hw; lia|].
  rewrite pad_bits_pos in Hlast by done. rewrite Hw in *.
  exists set'. split; [done|].
  assert (bitset_get_size set' = Some w) as Hsize.
  { unfold bitset_get_size, BITSET_FIELD_size, load. rewrite H0.
    cbn [mbind option_bind]. rewrite hdr_size_with_size. f_equal.
    apply Z.mod_small. change (2 ^ 32) with 4294967296. lia. }
  assert (∀ i x k, (1 ≤ i ≤ Z.to_nat w)%nat → set' !! i = Some x →
            0 <= k < 64 →
            (Z.testbit x k = true ↔ 64 * (Z.of_nat i - 1) + k < n)) as Hbits;
    last first.
  { split; [done|]. split; [|split; [done|split; [|done]]]; last first.
    { intros e He.
      destruct (lookup_lt_ex set' (Z.to_nat (1 + e / 64))) as [x Hx].
      { rewrite Hl. Z.div_mod_to_equations. lia. }
      rewrite (bitset_get_lane set' e x); [|lia|done]. f_equal.
      specialize (Hbits (Z.to_nat (1 + e / 64)) x (e mod 64)).
      assert (0 <= e mod 64 < 64) as Hm by (apply Z.mod_pos_bound; lia).
      assert (1 ≤ Z.to_nat (1 + e / 64) ≤ Z.to_nat w)%nat as Hi
        by (Z.div_mod_to_equations; lia).
      specialize (Hbits Hi Hx Hm).
      replace (64 * (Z.of_nat (Z.to_nat (1 + e / 64)) - 1) + e mod 64)
        with e in Hbits by (Z.div_mod_to_equations; lia).
      destruct (Z.testbit x (e mod 64)); case_bool_decide; try done.
      - destruct Hbits as [Hb _]. by specialize (Hb eq_refl).
      - destruct Hbits as [_ Hb]. by specialize (Hb ltac:(done)). }
    unfold bitset_ord. unfold bitset_get_size in Hsize. rewrite Hsize.
    cbn [mbind option_bind].
    replace (Z.to_nat w) with (S (Z.to_nat w - 1)) by lia.
    rewrite sum_down_S. cbv beta. unfold load.
    replace (S (Z.to_nat w - 1)) with (Z.to_nat w) by lia.
    rewrite Hlast. cbn [mbind option_bind].
    rewrite popcountll_shifted by lia.
    assert (sz_add 0 (64 - (64 * w - n)) = 64 - (64 * w - n)) as ->.
    { unfold sz_add. apply Z.mod_small.
      change (2 ^ 64) with 18446744073709551616. lia. }
    rewrite (sum_down_const _ 64).
    + f_equal. lia.
    + intros j Hj. rewrite Hfull by lia.
      cbn [mbind option_bind]. by rewrite popcountll_full.
    + lia.
    + lia.
    + change (2 ^ 64) with 18446744073709551616. lia. }
  { intros i x k Hi Hx Hk.
    destruct (decide (i = Z.to_nat w)) as [->|Hne].
    + rewrite Hlast in Hx. injection Hx as <-.
      rewrite shifted_full_bits by lia.
      destruct (Z.ltb_spec k (64 - (64 * w - n))); split; try done; lia.
    + rewrite Hfull in Hx by lia. injection Hx as <-.
      rewrite UINT64_MAX_ones, Z.testbit_ones by lia.
      destruct (Z.leb_spec 0 k), (Z.ltb_spec k 64); try lia;
        (split; [intros _; lia|done]). }
Qed.

Lemma bitset_universe_ord_witness :
  ∃ set', bitset_universe [0; 0; 0; 7] 100 = Some set'
    ∧ bitset_get_size set' = Some 2
    ∧ bitset_ord set' = Some 100.
Proof.
  destruct (bitset_universe_ord [0; 0; 0; 7] 100)
    as (set' & Hu & Hs & Ho & _).
  - lia.
  - vm_compute. lia.
  - exists set'. split; [exact Hu|]. split; [exact Hs|exact Ho].
Defined.

(** * Tagging with the cardinality *)

Lemma bitset_ord_total (set : bitset) :
  holds set → ∃ n, bitset_ord set = Some n.
Proof.
  intros Hs. destruct (holds_field_size set Hs) as (m & Hm & Hsz & _).
  unfold bitset_ord. rewrite Hm. cbn [mbind option_bind]. rewrite Hsz.
  apply sum_down_ok. intros i Hi. unfold load.
  destruct (lookup_lt_ex set i) as [x Hx]; [unfold holds in Hs; lia|].
  rewrite Hx. by eexists.
Qed.

Lemma bitset_tag_ord_unfold (set : bitset) :
  bitset_tag_ord set = bitset_ord set ≫= bitset_set_tag set.
Proof.
  unfold bitset_tag_ord, bitset_ord. by destruct (BITSET_FIELD_size set).
Qed.

Lemma bitset_ord_header_irrelevant (set : bitset) h h' :
  set !! 0%nat = Some h → hdr_size h' = hdr_size h →
  bitset_ord (<[0%nat := h']> set) = bitset_ord set.
Proof.
  intros Hh Hsz. unfold bitset_ord, BITSET_FIELD_size, load.
  rewrite list_lookup_insert_eq by (by apply lookup_lt_Some in Hh).
  rewrite Hh. cbn [mbind option_bind]. rewrite Hsz.
  apply sum_down_ext. intros i Hi. by rewrite list_lookup_insert_ne by lia.
Qed.

(** C9 (amended): after [bitset_tag_ord(set)] the tag read back by
    [bitset_get_tag] is [bitset_ord(set)] reduced modulo 2^16 (the tag is a
    16-bit field); it equals [bitset_ord(set)] whenever that is below 65536.
    The cardinality itself is unchanged.  With capacity 64 and bits 0, 3 and
    5 set, [bitset_ord] returns 3 and the tag reads back as 3. *)
Theorem bitset_tag_ord_tag :
  (∀ set : bitset, holds set →
     ∃ set' n, bitset_ord set = Some n
       ∧ bitset_tag_ord set = Some set'
       ∧ bitset_ord set' = Some n
       ∧ bitset_get_tag set' = Some (n mod 2 ^ 16)
       ∧ (0 <= n < 65536 → bitset_get_tag set' = Some n))
  ∧ (let hp := {| avail := 2; junk := λ _, 0 |} in
     (s ← bitset_new hp 64; s ← bitset_set s 0; s ← bitset_set s 3;
      bitset_set s 5) = Some [1; 41]
     ∧ bitset_ord [1; 41] = Some 3
     ∧ (s ← bitset_tag_ord [1; 41]; bitset_get_tag s) = Some 3).
Proof.
  split.
  - intros set Hs. destruct (bitset_ord_total set Hs) as [n Hn].
    destruct (holds_header set Hs) as (h & Hh & _).
    exists (<[0%nat := hdr_with_tag h n]> set), n.
    split; [done|].
    assert (bitset_get_tag (<[0%nat := hdr_with_tag h n]> set)
            = Some (n mod 2 ^ 16)) as Htag.
    { unfold bitset_get_tag, load.
      rewrite list_lookup_insert_eq by (by apply lookup_lt_Some in Hh).
      cbn [mbind option_bind]. by rewrite hdr_tag_with_tag. }
    split; [|split; [|split]].
    + rewrite bitset_tag_ord_unfold, Hn. cbn [mbind option_bind].
      unfold bitset_set_tag, load. rewrite Hh. cbn [mbind option_bind].
      apply store_Some. by apply lookup_lt_Some in Hh.
    + rewrite (bitset_ord_header_irrelevant set h); [done..|].
      apply hdr_size_with_tag.
    + done.
    + intros Hr. rewrite Htag. f_equal. apply Z.mod_small.
      change (2 ^ 16) with 65536. lia.
  - cbv zeta. split; [vm_compute; reflexivity|].
    split; vm_compute; reflexivity.
Qed.

Lemma bitset_tag_ord_tag_witness :
  ∃ set', bitset_tag_ord [0x0005000100000002; 7; 1] = Some set'
    ∧ bitset_get_tag set' = Some 4.
Proof.
  destruct bitset_tag_ord_tag as [H _].
  destruct (H [0x0005000100000002; 7; 1]) as (set' & n & Hn & Ht & _ & _ & Hg).
  - unfold holds. vm_compute. lia.
  - vm_compute in Hn. injection Hn as <-.
    exists set'. split; [exact Ht|]. apply Hg. lia.
Defined.

(** C9 as stated fails once the cardinality reaches 2^16: the universe of
    65536 elements has cardinality 65536 and its tag reads back as 0. *)
Lemma bitset_tag_ord_counterexample :
  (set ← bitset_universe (replicate 1025 0) 65536;
   n ← bitset_ord set;
   set' ← bitset_tag_ord set;
   tag ← bitset_get_tag set';
   n' ← bitset_ord set';
   Some (n, tag, n')) = Some (65536, 0, 65536).
Proof. vm_compute. reflexivity. Qed.

(** * Allocation *)

Lemma bitset_new_Some hp e :
  0 <= e < 2 ^ 64 → REQ_SZ e <= avail hp →
  bitset_new hp e
  = Some (<[0%nat := hdr_with_size 0 (REQ_SZ e - 1)]>
            (replicate (Z.to_nat (REQ_SZ e)) 0)).
Proof.
  intros He Hav. pose proof (REQ_SZ_range e He) as Hreq.
  unfold bitset_new, xcalloc. cbv zeta. rewrite decide_True by done.
  cbn [mbind option_bind]. rewrite last_lane by done.
  apply bitset_set_size_Some. apply lookup_replicate. split; [done|lia].
Qed.

Lemma bitset_new_abort hp e : avail hp < REQ_SZ e → bitset_new hp e = None.
Proof.
  intros Hav. unfold bitset_new, xcalloc. cbv zeta.
  rewrite decide_False by lia. done.
Qed.

Lemma bitset_new_shape hp e (set : bitset) :
  0 <= e < 2 ^ 64 → bitset_new hp e = Some set →
  Z.of_nat (length set) = REQ_SZ e
  ∧ header_cleared set (REQ_SZ e - 1)
  ∧ (∀ i, (1 ≤ i < length set)%nat → set !! i = Some 0).
Proof.
  intros He Hnew. pose proof (REQ_SZ_range e He) as Hreq.
  destruct (Z.le_gt_cases (REQ_SZ e) (avail hp)) as [Hav|Hav];
    [|rewrite bitset_new_abort in Hnew by done; discriminate Hnew].
  rewrite bitset_new_Some in Hnew by done. injection Hnew as <-.
  rewrite length_insert, length_replicate.
  split; [lia|]. split.
  - apply header_cleared_intro, list_lookup_insert_eq.
    rewrite length_replicate. lia.
  - intros i Hi. rewrite list_lookup_insert_ne by lia.
    apply lookup_replicate. split; [done|lia].
Qed.

(** C4 (amended): for [1 <= elements <= 64 * (2^32 - 1)], when the allocator
    can supply the storage, [bitset_new(elements)] returns
    [ceil(elements/64) + 1] lanes, the payload lanes zero, the header's size
    field equal to [ceil(elements/64)] and its flags and tag zero; when the
    allocator cannot, the call does not return. *)
Theorem bitset_new_lanes hp elements :
  1 <= elements <= 64 * (2 ^ 32 - 1) →
  let lanes := (elements + 63) / 64 in
  (lanes + 1 <= avail hp →
   ∃ set : bitset, bitset_new hp elements = Some set
     ∧ Z.of_nat (length set) = lanes + 1
     ∧ bitset_get_size set = Some lanes
     ∧ header_cleared set lanes
     ∧ (∀ i, (1 ≤ i ≤ Z.to_nat lanes)%nat → set !! i = Some 0))
  ∧ (avail hp < lanes + 1 → bitset_new hp elements = None).
Proof.
  intros He lanes. change (2 ^ 32) with 4294967296 in He.
  assert (1 <= elements < 2 ^ 64) as He64
    by (change (2 ^ 64) with 18446744073709551616; lia).
  pose proof (ceil_lanes elements He64) as Hl. fold lanes in Hl.
  assert (0 <= lanes < 2 ^ 32) as Hlr.
  { unfold lanes. change (2 ^ 32) with 4294967296.
    Z.div_mod_to_equations. lia. }
  split.
  - intros Hav.
    pose proof (bitset_new_Some hp elements ltac:(lia) ltac:(lia)) as Hnew.
    destruct (bitset_new_shape hp elements _ ltac:(lia) Hnew)
      as (Hlen & Hc & Hz).
    set (s := <[0%nat:=_]> _) in *. clearbody s.
    rewrite Hl in Hc. exists s.
    split; [done|]. split; [lia|]. split; [|split; [done|]].
    + destruct Hc as (_ & Hs & _). rewrite Hs. f_equal. by apply Z.mod_small.
    + intros i Hi. apply Hz. lia.
  - intros Hav. apply bitset_new_abort. lia.
Qed.

Lemma bitset_new_lanes_witness :
  ∃ set : bitset,
    bitset_new {| avail := 8; junk := λ _, 0 |} 130 = Some set
    ∧ Z.of_nat (length set) = 4
    ∧ bitset_get_size set = Some 3.
Proof.
  destruct (bitset_new_lanes {| avail := 8; junk := λ _, 0 |} 130) as [H _].
  - lia.
  - destruct H as (set & Hn & Hl & Hs & _).
    + vm_compute. discriminate.
    + exists set. split; [exact Hn|]. split; [exact Hl|exact Hs].
Defined.

(** C4 as stated fails outside that range.  With [elements = 2^38] the lane
    count [2^32] does not fit the 32-bit size field, which reads 0; with
    [elements = 0] the request is for [2^58 + 1] lanes, not one. *)
Lemma bitset_new_counterexample :
  let hp := {| avail := 2 ^ 60; junk := λ _, 0 |} in
  (∃ set : bitset, bitset_new hp (2 ^ 38) = Some set
     ∧ (2 ^ 38 + 63) / 64 = 2 ^ 32
     ∧ bitset_get_size set = Some 0
     ∧ Z.of_nat (length set) = 2 ^ 32 + 1)
  ∧ (∃ set : bitset, bitset_new hp 0 = Some set
       ∧ (0 + 63) / 64 = 0
       ∧ Z.of_nat (length set) = 2 ^ 58 + 1).
Proof.
  intros hp. split.
  - assert (0 <= 2 ^ 38 < 2 ^ 64) as He by (split; [vm_compute; discriminate|reflexivity]).
    assert (REQ_SZ (2 ^ 38) = 2 ^ 32 + 1) as Hreq by (vm_compute; reflexivity).
    eexists. split; [apply bitset_new_Some; [done|]|].
    { rewrite Hreq. vm_compute. discriminate. }
    destruct (bitset_new_shape hp (2 ^ 38) _ He
                (bitset_new_Some hp (2 ^ 38) He
                   ltac:(rewrite Hreq; vm_compute; discriminate)))
      as (Hlen & (_ & Hs & _) & _).
    split; [vm_compute; reflexivity|]. split.
    + rewrite Hs, Hreq. f_equal.
    + rewrite Hlen. exact Hreq.
  - assert (0 <= 0 < 2 ^ 64) as He by (split; [vm_compute; discriminate|reflexivity]).
    assert (REQ_SZ 0 = 2 ^ 58 + 1) as Hreq by (vm_compute; reflexivity).
    eexists. split; [apply bitset_new_Some; [done|]|].
    { rewrite Hreq. vm_compute. discriminate. }
    destruct (bitset_new_shape hp 0 _ He
                (bitset_new_Some hp 0 He
                   ltac:(rewrite Hreq; vm_compute; discriminate)))
      as (Hlen & _ & _).
    split; [vm_compute; reflexivity|].
    rewrite Hlen. exact Hreq.
Qed.

(** * Copying and duplicating *)

Lemma memcpy_Some (dst src : bitset) n :
  0 <= n → n <= Z.of_nat (length dst) → n <= Z.of_nat (length src) →
  memcpy dst src n = Some (take (Z.to_nat n) src ++ drop (Z.to_nat n) dst).
Proof. intros. unfold memcpy. by rewrite decide_True. Qed.

Lemma lookup_copied (dst src : bitset) n i :
  (n ≤ length src)%nat →
  (take n src ++ drop n dst) !! i
  = if decide (i < n)%nat then src !! i else dst !! i.
Proof.
  intros Hn. case_decide.
  - rewrite lookup_app_l by (rewrite length_take; lia).
    rewrite lookup_take. by rewrite decide_True.
  - rewrite lookup_app_r by (rewrite length_take; lia).
    rewrite length_take, lookup_drop. f_equal. lia.
Qed.

(** [bitset_copy] transfers the header lane and the [size(src)] payload lanes
    of [src], and nothing else. *)
Lemma bitset_copy_spec (dst src : bitset) :
  holds src → (size_of src < length dst)%nat →
  ∃ dst', bitset_copy dst src = Some dst'
    ∧ length dst' = length dst
    ∧ (∀ i, (i ≤ size_of src)%nat → dst' !! i = src !! i)
    ∧ (∀ i, (size_of src < i)%nat → dst' !! i = dst !! i)
    ∧ bitset_get_size dst' = bitset_get_size src
    ∧ bitset_get_tag dst' = bitset_get_tag src
    ∧ (∀ flag, bitset_get_flag dst' flag = bitset_get_flag src flag).
Proof.
  intros Hs Hd. destruct (holds_field_size src Hs) as (n & Hn & Hsz & Hr).
  unfold bitset_copy. rewrite Hn. cbn [mbind option_bind].
  assert (sz_add n 1 = n + 1) as ->.
  { unfold sz_add. apply Z.mod_small.
    change (2 ^ 32) with 4294967296 in Hr.
    change (2 ^ 64) with 18446744073709551616. lia. }
  unfold holds in Hs. rewrite memcpy_Some by lia.
  replace (Z.to_nat (n + 1)) with (S (size_of src)) by lia.
  eexists. split; [reflexivity|].
  assert (∀ i, (i ≤ size_of src)%nat →
            (take (S (size_of src)) src ++ drop (S (size_of src)) dst) !! i
            = src !! i) as Hin.
  { intros i Hi. rewrite lookup_copied by lia. by rewrite decide_True by lia. }
  split; [rewrite length_app, length_take, length_drop; lia|].
  split; [done|]. split.
  - intros i Hi. rewrite lookup_copied by lia. by rewrite decide_False by lia.
  - unfold bitset_get_size, BITSET_FIELD_size, bitset_get_tag,
      bitset_get_flag, load.
    rewrite Hin by lia. done.
Qed.

Lemma bitset_dupl_spec hp (set : bitset) :
  holds set →
  Z.of_nat (size_of set) + 1 < 2 ^ 32 →
  Z.of_nat (size_of set) + 1 <= avail hp →
  bitset_dupl hp set = Some (take (S (size_of set)) set).
Proof.
  intros Hs Hmax Hav. destruct (holds_field_size set Hs) as (n & Hn & Hsz & Hr).
  unfold bitset_dupl. rewrite Hn. cbn [mbind option_bind]. cbv zeta.
  rewrite (Z.mod_small (n + 1)) by lia.
  unfold xmalloc. rewrite decide_True by lia. cbn [mbind option_bind].
  unfold holds in Hs.
  rewrite memcpy_Some by (rewrite ?length_fmap, ?length_seq; lia).
  replace (Z.to_nat (n + 1)) with (S (size_of set)) by lia.
  f_equal. rewrite drop_ge by (rewrite length_fmap, length_seq; lia).
  apply app_nil_r.
Qed.

(** The round trip away from the largest size the header can declare. *)
Lemma bitset_copy_dupl hp (a : bitset) :
  holds a →
  Z.of_nat (size_of a) + 1 < 2 ^ 32 →
  Z.of_nat (size_of a) + 1 <= avail hp →
  ∃ d r, bitset_dupl hp a = Some d
    ∧ bitset_copy d a = Some r
    ∧ r = take (S (size_of a)) a
    ∧ (∀ i, (i ≤ size_of a)%nat → r !! i = a !! i)
    ∧ bitset_equal r a = Some true.
Proof.
  intros Hs Hmax Hav. unfold holds in Hs.
  exists (take (S (size_of a)) a).
  destruct (bitset_copy_spec (take (S (size_of a)) a) a)
    as (r & Hr & Hlen & Hin & Hout & Hsize & _); [done|rewrite length_take; lia|].
  exists r. split; [by apply bitset_dupl_spec|]. split; [done|].
  assert (r = take (S (size_of a)) a) as Heq.
  { apply list_eq. intros i. rewrite lookup_take. case_decide.
    - apply Hin. lia.
    - rewrite Hout by lia. rewrite lookup_take. by rewrite decide_False. }
  split; [done|]. split; [done|].
  assert (size_of r = size_of a) as Hsr.
  { unfold size_of. by rewrite Hin by lia. }
  destruct (bitset_equal_spec r a) as (z & Hz & Hiff).
  - unfold holds. rewrite Hsr, Hlen, length_take. lia.
  - lia.
  - rewrite Hz. f_equal. apply Hiff. intros i Hi. apply Hin. lia.
Qed.

(** C5, at the largest declared size: [BITSET_FIELD(set, size) + 1] wraps to
    0 in 32-bit arithmetic, so [bitset_dupl] of a bitset with
    [size = 0xFFFFFFFF] obtains zero lanes and copies nothing (or aborts,
    where [malloc(0)] returns [NULL]), and [bitset_copy] into that duplicate
    has no room for the [2^32] lanes it transfers ([bitset_copy] itself
    computes [len + 1] in [size_t]). *)
Theorem bitset_dupl_max_size :
  let a : bitset := 0xFFFFFFFF :: replicate (Z.to_nat 0xFFFFFFFF) 0 in
  let hp := {| avail := 2 ^ 40; junk := λ _, 0 |} in
  holds a
  ∧ Z.of_nat (length a) = 2 ^ 32
  ∧ bitset_get_size a = Some 0xFFFFFFFF
  ∧ bitset_dupl hp a = Some []
  ∧ bitset_copy [] a = None.
Proof.
  intros a hp.
  assert (a !! 0%nat = Some 0xFFFFFFFF) as Hh by reflexivity.
  assert (hdr_size 0xFFFFFFFF = 0xFFFFFFFF) as Hsz by (vm_compute; reflexivity).
  assert (Z.of_nat (length a) = 2 ^ 32) as Hlen.
  { unfold a. rewrite length_cons, length_replicate, Nat2Z.inj_succ, Z2Nat.id;
      [reflexivity|discriminate]. }
  assert (BITSET_FIELD_size a = Some 0xFFFFFFFF) as Hf.
  { unfold BITSET_FIELD_size, load. rewrite Hh. cbn [mbind option_bind].
    by rewrite Hsz. }
  split.
  { unfold holds, size_of. rewrite Hh.
    change (default 0 (Some 0xFFFFFFFF)) with 0xFFFFFFFF. rewrite Hsz.
    apply Nat2Z.inj_lt. rewrite Hlen, Z2Nat.id; [reflexivity|discriminate]. }
  split; [done|]. split; [done|]. split.
  - unfold bitset_dupl. rewrite Hf. cbn [mbind option_bind]. cbv zeta.
    change ((0xFFFFFFFF + 1) mod 2 ^ 32) with 0. reflexivity.
  - unfold bitset_copy. rewrite Hf. cbn [mbind option_bind].
    change (sz_add 0xFFFFFFFF 1) with (2 ^ 32). unfold memcpy.
    rewrite decide_False; [done|]. intros [H _]. revert H. cbn [length].
    vm_compute. intros H. by apply H.
Qed.

(** * Element accessors *)

Lemma ELEM_WORD_eq e : 0 <= e < 2 ^ 64 → ELEM_WORD e = 1 + e / 64.
Proof.
  intros He. unfold ELEM_WORD, sz_add.
  rewrite Z.shiftr_div_pow2 by lia. change (2 ^ 6) with 64.
  apply Z.mod_small. change (2 ^ 64) with 18446744073709551616 in *.
  Z.div_mod_to_equations. lia.
Qed.

Lemma ELEM_BIT_eq e : ELEM_BIT e = e mod 64.
Proof.
  unfold ELEM_BIT. change 63 with (Z.ones 6). by rewrite Z.land_ones by lia.
Qed.

Lemma ELEM_BIT_range e : 0 <= ELEM_BIT e < 64.
Proof. rewrite ELEM_BIT_eq. apply Z.mod_pos_bound. lia. Qed.

(** Two element indices with the same lane and the same bit are equal. *)
Lemma elem_split_inj i j :
  0 <= i < 2 ^ 64 → 0 <= j < 2 ^ 64 →
  ELEM_WORD i = ELEM_WORD j → ELEM_BIT i = ELEM_BIT j → i = j.
Proof.
  intros Hi Hj. rewrite !ELEM_WORD_eq, !ELEM_BIT_eq by done.
  intros Hw Hb. Z.div_mod_to_equations. lia.
Qed.

Lemma ELEM_WORD_pos e : 0 <= e < 2 ^ 64 → (1 ≤ Z.to_nat (ELEM_WORD e))%nat.
Proof.
  intros He. rewrite ELEM_WORD_eq by done. Z.div_mod_to_equations. lia.
Qed.

Lemma bitset_get_Some (set : bitset) e x :
  set !! Z.to_nat (ELEM_WORD e) = Some x →
  bitset_get set e = Some (Z.testbit x (ELEM_BIT e)).
Proof.
  intros Hx. unfold bitset_get, load. cbv zeta. rewrite Hx.
  cbn [mbind option_bind]. f_equal. apply testbit_via_mask, ELEM_BIT_range.
Qed.

Lemma bitset_get_None (set : bitset) e :
  set !! Z.to_nat (ELEM_WORD e) = None → bitset_get set e = None.
Proof. intros Hx. unfold bitset_get, load. cbv zeta. by rewrite Hx. Qed.

Lemma set_bit_spec x b k :
  0 <= b < 64 → 0 <= k →
  Z.testbit (Z.lor x (shl64 1 b)) k = Z.testbit x k || (b =? k).
Proof.
  intros Hb Hk. rewrite shl64_one by done.
  by rewrite Z.lor_spec, Z.pow2_bits_eqb by lia.
Qed.

Lemma clear_bit_spec x b k :
  0 <= b < 64 → 0 <= k < 64 →
  Z.testbit (Z.land x (not64 (shl64 1 b))) k = Z.testbit x k && negb (b =? k).
Proof.
  intros Hb Hk. rewrite shl64_one by done.
  rewrite Z.land_spec, not64_spec, Z.pow2_bits_eqb by lia.
  destruct (Z.ltb_spec k 64); [done|lia].
Qed.

(** In-place update of one lane by an element accessor. *)
Lemma lane_write_get (set : bitset) i j x y :
  0 <= i < 2 ^ 64 → 0 <= j < 2 ^ 64 →
  set !! Z.to_nat (ELEM_WORD i) = Some x →
  (∀ k, 0 <= k < 64 → k ≠ ELEM_BIT i → Z.testbit y k = Z.testbit x k) →
  j ≠ i →
  bitset_get (<[Z.to_nat (ELEM_WORD i) := y]> set) j = bitset_get set j.
Proof.
  intros Hi Hj Hx Hy Hne.
  pose proof (lookup_lt_Some _ _ _ Hx) as Hlen.
  destruct (decide (ELEM_WORD j = ELEM_WORD i)) as [Hw|Hw].
  - rewrite (bitset_get_Some _ j y), (bitset_get_Some set j x).
    + f_equal. apply Hy; [apply ELEM_BIT_range|].
      intros Hb. apply Hne. by apply elem_split_inj.
    + by rewrite Hw.
    + rewrite Hw. by apply list_lookup_insert_eq.
  - assert (Z.to_nat (ELEM_WORD i) ≠ Z.to_nat (ELEM_WORD j)) as Hn.
    { rewrite !ELEM_WORD_eq in * by done. Z.div_mod_to_equations. lia. }
    unfold bitset_get, load. cbv zeta.
    by rewrite list_lookup_insert_ne by done.
Qed.

(** X1: on storage that holds the lane of element [i], [bitset_set(set, i)]
    makes [bitset_get] return true for [i], leaves the answer for every other
    element as it was, and touches neither the header nor any other lane. *)
Theorem bitset_get_after_set (set : bitset) i :
  0 <= i < 2 ^ 64 →
  (Z.to_nat (ELEM_WORD i) < length set)%nat →
  ∃ set', bitset_set set i = Some set'
    ∧ length set' = length set
    ∧ bitset_get set' i = Some true
    ∧ (∀ j, 0 <= j < 2 ^ 64 → j ≠ i → bitset_get set' j = bitset_get set j)
    ∧ (∀ n, n ≠ Z.to_nat (ELEM_WORD i) → set' !! n = set !! n)
    ∧ set' !! 0%nat = set !! 0%nat.
Proof.
  intros Hi Hlen. destruct (lookup_lt_ex set _ Hlen) as [x Hx].
  pose proof (ELEM_BIT_range i) as Hb. pose proof (ELEM_WORD_pos i Hi) as Hw.
  unfold bitset_set, load. cbv zeta. rewrite Hx. cbn [mbind option_bind].
  rewrite store_Some by done. eexists. split; [reflexivity|].
  split; [apply length_insert|]. split; [|split; [|split]].
  - rewrite (bitset_get_Some _ i (Z.lor x (shl64 1 (ELEM_BIT i))))
      by (by apply list_lookup_insert_eq).
    f_equal. rewrite set_bit_spec by lia. rewrite Z.eqb_refl. apply orb_true_r.
  - intros j Hj Hne. apply (lane_write_get set i j x); try done.
    intros k Hk Hkb. rewrite set_bit_spec by lia.
    destruct (Z.eqb_spec (ELEM_BIT i) k); [done|apply orb_false_r].
  - intros n Hn. by apply list_lookup_insert_ne.
  - apply list_lookup_insert_ne. lia.
Qed.

Lemma bitset_get_after_set_witness :
  ∃ set', bitset_set [2; 0; 5] 70 = Some set'
    ∧ bitset_get set' 70 = Some true
    ∧ bitset_get set' 64 = bitset_get [2; 0; 5] 64.
Proof.
  destruct (bitset_get_after_set [2; 0; 5] 70) as (set' & Hs & _ & Hg & Ho & _).
  - lia.
  - vm_compute. lia.
  - exists set'. split; [exact Hs|]. split; [exact Hg|]. apply Ho; lia.
Defined.

(** X2: on storage that holds the lane of element [i], [bitset_clear(set, i)]
    makes [bitset_get] return false for [i], leaves the answer for every other
    element as it was, and touches neither the header nor any other lane. *)
Theorem bitset_get_after_clear (set : bitset) i :
  0 <= i < 2 ^ 64 →
  (Z.to_nat (ELEM_WORD i) < length set)%nat →
  ∃ set', bitset_clear set i = Some set'
    ∧ length set' = length set
    ∧ bitset_get set' i = Some false
    ∧ (∀ j, 0 <= j < 2 ^ 64 → j ≠ i → bitset_get set' j = bitset_get set j)
    ∧ (∀ n, n ≠ Z.to_nat (ELEM_WORD i) → set' !! n = set !! n)
    ∧ set' !! 0%nat = set !! 0%nat.
Proof.
  intros Hi Hlen. destruct (lookup_lt_ex set _ Hlen) as [x Hx].
  pose proof (ELEM_BIT_range i) as Hb. pose proof (ELEM_WORD_pos i Hi) as Hw.
  unfold bitset_clear, load. cbv zeta. rewrite Hx. cbn [mbind option_bind].
  rewrite store_Some by done. eexists. split; [reflexivity|].
  split; [apply length_insert|]. split; [|split; [|split]].
  - rewrite (bitset_get_Some _ i (Z.land x (not64 (shl64 1 (ELEM_BIT i)))))
      by (by apply list_lookup_insert_eq).
    f_equal. rewrite clear_bit_spec by lia. rewrite Z.eqb_refl.
    apply andb_false_r.
  - intros j Hj Hne. apply (lane_write_get set i j x); try done.
    intros k Hk Hkb. rewrite clear_bit_spec by lia.
    destruct (Z.eqb_spec (ELEM_BIT i) k); [done|apply andb_true_r].
  - intros n Hn. by apply list_lookup_insert_ne.
  - apply list_lookup_insert_ne. lia.
Qed.

Lemma bitset_get_after_clear_witness :
  ∃ set', bitset_clear [2; 0; 5] 66 = Some set'
    ∧ bitset_get set' 66 = Some false
    ∧ bitset_get set' 64 = bitset_get [2; 0; 5] 64.
Proof.
  destruct (bitset_get_after_clear [2; 0; 5] 66)
    as (set' & Hs & _ & Hg & Ho & _).
  - lia.
  - vm_compute. lia.
  - exists set'. split; [exact Hs|]. split; [exact Hg|]. apply Ho; lia.
Defined.

(** * Header accessors: flags and tag *)

Lemma mask_flags_hole :
  0xFFFF0000FFFFFFFF = Z.lor (Z.ones 32) (Z.shiftl (Z.ones 16) 48).
Proof. reflexivity. Qed.

Lemma hdr_flags_with_flags h v : hdr_flags (hdr_with_flags h v) = Z.land v 0xFFFF.
Proof.
  unfold hdr_flags, hdr_with_flags. rewrite mask_flags_hole, mask_lo16. bitblast.
Qed.

Lemma hdr_size_with_flags h v : hdr_size (hdr_with_flags h v) = hdr_size h.
Proof.
  unfold hdr_size, hdr_with_flags. rewrite mask_flags_hole, mask_lo16, mask_lo32.
  bitblast.
Qed.

Lemma hdr_tag_with_flags h v : hdr_tag (hdr_with_flags h v) = hdr_tag h.
Proof.
  unfold hdr_tag, hdr_with_flags. rewrite mask_flags_hole, mask_lo16. bitblast.
Qed.

Lemma low16_bits x k :
  0 <= k → Z.testbit (Z.land x 0xFFFF) k = Z.testbit x k && (k <? 16).
Proof.
  intros Hk. rewrite mask_lo16, Z.land_spec, Z.testbit_ones by lia.
  destruct (Z.leb_spec 0 k); [done|lia].
Qed.

Lemma hdr_flags_low16 h : Z.land (hdr_flags h) 0xFFFF = hdr_flags h.
Proof.
  unfold hdr_flags. by rewrite <- Z.land_assoc, Z.land_diag.
Qed.

Lemma header_write (s : bitset) h h' :
  s !! 0%nat = Some h →
  store s 0 h' = Some (<[0%nat := h']> s)
  ∧ <[0%nat := h']> s !! 0%nat = Some h'
  ∧ length (<[0%nat := h']> s) = length s
  ∧ ∀ i, (1 ≤ i)%nat → <[0%nat := h']> s !! i = s !! i.
Proof.
  intros Hh. apply lookup_lt_Some in Hh.
  split; [by apply store_Some|]. split; [by apply list_lookup_insert_eq|].
  split; [apply length_insert|]. intros i Hi. apply list_lookup_insert_ne. lia.
Qed.

Lemma header_only_intro (s : bitset) h h' :
  s !! 0%nat = Some h → hdr_size h' = hdr_size h →
  header_only s (<[0%nat := h']> s).
Proof.
  intros Hh Hsz. destruct (header_write s h h' Hh) as (_ & H0 & Hl & Hp).
  split; [done|]. split; [|done].
  unfold bitset_get_size, BITSET_FIELD_size, load. rewrite H0, Hh.
  cbn [mbind option_bind]. by rewrite Hsz.
Qed.

Lemma get_flag_of (s : bitset) h g :
  s !! 0%nat = Some h →
  bitset_get_flag s g = Some (negb (Z.land (hdr_flags h) g =? 0)).
Proof. intros Hh. unfold bitset_get_flag, load. by rewrite Hh. Qed.

Lemma get_tag_of (s : bitset) h :
  s !! 0%nat = Some h → bitset_get_tag s = Some (hdr_tag h).
Proof. intros Hh. unfold bitset_get_tag, load. by rewrite Hh. Qed.

Lemma nonzero_lor a b :
  negb (Z.lor a b =? 0) = negb (a =? 0) || negb (b =? 0).
Proof.
  destruct (Z.eqb_spec (Z.lor a b) 0) as [E|E];
    rewrite Z.lor_eq_0_iff in E.
  - destruct E as [-> ->]. done.
  - destruct (Z.eqb_spec a 0), (Z.eqb_spec b 0); try done. tauto.
Qed.

(** X3: on a bitset with a header lane, [bitset_set_flag(set, f)] makes
    [bitset_get_flag] true for every flag that shares a bit with [f] and
    leaves the other flags as they were; [bitset_clear_flag(set, f)] makes
    [bitset_get_flag(set, f)] false and leaves every flag disjoint from [f]
    as it was.  Neither changes the size, the tag or a payload lane. *)
Theorem flag_set_clear_get (s : bitset) f :
  (0 < length s)%nat →
  (∃ s', bitset_set_flag s f = Some s'
     ∧ header_only s s'
     ∧ bitset_get_tag s' = bitset_get_tag s
     ∧ ∀ g, ∃ b, bitset_get_flag s g = Some b
          ∧ bitset_get_flag s' g
            = Some (b || negb (Z.land (Z.land f 0xFFFF) g =? 0)))
  ∧ (∃ s', bitset_clear_flag s f = Some s'
       ∧ header_only s s'
       ∧ bitset_get_tag s' = bitset_get_tag s
       ∧ bitset_get_flag s' f = Some false
       ∧ ∀ g, Z.land (Z.land f 0xFFFF) g = 0 →
           bitset_get_flag s' g = bitset_get_flag s g).
Proof.
  intros Hlen. destruct (lookup_lt_ex s 0 Hlen) as [h Hh]. split.
  - set (h' := hdr_with_flags h (Z.lor (hdr_flags h) (Z.land f 0xFFFF))).
    destruct (header_write s h h' Hh) as (Hst & H0 & _).
    exists (<[0%nat := h']> s).
    split; [unfold bitset_set_flag, load; by rewrite Hh|].
    split; [apply (header_only_intro s h); [done|apply hdr_size_with_flags]|].
    split.
    { rewrite (get_tag_of _ h' H0), (get_tag_of s h Hh).
      f_equal. apply hdr_tag_with_flags. }
    intros g. eexists. split; [by apply get_flag_of|].
    rewrite (get_flag_of _ h' _ H0). f_equal. unfold h'.
    rewrite hdr_flags_with_flags, Z.land_lor_distr_l.
    rewrite hdr_flags_low16, <- Z.land_assoc, Z.land_diag, Z.land_lor_distr_l.
    apply nonzero_lor.
  - set (h' := hdr_with_flags h
                 (Z.land (hdr_flags h) (Z.lnot (Z.land f 0xFFFF)))).
    destruct (header_write s h h' Hh) as (Hst & H0 & _).
    exists (<[0%nat := h']> s).
    split; [unfold bitset_clear_flag, load; by rewrite Hh|].
    split; [apply (header_only_intro s h); [done|apply hdr_size_with_flags]|].
    split.
    { rewrite (get_tag_of _ h' H0), (get_tag_of s h Hh).
      f_equal. apply hdr_tag_with_flags. }
    split.
    + rewrite (get_flag_of _ h' _ H0). f_equal.
      apply negb_false_iff, Z.eqb_eq. unfold h'. rewrite hdr_flags_with_flags.
      apply Z.bits_inj'. intros k Hk.
      rewrite Z.bits_0, Z.land_spec, low16_bits, Z.land_spec, Z.lnot_spec,
        low16_bits by lia.
      destruct (Z.testbit (hdr_flags h) k), (Z.testbit f k), (k <? 16); done.
    + intros g Hg. rewrite (get_flag_of _ h' _ H0), (get_flag_of s h _ Hh).
      do 3 f_equal. unfold h'. rewrite hdr_flags_with_flags.
      apply Z.bits_inj'. intros k Hk.
      assert (Z.testbit (Z.land (Z.land f 0xFFFF) g) k = false) as Hd
        by (rewrite Hg; apply Z.bits_0).
      unfold hdr_flags. rewrite mask_lo16 in *.
      rewrite !Z.land_spec, Z.testbit_ones in Hd by lia.
      rewrite !Z.land_spec, Z.lnot_spec, !Z.land_spec, !Z.testbit_ones by lia.
      destruct (Z.testbit (Z.shiftr h 32) k), (Z.testbit f k), (k <? 16),
        (0 <=? k), (Z.testbit g k); done.
Qed.

Lemma flag_set_clear_get_witness :
  (∃ s', bitset_set_flag [0x0005000100000002; 7; 1] SET_COMPRESSED = Some s'
         ∧ bitset_get_tag s' = Some 5)
  ∧ (∃ s', bitset_clear_flag [0x0005000100000002; 7; 1] SET_ACTIVE = Some s'
           ∧ bitset_get_flag s' SET_ACTIVE = Some false).
Proof.
  split.
  - destruct (flag_set_clear_get [0x0005000100000002; 7; 1] SET_COMPRESSED)
      as [(s' & Hs & _ & Ht & _) _]; [vm_compute; lia|].
    exists s'. split; [exact Hs|exact Ht].
  - destruct (flag_set_clear_get [0x0005000100000002; 7; 1] SET_ACTIVE)
      as [_ (s' & Hs & _ & _ & Hf & _)]; [vm_compute; lia|].
    exists s'. split; [exact Hs|exact Hf].
Defined.

Lemma hdr_tag_range h : 0 <= hdr_tag h < 2 ^ 16.
Proof.
  unfold hdr_tag. rewrite mask_lo16, Z.land_ones by lia.
  apply Z.mod_pos_bound. lia.
Qed.

Lemma tag_write (s : bitset) h v :
  s !! 0%nat = Some h →
  header_only s (<[0%nat := hdr_with_tag h v]> s)
  ∧ (∀ g, bitset_get_flag (<[0%nat := hdr_with_tag h v]> s) g
          = bitset_get_flag s g)
  ∧ bitset_get_tag (<[0%nat := hdr_with_tag h v]> s) = Some (v mod 2 ^ 16).
Proof.
  intros Hh. destruct (header_write s h (hdr_with_tag h v) Hh) as (_ & H0 & _).
  split; [apply (header_only_intro s h); [done|apply hdr_size_with_tag]|].
  split.
  - intros g. rewrite (get_flag_of _ _ g H0), (get_flag_of s h g Hh).
    by rewrite hdr_flags_with_tag.
  - rewrite (get_tag_of _ _ H0). by rewrite hdr_tag_with_tag.
Qed.

Lemma bitset_inc_key_Some (s : bitset) h :
  s !! 0%nat = Some h →
  bitset_inc_key s = Some (<[0%nat := hdr_with_tag h (hdr_tag h + 1)]> s, hdr_tag h).
Proof.
  intros Hh. unfold bitset_inc_key, load. rewrite Hh. cbn [mbind option_bind].
  by rewrite store_Some by (by apply lookup_lt_Some in Hh).
Qed.

Lemma bitset_dec_tag_Some (s : bitset) h :
  s !! 0%nat = Some h →
  bitset_dec_tag s = Some (<[0%nat := hdr_with_tag h (hdr_tag h - 1)]> s, hdr_tag h).
Proof.
  intros Hh. unfold bitset_dec_tag, load. rewrite Hh. cbn [mbind option_bind].
  by rewrite store_Some by (by apply lookup_lt_Some in Hh).
Qed.

(** X4: on a bitset with a header lane whose tag is [t], [bitset_inc_key]
    yields [t] and leaves the tag at [t + 1] modulo 2^16 (65535 wraps to 0),
    [bitset_dec_tag] yields [t] and leaves [t - 1] modulo 2^16 (0 wraps to
    65535); each undoes the other, and neither changes the size, a flag or a
    payload lane. *)
Theorem tag_inc_dec_wrap (s : bitset) :
  (0 < length s)%nat →
  ∃ t, bitset_get_tag s = Some t ∧ 0 <= t < 2 ^ 16
    ∧ (∃ s' s'', bitset_inc_key s = Some (s', t)
         ∧ header_only s s'
         ∧ (∀ g, bitset_get_flag s' g = bitset_get_flag s g)
         ∧ bitset_get_tag s' = Some ((t + 1) mod 2 ^ 16)
         ∧ bitset_dec_tag s' = Some (s'', (t + 1) mod 2 ^ 16)
         ∧ bitset_get_tag s'' = Some t)
    ∧ (∃ s' s'', bitset_dec_tag s = Some (s', t)
         ∧ header_only s s'
         ∧ (∀ g, bitset_get_flag s' g = bitset_get_flag s g)
         ∧ bitset_get_tag s' = Some ((t - 1) mod 2 ^ 16)
         ∧ bitset_inc_key s' = Some (s'', (t - 1) mod 2 ^ 16)
         ∧ bitset_get_tag s'' = Some t).
Proof.
  intros Hlen. destruct (lookup_lt_ex s 0 Hlen) as [h Hh].
  pose proof (hdr_tag_range h) as Hr.
  exists (hdr_tag h). split; [by apply get_tag_of|]. split; [done|].
  change (2 ^ 16) with 65536 in *.
  split.
  - set (h1 := hdr_with_tag h (hdr_tag h + 1)).
    destruct (header_write s h h1 Hh) as (_ & H1 & _).
    destruct (tag_write s h (hdr_tag h + 1) Hh) as (Ho & Hf & Ht). fold h1 in Ho, Hf, Ht.
    destruct (tag_write _ h1 (hdr_tag h1 - 1) H1) as (_ & _ & Ht2).
    assert (hdr_tag h1 = (hdr_tag h + 1) mod 65536) as E1
      by apply hdr_tag_with_tag.
    exists (<[0%nat := h1]> s),
      (<[0%nat := hdr_with_tag h1 (hdr_tag h1 - 1)]> (<[0%nat := h1]> s)).
    split; [by apply bitset_inc_key_Some|].
    split; [done|]. split; [done|]. split; [done|].
    split; [rewrite <- E1; by apply bitset_dec_tag_Some|].
    rewrite Ht2, E1. f_equal. change (2 ^ 16) with 65536.
    Z.div_mod_to_equations. lia.
  - set (h1 := hdr_with_tag h (hdr_tag h - 1)).
    destruct (header_write s h h1 Hh) as (_ & H1 & _).
    destruct (tag_write s h (hdr_tag h - 1) Hh) as (Ho & Hf & Ht). fold h1 in Ho, Hf, Ht.
    destruct (tag_write _ h1 (hdr_tag h1 + 1) H1) as (_ & _ & Ht2).
    assert (hdr_tag h1 = (hdr_tag h - 1) mod 65536) as E1
      by apply hdr_tag_with_tag.
    exists (<[0%nat := h1]> s),
      (<[0%nat := hdr_with_tag h1 (hdr_tag h1 + 1)]> (<[0%nat := h1]> s)).
    split; [by apply bitset_dec_tag_Some|].
    split; [done|]. split; [done|]. split; [done|].
    split; [rewrite <- E1; by apply bitset_inc_key_Some|].
    rewrite Ht2, E1. f_equal. change (2 ^ 16) with 65536.
    Z.div_mod_to_equations. lia.
Qed.

Lemma tag_inc_dec_wrap_witness :
  ∃ s', bitset_inc_key [0xFFFF000100000002; 7; 1] = Some (s', 65535)
        ∧ bitset_get_tag s' = Some 0.
Proof.
  destruct (tag_inc_dec_wrap [0xFFFF000100000002; 7; 1])
    as (t & Ht & _ & (s' & _ & Hi & _ & _ & Hg & _) & _).
  - vm_compute. lia.
  - vm_compute in Ht. injection Ht as <-. exists s'.
    split; [exact Hi|exact Hg].
Defined.

(** * Out-of-place operations *)

Lemma get_size_of (s : bitset) h :
  s !! 0%nat = Some h → bitset_get_size s = Some (hdr_size h).
Proof. intros Hh. unfold bitset_get_size, BITSET_FIELD_size, load. by rewrite Hh. Qed.

Lemma get_size_size_of (s : bitset) n :
  bitset_get_size s = Some n → size_of s = Z.to_nat n.
Proof.
  unfold bitset_get_size, BITSET_FIELD_size, load, size_of.
  destruct (s !! 0%nat) as [h|]; [|done]. cbn [mbind option_bind default].
  by intros [= <-].
Qed.

Lemma hdr_size_idem h : hdr_size h mod 2 ^ 32 = hdr_size h.
Proof.
  apply Z.mod_small. unfold hdr_size. rewrite mask_lo32, Z.land_ones by lia.
  apply Z.mod_pos_bound. lia.
Qed.

(** [r[i] = g(a[i], b[i])] *)
Lemma body_out2 (g : Z → Z → Z) (a b r : bitset) i :
  (ai ← load a i; bi ← load b i; store r i (g ai bi))
  = lane_update (λ i _, ai ← a !! i; bi ← b !! i; Some (g ai bi)) i r.
Proof. body_cases r i. Qed.

(** [b[i] = g(a[i], b[i])] *)
Lemma body_in2_alt (g : Z → Z → Z) (a b : bitset) i :
  (ai ← load a i; bi ← load b i; store b i (g ai bi))
  = lane_update (λ i bi, ai ← a !! i; Some (g ai bi)) i b.
Proof. body_cases b i. Qed.

Lemma out_pass (f : nat → option Z) (r a : bitset)
    (body : nat → bitset → option bitset) :
  holds a → (size_of a < length r)%nat →
  (∀ i, (1 ≤ i ≤ size_of a)%nat → is_Some (f i)) →
  (∀ i s, body i s = lane_update (λ i _, f i) i s) →
  out_result r a f
    ('(r, n) ← BITSET_COPY_FIELD_size r a; for_down (Z.to_nat n) body r).
Proof.
  intros Ha Hr Hf Hbody.
  destruct (holds_header a Ha) as (ha & Hha & Hsz).
  destruct (lookup_lt_ex r 0) as [hr Hhr]; [lia|].
  rewrite (copy_field_ok r a ha hr Hha Hhr). cbn [mbind option_bind].
  rewrite <- Hsz. rewrite (for_down_ext _ body (lane_update (λ i _, f i)))
    by (intros; apply Hbody).
  set (h1 := hdr_with_size hr (hdr_size ha)).
  destruct (header_write r hr h1 Hhr) as (_ & H1 & Hl1 & Hp1).
  destruct (for_down_pass_result (size_of a) (λ i _, f i) (<[0%nat := h1]> r))
    as (r' & Hr' & Hlen & Hframe & Hlanes).
  { intros i Hi. destruct (lookup_lt_ex (<[0%nat := h1]> r) i) as [x Hx];
      [lia|]. destruct (Hf i Hi) as [y Hy]. by exists x, y. }
  exists r'. split; [done|]. split; [lia|].
  assert (r' !! 0%nat = Some h1) as H0 by (rewrite Hframe by lia; done).
  split.
  { rewrite (get_size_of _ _ H0), (get_size_of _ _ Hha). f_equal.
    unfold h1. rewrite hdr_size_with_size. apply hdr_size_idem. }
  split.
  { rewrite (get_tag_of _ _ H0), (get_tag_of _ _ Hhr). f_equal.
    apply hdr_tag_with_size. }
  split.
  { intros g. rewrite (get_flag_of _ _ g H0), (get_flag_of _ _ g Hhr).
    unfold h1. by rewrite hdr_flags_with_size. }
  split.
  - intros i Hi. destruct (Hlanes i Hi) as (x & y & _ & Hy & Hy'). by exists y.
  - intros i Hi. rewrite Hframe by lia. apply Hp1. lia.
Qed.

Lemma out_result_holds (r a : bitset) f res :
  holds a → (size_of a < length r)%nat → out_result r a f res →
  ∃ r', res = Some r' ∧ size_of r' = size_of a ∧ holds r'
    ∧ (∀ i, (1 ≤ i ≤ size_of a)%nat → ∃ y, f i = Some y ∧ r' !! i = Some y).
Proof.
  intros Ha Hr (r' & Hres & Hlen & Hsz & _ & _ & Hlanes & _).
  destruct (holds_header a Ha) as (ha & Hha & Hsa).
  rewrite (get_size_of _ _ Hha) in Hsz. apply get_size_size_of in Hsz.
  exists r'. split; [done|]. split; [lia|]. split; [|done].
  unfold holds. lia.
Qed.

Lemma two_lanes (a b : bitset) n i :
  (n < length a)%nat → (n < length b)%nat → (1 ≤ i ≤ n)%nat →
  ∃ ai bi, a !! i = Some ai ∧ b !! i = Some bi.
Proof.
  intros Ha Hb Hi. destruct (lookup_lt_ex a i) as [ai Hai]; [lia|].
  destruct (lookup_lt_ex b i) as [bi Hbi]; [lia|]. eauto.
Qed.

(** X5: [bitset_and], [bitset_or], [bitset_diff],
    [bitset_symmetric_diff_union] and [bitset_merge] write into [r] the size
    of [a] and, for each lane up to that size, their formula over the operand
    lanes; they keep the flags and the tag of [r] and every lane of [r] above
    the size of [a]. *)
Theorem out_of_place_results (r a b c : bitset) :
  holds a →
  (size_of a < length r)%nat → (size_of a < length b)%nat →
  out_result r a (λ i, ai ← a !! i; bi ← b !! i; Some (Z.land ai bi))
    (bitset_and r a b)
  ∧ out_result r a (λ i, ai ← a !! i; bi ← b !! i; Some (Z.lor ai bi))
      (bitset_or r a b)
  ∧ out_result r a (λ i, ai ← a !! i; bi ← b !! i; Some (Z.land ai (not64 bi)))
      (bitset_diff r a b)
  ∧ ((size_of a < length c)%nat →
     out_result r a
       (λ i, ai ← a !! i; bi ← b !! i; ci ← c !! i;
             Some (Z.lor ai (Z.land bi (not64 ci))))
       (bitset_symmetric_diff_union r a b c)
     ∧ out_result r a
         (λ i, ai ← a !! i; bi ← b !! i; ci ← c !! i;
               Some (Z.lxor bi (Z.land (Z.lxor bi ai) ci)))
         (bitset_merge r a b c)).
Proof.
  intros Ha Hr Hb.
  assert (∀ g : Z → Z → Z, ∀ i, (1 ≤ i ≤ size_of a)%nat →
            is_Some (ai ← a !! i; bi ← b !! i; Some (g ai bi))) as H2.
  { intros g i Hi.
    destruct (two_lanes a b (size_of a) i) as (ai & bi & -> & ->);
      [unfold holds in Ha; lia|lia|lia|]. by eexists. }
  split; [apply out_pass; [done..|apply H2|intros; apply (body_out2 Z.land)]|].
  split; [apply out_pass; [done..|apply H2|intros; apply (body_out2 Z.lor)]|].
  split; [apply out_pass; [done..|apply (H2 (λ x y, Z.land x (not64 y)))|
          intros; apply (body_out2 (λ x y, Z.land x (not64 y)))]|].
  intros Hc.
  assert (∀ g : Z → Z → Z → Z, ∀ i, (1 ≤ i ≤ size_of a)%nat →
            is_Some (ai ← a !! i; bi ← b !! i; ci ← c !! i; Some (g ai bi ci)))
    as H3.
  { intros g i Hi.
    destruct (two_lanes a b (size_of a) i) as (ai & bi & -> & ->);
      [unfold holds in Ha; lia|lia|lia|].
    destruct (lookup_lt_ex c i) as [ci ->]; [lia|]. by eexists. }
  split.
  - apply out_pass; [done..|
      apply (H3 (λ x y z, Z.lor x (Z.land y (not64 z))))|
      intros; apply (body_out3 (λ x y z, Z.lor x (Z.land y (not64 z))))].
  - apply out_pass; [done..|apply (H3 merge_lane)|
      intros; apply (body_out3 merge_lane)].
Qed.

Lemma out_of_place_results_witness :
  out_result [0x0005000100000007; 9; 9; 9] [2; 12; 10]
    (λ i, ai ← [2; 12; 10] !! i; bi ← [2; 10; 3] !! i; Some (Z.land ai bi))
    (bitset_and [0x0005000100000007; 9; 9; 9] [2; 12; 10] [2; 10; 3]).
Proof.
  refine (proj1 (out_of_place_results [0x0005000100000007; 9; 9; 9]
                   [2; 12; 10] [2; 10; 3] [] _ _ _)).
  - unfold holds. vm_compute. lia.
  - vm_compute. lia.
  - vm_compute. lia.
Defined.

(** * Predicates over the payload *)

Lemma none_down2 (test : Z → Z → bool) (a b : bitset) n :
  (n < length a)%nat → (n < length b)%nat →
  ∃ r, none_down n (λ i, ai ← load a i; bi ← load b i; Some (test ai bi)) = Some r
    ∧ (r = true ↔
       ∀ i ai bi, (1 ≤ i ≤ n)%nat → a !! i = Some ai → b !! i = Some bi →
         test ai bi = false).
Proof.
  intros Ha Hb.
  edestruct (none_down_spec n) as (r & Hr & Hiff); last first.
  - exists r. split; [exact Hr|]. rewrite Hiff. unfold load. split.
    + intros H i ai bi Hi Hai Hbi. specialize (H i Hi).
      rewrite Hai, Hbi in H. by injection H.
    + intros H i Hi. destruct (two_lanes a b n i) as (ai & bi & Hai & Hbi);
        [done..|]. rewrite Hai, Hbi. cbn [mbind option_bind]. f_equal. eauto.
  - intros i Hi. cbv beta. unfold load.
    destruct (two_lanes a b n i) as (ai & bi & -> & ->); [done..|]. by eexists.
Qed.

Lemma nonzero_false x : negb (x =? 0) = false ↔ x = 0.
Proof. rewrite negb_false_iff. apply Z.eqb_eq. Qed.

Lemma bitset_empty_spec (a : bitset) :
  holds a →
  ∃ r, bitset_empty a = Some r
    ∧ (r = true ↔ ∀ i, (1 ≤ i ≤ size_of a)%nat → a !! i = Some 0).
Proof.
  intros Ha. destruct (holds_field_size a Ha) as (n & Hn & Hsz & _).
  unfold bitset_empty. rewrite Hn. cbn [mbind option_bind]. rewrite Hsz.
  edestruct (none_down_spec (size_of a)) as (r & Hr & Hiff); last first.
  - exists r. split; [exact Hr|]. rewrite Hiff. unfold load. split.
    + intros H i Hi. specialize (H i Hi).
      destruct (a !! i) as [x|]; [|done]. injection H as H.
      apply nonzero_false in H. by subst.
    + intros H i Hi. by rewrite (H i Hi).
  - intros i Hi. cbv beta. unfold load.
    destruct (lookup_lt_ex a i) as [x ->]; [unfold holds in Ha; lia|].
    by eexists.
Qed.

Lemma bitset_disjoint_spec (a b : bitset) :
  holds a → (size_of a < length b)%nat →
  ∃ r, bitset_disjoint a b = Some r
    ∧ (r = true ↔
       ∀ i ai bi, (1 ≤ i ≤ size_of a)%nat →
         a !! i = Some ai → b !! i = Some bi → Z.land ai bi = 0).
Proof.
  intros Ha Hb. destruct (holds_field_size a Ha) as (n & Hn & Hsz & _).
  unfold bitset_disjoint. rewrite Hn. cbn [mbind option_bind]. rewrite Hsz.
  destruct (none_down2 (λ x y, negb (Z.land x y =? 0)) a b (size_of a))
    as (r & Hr & Hiff); [unfold holds in Ha; lia|lia|].
  exists r. split; [done|]. rewrite Hiff.
  split; intros H i ai bi Hi Hai Hbi; apply nonzero_false; eauto.
Qed.

Lemma bitset_implies_alt_spec (a b : bitset) :
  holds a → (size_of a < length b)%nat →
  ∃ r, bitset_implies_alt a b = Some r
    ∧ (r = true ↔
       ∀ i ai bi, (1 ≤ i ≤ size_of a)%nat →
         a !! i = Some ai → b !! i = Some bi → Z.land (not64 ai) bi = 0).
Proof.
  intros Ha Hb. destruct (holds_field_size a Ha) as (n & Hn & Hsz & _).
  unfold bitset_implies_alt. rewrite Hn. cbn [mbind option_bind]. rewrite Hsz.
  destruct (none_down2 (λ x y, negb (Z.land (not64 x) y =? 0)) a b (size_of a))
    as (r & Hr & Hiff); [unfold holds in Ha; lia|lia|].
  exists r. split; [done|]. rewrite Hiff.
  split; intros H i ai bi Hi Hai Hbi; apply nonzero_false; eauto.
Qed.

Lemma bool_eq_iff (x y : bool) : (x = true ↔ y = true) → x = y.
Proof. destruct x, y; intuition congruence. Qed.

(** X6: for operands of equal declared size, [bitset_implies_alt(a, b)]
    returns what [bitset_implies(b, a)] returns. *)
Theorem bitset_implies_alt_converse (a b : bitset) :
  holds a → holds b → size_of a = size_of b →
  ∃ x, bitset_implies_alt a b = Some x ∧ bitset_implies b a = Some x.
Proof.
  intros Ha Hb Hsz.
  destruct (bitset_implies_alt_spec a b) as (x & Hx & Hxi);
    [done|unfold holds in Hb; lia|].
  destruct (bitset_implies_spec b a) as (y & Hy & Hyi);
    [done|unfold holds in Ha; lia|].
  exists x. split; [done|]. rewrite Hy. f_equal. apply bool_eq_iff.
  rewrite Hxi, Hyi, Hsz.
  split; intros H i u v Hi Hu Hv; rewrite Z.land_comm; eauto.
Qed.

Lemma bitset_implies_alt_converse_witness :
  ∃ x, bitset_implies_alt [2; 12; 10] [2; 4; 2] = Some x
       ∧ bitset_implies [2; 4; 2] [2; 12; 10] = Some x.
Proof.
  apply (bitset_implies_alt_converse [2; 12; 10] [2; 4; 2]).
  - unfold holds. vm_compute. lia.
  - unfold holds. vm_compute. lia.
  - reflexivity.
Defined.

(** X7: on bitsets of equal declared size over 64-bit lanes,
    [bitset_implies] is reflexive and transitive. *)
Theorem bitset_implies_preorder (a b c : bitset) :
  holds a → holds b → holds c →
  size_of a = size_of b → size_of b = size_of c →
  Forall word64 a →
  bitset_implies a a = Some true
  ∧ (bitset_implies a b = Some true → bitset_implies b c = Some true →
     bitset_implies a c = Some true).
Proof.
  intros Ha Hb Hc Hab Hbc Wa.
  assert (size_of a < length b)%nat by (unfold holds in Hb; lia).
  assert (size_of b < length c)%nat by (unfold holds in Hc; lia).
  assert (size_of a < length c)%nat by lia.
  split.
  - destruct (bitset_implies_spec a a) as (x & Hx & Hxi); [done..|].
    rewrite Hx. f_equal. apply Hxi. intros i u v Hi Hu Hv.
    rewrite Hu in Hv. injection Hv as <-.
    apply lane_self_zero. by apply (lane_word64 a i).
  - destruct (bitset_implies_spec a b) as (x & Hx & Hxi); [done..|].
    destruct (bitset_implies_spec b c) as (y & Hy & Hyi); [done..|].
    destruct (bitset_implies_spec a c) as (z & Hz & Hzi); [done..|].
    rewrite Hx, Hy, Hz. intros [= ->] [= ->]. f_equal. apply Hzi.
    intros i u w Hi Hu Hw.
    destruct (lookup_lt_ex b i) as [v Hv]; [lia|].
    pose proof (proj1 Hxi eq_refl i u v Hi Hu Hv) as Huv.
    pose proof (proj1 Hyi eq_refl i v w ltac:(lia) Hv Hw) as Hvw.
    pose proof (lane_word64 a i u Wa Hu) as Wu.
    apply implies_lane_zero; [done|]. intros k Hk Hbit.
    assert (Z.testbit v k = true) as Hvk.
    { by apply (proj1 (implies_lane_zero u v Wu) Huv k Hk). }
    assert (Z.testbit (Z.land v (not64 w)) k = false) as Hz0
      by (rewrite Hvw; apply Z.bits_0).
    rewrite Z.land_spec, not64_spec, Hvk in Hz0 by lia.
    destruct (Z.ltb_spec k 64); [|lia]. by destruct (Z.testbit w k).
Qed.

Lemma bitset_implies_preorder_witness :
  bitset_implies [2; 4; 2] [2; 4; 2] = Some true.
Proof.
  refine (proj1 (bitset_implies_preorder [2; 4; 2] [2; 5; 3] [2; 7; 7]
                   _ _ _ _ _ _)).
  - unfold holds. vm_compute. lia.
  - unfold holds. vm_compute. lia.
  - unfold holds. vm_compute. lia.
  - reflexivity.
  - reflexivity.
  - repeat constructor; unfold word64; lia.
Defined.

(** * How the operations compose *)

Lemma out2_lanes (g : Z → Z → Z) (r a b : bitset) :
  holds a → (size_of a < length r)%nat → (size_of a < length b)%nat →
  ∃ r', ('(r, n) ← BITSET_COPY_FIELD_size r a;
         for_down (Z.to_nat n)
           (λ i r, ai ← load a i; bi ← load b i; store r i (g ai bi)) r)
        = Some r'
    ∧ size_of r' = size_of a ∧ holds r'
    ∧ ∀ i, (1 ≤ i ≤ size_of a)%nat →
        ∃ ai bi, a !! i = Some ai ∧ b !! i = Some bi ∧ r' !! i = Some (g ai bi).
Proof.
  intros Ha Hr Hb.
  edestruct (out_result_holds r a) as (r' & Hres & Hsz & Hh & Hl);
    [done|done|apply (out_pass (λ i, ai ← a !! i; bi ← b !! i; Some (g ai bi)))|].
  - done.
  - done.
  - intros i Hi. destruct (two_lanes a b (size_of a) i) as (ai & bi & -> & ->);
      [unfold holds in Ha; lia|lia|lia|]. by eexists.
  - intros i s. apply (body_out2 g).
  - exists r'. split; [exact Hres|]. split; [done|]. split; [done|].
    intros i Hi. destruct (Hl i Hi) as (y & Hy & Hy').
    destruct (two_lanes a b (size_of a) i) as (ai & bi & Hai & Hbi);
      [unfold holds in Ha; lia|lia|lia|].
    rewrite Hai, Hbi in Hy. injection Hy as <-. by exists ai, bi.
Qed.

(** X8: [bitset_implies(a, b)] is the emptiness of the difference:
    it returns what [bitset_empty] returns on the result of
    [bitset_diff(r, a, b)]. *)
Theorem bitset_implies_is_empty_diff (r a b : bitset) :
  holds a → (size_of a < length r)%nat → (size_of a < length b)%nat →
  ∃ r' x, bitset_diff r a b = Some r'
    ∧ bitset_implies a b = Some x
    ∧ bitset_empty r' = Some x.
Proof.
  intros Ha Hr Hb.
  destruct (out2_lanes (λ x y, Z.land x (not64 y)) r a b Ha Hr Hb)
    as (r' & Hres & Hsz & Hh & Hl).
  destruct (bitset_implies_spec a b Ha Hb) as (x & Hx & Hxi).
  destruct (bitset_empty_spec r' Hh) as (y & Hy & Hyi).
  exists r', x. split; [exact Hres|]. split; [done|].
  rewrite Hy. f_equal. apply bool_eq_iff. rewrite Hxi, Hyi, Hsz. split.
  - intros H i ai bi Hi Hai Hbi.
    destruct (Hl i Hi) as (ai' & bi' & Hai' & Hbi' & Hr').
    rewrite (H i Hi) in Hr'. congruence.
  - intros H i Hi. destruct (Hl i Hi) as (ai & bi & Hai & Hbi & ->).
    f_equal. eauto.
Qed.

Lemma bitset_implies_is_empty_diff_witness :
  ∃ r' x, bitset_diff [0; 9; 9] [2; 4; 2] [2; 12; 10] = Some r'
    ∧ bitset_implies [2; 4; 2] [2; 12; 10] = Some x
    ∧ bitset_empty r' = Some x.
Proof.
  apply (bitset_implies_is_empty_diff [0; 9; 9] [2; 4; 2] [2; 12; 10]).
  - unfold holds. vm_compute. lia.
  - vm_compute. lia.
  - vm_compute. lia.
Defined.

(** X9: [bitset_disjoint(a, b)] is the emptiness of the intersection: it
    returns what [bitset_empty] returns on the result of
    [bitset_and(r, a, b)]; and for operands of equal declared size it is
    symmetric. *)
Theorem bitset_disjoint_is_empty_and (r a b : bitset) :
  holds a → (size_of a < length r)%nat → (size_of a < length b)%nat →
  (∃ r' x, bitset_and r a b = Some r'
     ∧ bitset_disjoint a b = Some x
     ∧ bitset_empty r' = Some x)
  ∧ (holds b → size_of b = size_of a →
     bitset_disjoint b a = bitset_disjoint a b).
Proof.
  intros Ha Hr Hb.
  destruct (bitset_disjoint_spec a b Ha Hb) as (x & Hx & Hxi). split.
  - destruct (out2_lanes Z.land r a b Ha Hr Hb) as (r' & Hres & Hsz & Hh & Hl).
    destruct (bitset_empty_spec r' Hh) as (y & Hy & Hyi).
    exists r', x. split; [exact Hres|]. split; [done|].
    rewrite Hy. f_equal. apply bool_eq_iff. rewrite Hxi, Hyi, Hsz. split.
    + intros H i ai bi Hi Hai Hbi.
      destruct (Hl i Hi) as (ai' & bi' & Hai' & Hbi' & Hr').
      rewrite (H i Hi) in Hr'. congruence.
    + intros H i Hi. destruct (Hl i Hi) as (ai & bi & Hai & Hbi & ->).
      f_equal. eauto.
  - intros Hhb Hsz.
    destruct (bitset_disjoint_spec b a) as (y & Hy & Hyi);
      [done|unfold holds in Ha; lia|].
    rewrite Hx, Hy. f_equal. apply bool_eq_iff. rewrite Hxi, Hyi, Hsz.
    split; intros H i u v Hi Hu Hv; rewrite Z.land_comm; eauto.
Qed.

Lemma bitset_disjoint_is_empty_and_witness :
  ∃ r' x, bitset_and [0; 9; 9] [2; 4; 2] [2; 8; 1] = Some r'
    ∧ bitset_disjoint [2; 4; 2] [2; 8; 1] = Some x
    ∧ bitset_empty r' = Some x.
Proof.
  refine (proj1 (bitset_disjoint_is_empty_and [0; 9; 9] [2; 4; 2] [2; 8; 1]
                   _ _ _)).
  - unfold holds. vm_compute. lia.
  - vm_compute. lia.
  - vm_compute. lia.
Defined.

(** X10: [bitset_and(r, a, a)] and [bitset_or(r, a, a)] leave in [r] the size
    and the payload of [a]: [bitset_equal] of the result and [a] is true. *)
Theorem bitset_and_or_idempotent (r a : bitset) :
  holds a → (size_of a < length r)%nat →
  (∃ r', bitset_and r a a = Some r'
     ∧ bitset_get_size r' = bitset_get_size a
     ∧ (∀ i, (1 ≤ i ≤ size_of a)%nat → r' !! i = a !! i)
     ∧ bitset_equal r' a = Some true)
  ∧ (∃ r', bitset_or r a a = Some r'
       ∧ bitset_get_size r' = bitset_get_size a
       ∧ (∀ i, (1 ≤ i ≤ size_of a)%nat → r' !! i = a !! i)
       ∧ bitset_equal r' a = Some true).
Proof.
  intros Ha Hr.
  assert (∀ g : Z → Z → Z, (∀ x, g x x = x) →
    ∃ r', ('(r, n) ← BITSET_COPY_FIELD_size r a;
           for_down (Z.to_nat n)
             (λ i r, ai ← load a i; bi ← load a i; store r i (g ai bi)) r)
          = Some r'
      ∧ bitset_get_size r' = bitset_get_size a
      ∧ (∀ i, (1 ≤ i ≤ size_of a)%nat → r' !! i = a !! i)
      ∧ bitset_equal r' a = Some true) as H.
  { intros g Hg.
    destruct (out2_lanes g r a a Ha Hr) as (r' & Hres & Hsz & Hh & Hl);
      [unfold holds in Ha; lia|].
    assert (∀ i, (1 ≤ i ≤ size_of a)%nat → r' !! i = a !! i) as Hsame.
    { intros i Hi. destruct (Hl i Hi) as (ai & bi & Hai & Hbi & ->).
      rewrite Hai in Hbi. injection Hbi as <-. by rewrite Hg. }
    exists r'. split; [exact Hres|]. split; [|split; [done|]].
    - destruct (holds_header r' Hh) as (h' & Hh' & Hs').
      destruct (holds_header a Ha) as (ha & Hha & Hsa).
      rewrite (get_size_of _ _ Hh'), (get_size_of _ _ Hha). f_equal.
      pose proof (hdr_size_idem h') as E1. pose proof (hdr_size_idem ha) as E2.
      pose proof (Z.mod_pos_bound (hdr_size h') (2 ^ 32) ltac:(lia)).
      pose proof (Z.mod_pos_bound (hdr_size ha) (2 ^ 32) ltac:(lia)). lia.
    - destruct (bitset_equal_spec r' a Hh) as (z & Hz & Hzi);
        [unfold holds in Ha; lia|].
      rewrite Hz. f_equal. apply Hzi. intros i Hi. apply Hsame. lia. }
  split; [apply (H Z.land), Z.land_diag|apply (H Z.lor), Z.lor_diag].
Qed.

Lemma bitset_and_or_idempotent_witness :
  ∃ r', bitset_and [0; 9; 9] [2; 4; 2] [2; 4; 2] = Some r'
        ∧ bitset_equal r' [2; 4; 2] = Some true.
Proof.
  destruct (bitset_and_or_idempotent [0; 9; 9] [2; 4; 2])
    as [(r' & Hr & _ & _ & He) _].
  - unfold holds. vm_compute. lia.
  - vm_compute. lia.
  - exists r'. split; [exact Hr|exact He].
Defined.

Lemma out3_lanes (g : Z → Z → Z → Z) (r a b c : bitset) :
  holds a → (size_of a < length r)%nat → (size_of a < length b)%nat →
  (size_of a < length c)%nat →
  ∃ r', ('(r, n) ← BITSET_COPY_FIELD_size r a;
         for_down (Z.to_nat n)
           (λ i r, ai ← load a i; bi ← load b i; ci ← load c i;
                   store r i (g ai bi ci)) r)
        = Some r'
    ∧ size_of r' = size_of a ∧ holds r'
    ∧ ∀ i, (1 ≤ i ≤ size_of a)%nat →
        ∃ ai bi ci, a !! i = Some ai ∧ b !! i = Some bi ∧ c !! i = Some ci
                    ∧ r' !! i = Some (g ai bi ci).
Proof.
  intros Ha Hr Hb Hc.
  assert (∀ i, (1 ≤ i ≤ size_of a)%nat →
            ∃ ai bi ci, a !! i = Some ai ∧ b !! i = Some bi ∧ c !! i = Some ci)
    as Hlk.
  { intros i Hi. destruct (two_lanes a b (size_of a) i) as (ai & bi & ? & ?);
      [unfold holds in Ha; lia|lia|lia|].
    destruct (lookup_lt_ex c i) as [ci ?]; [lia|]. by exists ai, bi, ci. }
  edestruct (out_result_holds r a) as (r' & Hres & Hsz & Hh & Hl);
    [done|done|
     apply (out_pass (λ i, ai ← a !! i; bi ← b !! i; ci ← c !! i;
                           Some (g ai bi ci)))|].
  - done.
  - done.
  - intros i Hi. destruct (Hlk i Hi) as (ai & bi & ci & -> & -> & ->).
    by eexists.
  - intros i s. apply (body_out3 g).
  - exists r'. split; [exact Hres|]. split; [done|]. split; [done|].
    intros i Hi. destruct (Hl i Hi) as (y & Hy & Hy').
    destruct (Hlk i Hi) as (ai & bi & ci & Hai & Hbi & Hci).
    rewrite Hai, Hbi, Hci in Hy. injection Hy as <-. by exists ai, bi, ci.
Qed.

Lemma in2_alt_pass_result (g : Z → Z → Z) (a b : bitset) :
  holds a → (size_of a < length b)%nat →
  pass_result (size_of a) (λ i bi, ai ← a !! i; Some (g ai bi)) b
    (n ← BITSET_FIELD_size a;
     for_down (Z.to_nat n)
       (λ i b, ai ← load a i; bi ← load b i; store b i (g ai bi)) b).
Proof.
  intros Ha Hb. destruct (holds_field_size a Ha) as (n & Hn & Hsz & _).
  rewrite Hn. cbn [mbind option_bind]. rewrite Hsz.
  erewrite for_down_ext; [|intros i s _; apply (body_in2_alt g)].
  apply for_down_pass_result. intros i Hi.
  destruct (two_lanes a b (size_of a) i) as (ai & bi & Hai & Hbi);
    [unfold holds in Ha; lia|lia|lia|].
  exists bi, (g ai bi). by rewrite Hai.
Qed.

(** X11: the three difference operations compute the same payload:
    [bitset_diff(r, a, b)] in [r], [bitset_diff_inplace(a, b)] in [a] and
    [bitset_diff_inplace_alt(a, b)] in [b] agree on lanes [1..size(a)], each
    being [a & ~b].  The in-place forms leave the header of the operand they
    mutate untouched. *)
Theorem bitset_diff_variants_agree (r a b : bitset) :
  holds a → (size_of a < length r)%nat → (size_of a < length b)%nat →
  ∃ r' a' b',
    bitset_diff r a b = Some r'
    ∧ bitset_diff_inplace a b = Some a'
    ∧ bitset_diff_inplace_alt a b = Some b'
    ∧ a' !! 0%nat = a !! 0%nat
    ∧ b' !! 0%nat = b !! 0%nat
    ∧ ∀ i, (1 ≤ i ≤ size_of a)%nat →
        ∃ ai bi, a !! i = Some ai ∧ b !! i = Some bi
          ∧ r' !! i = Some (Z.land ai (not64 bi))
          ∧ a' !! i = Some (Z.land ai (not64 bi))
          ∧ b' !! i = Some (Z.land ai (not64 bi)).
Proof.
  intros Ha Hr Hb.
  destruct (out2_lanes (λ x y, Z.land x (not64 y)) r a b Ha Hr Hb)
    as (r' & Hres & _ & _ & Hl).
  destruct (in2_pass_result (λ x y, Z.land x (not64 y)) a b Ha Hb)
    as (a' & Ha' & _ & Hfa & Hla).
  destruct (in2_alt_pass_result (λ x y, Z.land x (not64 y)) a b Ha Hb)
    as (b' & Hb' & _ & Hfb & Hlb).
  exists r', a', b'. split; [exact Hres|]. split; [exact Ha'|].
  split; [exact Hb'|]. split; [apply Hfa; lia|]. split; [apply Hfb; lia|].
  intros i Hi. destruct (Hl i Hi) as (ai & bi & Hai & Hbi & Hri).
  exists ai, bi. split; [done|]. split; [done|]. split; [done|]. split.
  - destruct (Hla i Hi) as (x & y & Hx & Hy & Hy').
    rewrite Hai in Hx. injection Hx as <-. rewrite Hbi in Hy.
    by injection Hy as <-.
  - destruct (Hlb i Hi) as (x & y & Hx & Hy & Hy').
    rewrite Hbi in Hx. injection Hx as <-. rewrite Hai in Hy.
    by injection Hy as <-.
Qed.

Lemma bitset_diff_variants_agree_witness :
  ∃ r' a' b',
    bitset_diff [0; 9; 9] [2; 12; 10] [2; 10; 3] = Some r'
    ∧ bitset_diff_inplace [2; 12; 10] [2; 10; 3] = Some a'
    ∧ bitset_diff_inplace_alt [2; 12; 10] [2; 10; 3] = Some b'.
Proof.
  destruct (bitset_diff_variants_agree [0; 9; 9] [2; 12; 10] [2; 10; 3])
    as (r' & a' & b' & H1 & H2 & H3 & _).
  - unfold holds. vm_compute. lia.
  - vm_compute. lia.
  - vm_compute. lia.
  - exists r', a', b'. split; [exact H1|]. split; [exact H2|exact H3].
Defined.

(** X12: [bitset_symmetric_diff_union(r, a, b, c)] computes the payload that
    [bitset_or] computes from [a] and the result of [bitset_diff] on [b] and
    [c], for operands of equal declared size. *)
Theorem bitset_sdu_is_or_of_diff (r r1 r2 a b c : bitset) :
  holds a → holds b → size_of b = size_of a →
  (size_of a < length r)%nat → (size_of a < length r1)%nat →
  (size_of a < length r2)%nat → (size_of a < length c)%nat →
  ∃ d u v,
    bitset_diff r1 b c = Some d
    ∧ bitset_or r2 a d = Some u
    ∧ bitset_symmetric_diff_union r a b c = Some v
    ∧ bitset_get_size v = bitset_get_size u
    ∧ ∀ i, (1 ≤ i ≤ size_of a)%nat → v !! i = u !! i.
Proof.
  intros Ha Hb Hsz Hr Hr1 Hr2 Hc.
  destruct (out2_lanes (λ x y, Z.land x (not64 y)) r1 b c)
    as (d & Hd & Hds & Hdh & Hdl); [done|lia|lia|].
  destruct (out2_lanes Z.lor r2 a d) as (u & Hu & Hus & Huh & Hul);
    [done|done|unfold holds in Hdh; lia|].
  destruct (out3_lanes (λ x y z, Z.lor x (Z.land y (not64 z))) r a b c)
    as (v & Hv & Hvs & Hvh & Hvl); [done|done|unfold holds in Hb; lia|done|].
  exists d, u, v. split; [exact Hd|]. split; [exact Hu|]. split; [exact Hv|].
  split.
  - destruct (holds_header u Huh) as (hu & Hhu & Hsu).
    destruct (holds_header v Hvh) as (hv & Hhv & Hsv).
    rewrite (get_size_of _ _ Hhu), (get_size_of _ _ Hhv). f_equal.
    pose proof (hdr_size_idem hu). pose proof (hdr_size_idem hv).
    pose proof (Z.mod_pos_bound (hdr_size hu) (2 ^ 32) ltac:(lia)).
    pose proof (Z.mod_pos_bound (hdr_size hv) (2 ^ 32) ltac:(lia)). lia.
  - intros i Hi.
    destruct (Hvl i Hi) as (ai & bi & ci & Hai & Hbi & Hci & ->).
    destruct (Hul i Hi) as (ai' & di & Hai' & Hdi & ->).
    destruct (Hdl i ltac:(lia)) as (bi' & ci' & Hbi' & Hci' & Hdi').
    congruence.
Qed.

Lemma bitset_sdu_is_or_of_diff_witness :
  ∃ d u v,
    bitset_diff [0; 0; 0] [2; 10; 3] [2; 6; 1] = Some d
    ∧ bitset_or [0; 0; 0] [2; 12; 10] d = Some u
    ∧ bitset_symmetric_diff_union [0; 0; 0] [2; 12; 10] [2; 10; 3] [2; 6; 1]
      = Some v
    ∧ bitset_get_size v = bitset_get_size u.
Proof.
  destruct (bitset_sdu_is_or_of_diff [0; 0; 0] [0; 0; 0] [0; 0; 0]
              [2; 12; 10] [2; 10; 3] [2; 6; 1])
    as (d & u & v & H1 & H2 & H3 & H4 & _).
  - unfold holds. vm_compute. lia.
  - unfold holds. vm_compute. lia.
  - reflexivity.
  - vm_compute. lia.
  - vm_compute. lia.
  - vm_compute. lia.
  - vm_compute. lia.
  - exists d, u, v. split; [exact H1|]. split; [exact H2|].
    split; [exact H3|exact H4].
Defined.

(** X13: for [r] and [a] of equal declared size, [bitset_xand(r, a, a)]
    empties [r]: the symmetric difference of [a] with itself has no element. *)
Theorem bitset_xand_self_empties (r a : bitset) :
  holds a → holds r → size_of r = size_of a →
  ∃ r', bitset_xand r a a = Some r'
    ∧ r' !! 0%nat = r !! 0%nat
    ∧ bitset_empty r' = Some true.
Proof.
  intros Ha Hr Hsz.
  destruct (bitset_xand_pass r a a) as (r' & Hres & Hlen & Hframe & Hlanes);
    [done|unfold holds in Hr; lia|unfold holds in Ha; lia|].
  assert (r' !! 0%nat = r !! 0%nat) as H0 by (apply Hframe; lia).
  exists r'. split; [exact Hres|]. split; [done|].
  assert (size_of r' = size_of r) as Hs' by (unfold size_of; by rewrite H0).
  destruct (bitset_empty_spec r') as (y & Hy & Hyi);
    [unfold holds in *; lia|].
  rewrite Hy. f_equal. apply Hyi. intros i Hi.
  destruct (Hlanes i ltac:(lia)) as (x & y' & Hx & Hy' & ->).
  destruct (a !! i) as [ai|]; [|done]. cbn [mbind option_bind] in Hy'.
  injection Hy' as <-. by rewrite Z.lxor_nilpotent, Z.land_0_r.
Qed.

Lemma bitset_xand_self_empties_witness :
  ∃ r', bitset_xand [2; 7; 7] [2; 12; 10] [2; 12; 10] = Some r'
        ∧ bitset_empty r' = Some true.
Proof.
  destruct (bitset_xand_self_empties [2; 7; 7] [2; 12; 10])
    as (r' & Hr & _ & He).
  - unfold holds. vm_compute. lia.
  - unfold holds. vm_compute. lia.
  - reflexivity.
  - exists r'. split; [exact Hr|exact He].
Defined.

(** * Counting *)

Lemma word64_of_bits x :
  0 <= x → (∀ k, 64 <= k → Z.testbit x k = false) → word64 x.
Proof.
  intros Hx Hhigh. assert (x = x mod 2 ^ 64) as ->.
  { apply Z.bits_inj'. intros k Hk. rewrite Z.testbit_mod_pow2 by lia.
    destruct (Z.ltb_spec k 64); [done|]. by rewrite Hhigh. }
  apply Z.mod_pos_bound. lia.
Qed.

Lemma word64_land x y : word64 x → word64 (Z.land x y).
Proof.
  intros Hx. apply word64_of_bits.
  - apply Z.land_nonneg. left. apply Hx.
  - intros k Hk. by rewrite Z.land_spec, (word64_high x).
Qed.

Lemma popcountll_zero x : word64 x → (popcountll x = 0 ↔ x = 0).
Proof.
  intros Hx. split; [|by intros ->].
  unfold popcountll. intros H.
  assert (filter (λ k : nat, Z.testbit x (Z.of_nat k) = true) (seq 0 64) = [])
    as Hnil by (apply length_zero_iff_nil; lia).
  apply Z.bits_inj'. intros k Hk. rewrite Z.bits_0.
  destruct (Z.lt_ge_cases k 64); [|by apply word64_high].
  destruct (Z.testbit x k) eqn:E; [|done]. exfalso.
  apply (filter_nil_not_elem_of _ _ (Z.to_nat k) Hnil).
  - by rewrite Z2Nat.id.
  - apply elem_of_seq. lia.
Qed.

Lemma sum_down_bounded (term : nat → option Z) n acc :
  (∀ i, (1 ≤ i ≤ n)%nat → ∃ t, term i = Some t ∧ 0 <= t <= 64) →
  0 <= acc → acc + 64 * Z.of_nat n < 2 ^ 64 →
  ∃ v, sum_down n term acc = Some v
    ∧ acc <= v <= acc + 64 * Z.of_nat n
    ∧ (v = acc ↔ ∀ i, (1 ≤ i ≤ n)%nat → term i = Some 0).
Proof.
  revert acc. induction n as [|n IH]; intros acc Ht Hacc Hb.
  - exists acc. split; [done|]. split; [lia|]. split; [intros; lia|done].
  - destruct (Ht (S n)) as (t & Hts & Htr); [lia|].
    rewrite sum_down_S, Hts. cbn [mbind option_bind].
    assert (sz_add acc t = acc + t) as ->
      by (unfold sz_add; apply Z.mod_small; lia).
    destruct (IH (acc + t)) as (v & Hv & Hvr & Hiff);
      [intros; apply Ht; lia|lia|lia|].
    exists v. split; [done|]. split; [lia|]. split.
    + intros ->. assert (t = 0) as -> by lia.
      intros i Hi. destruct (decide (i = S n)) as [->|]; [done|].
      apply Hiff; [lia|lia].
    + intros H0. rewrite (H0 (S n)) in Hts by lia. injection Hts as <-.
      rewrite Z.add_0_r in Hiff. apply Hiff. intros; apply H0; lia.
Qed.

Lemma size_sum_bound (a : bitset) :
  holds a → 0 + 64 * Z.of_nat (size_of a) < 2 ^ 64.
Proof.
  intros Ha. destruct (holds_field_size a Ha) as (n & _ & Hsz & Hr).
  change (2 ^ 32) with 4294967296 in Hr.
  change (2 ^ 64) with 18446744073709551616. lia.
Qed.

Lemma bitset_ord_spec (a : bitset) :
  holds a →
  ∃ v, bitset_ord a = Some v
    ∧ 0 <= v <= 64 * Z.of_nat (size_of a)
    ∧ (v = 0 ↔ ∀ i x, (1 ≤ i ≤ size_of a)%nat → a !! i = Some x →
                 popcountll x = 0).
Proof.
  intros Ha. destruct (holds_field_size a Ha) as (n & Hn & Hsz & _).
  unfold bitset_ord. rewrite Hn. cbn [mbind option_bind]. rewrite Hsz.
  destruct (sum_down_bounded (λ i, x ← load a i; Some (popcountll x))
              (size_of a) 0) as (v & Hv & Hvr & Hiff).
  - intros i Hi. unfold load.
    destruct (lookup_lt_ex a i) as [x ->]; [unfold holds in Ha; lia|].
    eexists. split; [done|]. apply popcountll_range.
  - lia.
  - by apply size_sum_bound.
  - exists v. split; [done|]. split; [lia|]. rewrite Hiff. unfold load. split.
    + intros H i x Hi Hx. specialize (H i Hi). rewrite Hx in H. by injection H.
    + intros H i Hi.
      destruct (lookup_lt_ex a i) as [x Hx]; [unfold holds in Ha; lia|].
      rewrite Hx. cbn [mbind option_bind]. f_equal. eauto.
Qed.

Lemma bitset_dist_spec (a b : bitset) :
  holds a → (size_of a < length b)%nat →
  ∃ v, bitset_dist a b = Some v
    ∧ 0 <= v <= 64 * Z.of_nat (size_of a)
    ∧ (v = 0 ↔ ∀ i ai bi, (1 ≤ i ≤ size_of a)%nat →
                 a !! i = Some ai → b !! i = Some bi →
                 popcountll (Z.land ai bi) = 0).
Proof.
  intros Ha Hb. destruct (holds_field_size a Ha) as (n & Hn & Hsz & _).
  unfold bitset_dist. rewrite Hn. cbn [mbind option_bind]. rewrite Hsz.
  destruct (sum_down_bounded
              (λ i, ai ← load a i; bi ← load b i; Some (popcountll (Z.land ai bi)))
              (size_of a) 0) as (v & Hv & Hvr & Hiff).
  - intros i Hi. unfold load.
    destruct (two_lanes a b (size_of a) i) as (ai & bi & -> & ->);
      [unfold holds in Ha; lia|lia|lia|].
    eexists. split; [done|]. apply popcountll_range.
  - lia.
  - by apply size_sum_bound.
  - exists v. split; [done|]. split; [lia|]. rewrite Hiff. unfold load. split.
    + intros H i ai bi Hi Hai Hbi. specialize (H i Hi).
      rewrite Hai, Hbi in H. by injection H.
    + intros H i Hi.
      destruct (two_lanes a b (size_of a) i) as (ai & bi & Hai & Hbi);
        [unfold holds in Ha; lia|lia|lia|].
      rewrite Hai, Hbi. cbn [mbind option_bind]. f_equal. eauto.
Qed.

(** X14: over 64-bit lanes, [bitset_disjoint(a, b)] is true exactly when
    [bitset_dist(a, b)] is 0; the distance never exceeds 64 times the size. *)
Theorem bitset_disjoint_iff_dist_zero (a b : bitset) :
  holds a → (size_of a < length b)%nat → Forall word64 a →
  ∃ x v, bitset_disjoint a b = Some x
    ∧ bitset_dist a b = Some v
    ∧ 0 <= v <= 64 * Z.of_nat (size_of a)
    ∧ (x = true ↔ v = 0).
Proof.
  intros Ha Hb Wa.
  destruct (bitset_disjoint_spec a b Ha Hb) as (x & Hx & Hxi).
  destruct (bitset_dist_spec a b Ha Hb) as (v & Hv & Hvr & Hvi).
  exists x, v. split; [done|]. split; [done|]. split; [done|].
  rewrite Hxi, Hvi.
  split; intros H i ai bi Hi Hai Hbi;
    apply popcountll_zero || apply <- popcountll_zero;
    eauto using word64_land, lane_word64.
Qed.

Lemma bitset_disjoint_iff_dist_zero_witness :
  ∃ x v, bitset_disjoint [2; 12; 10] [2; 3; 5] = Some x
    ∧ bitset_dist [2; 12; 10] [2; 3; 5] = Some v
    ∧ (x = true ↔ v = 0).
Proof.
  destruct (bitset_disjoint_iff_dist_zero [2; 12; 10] [2; 3; 5])
    as (x & v & Hx & Hv & _ & Hiff).
  - unfold holds. vm_compute. lia.
  - vm_compute. lia.
  - repeat constructor; unfold word64; lia.
  - exists x, v. split; [exact Hx|]. split; [exact Hv|exact Hiff].
Defined.

(** X15: over 64-bit lanes, [bitset_empty(a)] is true exactly when
    [bitset_ord(a)] is 0; the cardinality never exceeds 64 times the size. *)
Theorem bitset_empty_iff_ord_zero (a : bitset) :
  holds a → Forall word64 a →
  ∃ x v, bitset_empty a = Some x
    ∧ bitset_ord a = Some v
    ∧ 0 <= v <= 64 * Z.of_nat (size_of a)
    ∧ (x = true ↔ v = 0).
Proof.
  intros Ha Wa.
  destruct (bitset_empty_spec a Ha) as (x & Hx & Hxi).
  destruct (bitset_ord_spec a Ha) as (v & Hv & Hvr & Hvi).
  exists x, v. split; [done|]. split; [done|]. split; [done|].
  rewrite Hxi, Hvi. split.
  - intros H i y Hi Hy. rewrite (H i Hi) in Hy. by injection Hy as <-.
  - intros H i Hi.
    destruct (lookup_lt_ex a i) as [y Hy]; [unfold holds in Ha; lia|].
    rewrite Hy. f_equal. apply popcountll_zero; eauto using lane_word64.
Qed.

Lemma bitset_empty_iff_ord_zero_witness :
  ∃ x v, bitset_empty [2; 0; 0] = Some x ∧ bitset_ord [2; 0; 0] = Some v
    ∧ (x = true ↔ v = 0).
Proof.
  destruct (bitset_empty_iff_ord_zero [2; 0; 0]) as (x & v & Hx & Hv & _ & Hiff).
  - unfold holds. vm_compute. lia.
  - repeat constructor; unfold word64; lia.
  - exists x, v. split; [exact Hx|]. split; [exact Hv|exact Hiff].
Defined.

(** * Emptying and copying *)

Lemma zero_payload_empty (s : bitset) :
  holds s → (∀ i, (1 ≤ i ≤ size_of s)%nat → s !! i = Some 0) →
  bitset_empty s = Some true ∧ bitset_ord s = Some 0.
Proof.
  intros Hs Hz. split.
  - destruct (bitset_empty_spec s Hs) as (x & Hx & Hxi).
    rewrite Hx. f_equal. by apply Hxi.
  - destruct (bitset_ord_spec s Hs) as (v & Hv & _ & Hvi).
    rewrite Hv. f_equal. apply Hvi. intros i x Hi Hx.
    rewrite (Hz i Hi) in Hx. by injection Hx as <-.
Qed.

(** X16: [bitset_reset(set)] keeps the declared size and leaves the empty
    set: afterwards [bitset_empty] is true, [bitset_ord] is 0 and
    [bitset_get] is false for every element the size covers; lanes above the
    declared size are untouched. *)
Theorem bitset_reset_empties (set : bitset) :
  holds set →
  ∃ set', bitset_reset set = Some set'
    ∧ length set' = length set
    ∧ bitset_get_size set' = bitset_get_size set
    ∧ bitset_empty set' = Some true
    ∧ bitset_ord set' = Some 0
    ∧ (∀ e, 0 <= e < 64 * Z.of_nat (size_of set) →
         bitset_get set' e = Some false)
    ∧ (∀ i, (size_of set < i)%nat → set' !! i = set !! i).
Proof.
  intros Hs.
  destruct (bitset_reset_header set Hs)
    as (set' & n & Hn & Hr & H0 & Hlen & Hz & Habove).
  destruct (holds_field_size set Hs) as (n' & Hn' & Hsz & Hrange).
  rewrite Hn in Hn'. injection Hn' as <-.
  assert (bitset_get_size set' = Some n) as Hsize.
  { rewrite (get_size_of _ _ H0), hdr_size_with_size. f_equal.
    by apply Z.mod_small. }
  assert (size_of set' = size_of set) as Hs'
    by (rewrite (get_size_size_of _ _ Hsize); done).
  assert (holds set') as Hh by (unfold holds in *; lia).
  destruct (zero_payload_empty set' Hh) as [He Ho];
    [intros i Hi; apply Hz; lia|].
  exists set'. split; [done|]. split; [done|].
  split; [by rewrite Hsize|]. split; [done|]. split; [done|]. split; [|done].
  intros e He'.
  assert (0 <= e < 2 ^ 64) as He64.
  { change (2 ^ 32) with 4294967296 in Hrange.
    change (2 ^ 64) with 18446744073709551616. lia. }
  rewrite (bitset_get_Some set' e 0); [by rewrite Z.bits_0|].
  apply Hz. rewrite ELEM_WORD_eq by done. Z.div_mod_to_equations. lia.
Qed.

Lemma bitset_reset_empties_witness :
  ∃ set', bitset_reset [0x0005000100000002; 7; 1; 9] = Some set'
    ∧ bitset_empty set' = Some true
    ∧ bitset_ord set' = Some 0.
Proof.
  destruct (bitset_reset_empties [0x0005000100000002; 7; 1; 9])
    as (set' & Hr & _ & _ & He & Ho & _).
  - unfold holds. vm_compute. lia.
  - exists set'. split; [exact Hr|]. split; [exact He|exact Ho].
Defined.

(** X17: [bitset_null(set, elements)] on storage of at least
    [REQ_SZ(elements)] lanes yields the empty set, whatever the storage held;
    on storage of exactly that many lanes it yields what
    [bitset_new(elements)] returns. *)
Theorem bitset_null_is_new (set : bitset) e :
  0 <= e < 2 ^ 64 →
  REQ_SZ e <= Z.of_nat (length set) →
  ∃ set', bitset_null set e = Some set'
    ∧ length set' = length set
    ∧ bitset_empty set' = Some true
    ∧ bitset_ord set' = Some 0
    ∧ (Z.of_nat (length set) = REQ_SZ e →
       ∀ hp, REQ_SZ e <= avail hp → bitset_new hp e = Some set').
Proof.
  intros He Hlen. pose proof (REQ_SZ_range e He) as Hreq.
  destruct (bitset_null_header set e He Hlen) as (set' & Hn & H0 & Hl & Hz).
  assert (size_of set' = Z.to_nat ((REQ_SZ e - 1) mod 2 ^ 32)) as Hs'.
  { apply get_size_size_of. rewrite (get_size_of _ _ H0).
    by rewrite hdr_size_with_size. }
  assert (size_of set' < Z.to_nat (REQ_SZ e))%nat as Hlt.
  { rewrite Hs'. change (2 ^ 32) with 4294967296.
    Z.div_mod_to_equations. lia. }
  assert (holds set') as Hh by (unfold holds; lia).
  destruct (zero_payload_empty set' Hh) as [Hem Ho];
    [intros i Hi; apply Hz; lia|].
  exists set'. split; [done|]. split; [done|]. split; [done|].
  split; [done|]. intros Hexact hp Hav.
  rewrite bitset_new_Some by done. f_equal. apply list_eq. intros i.
  destruct (decide (i = 0%nat)) as [->|Hi0].
  - rewrite H0. apply list_lookup_insert_eq. rewrite length_replicate. lia.
  - rewrite list_lookup_insert_ne by done.
    destruct (decide (i < Z.to_nat (REQ_SZ e))%nat).
    + rewrite Hz by lia. apply lookup_replicate. done.
    + rewrite (lookup_ge_None_2 set') by lia.
      apply lookup_ge_None_2. rewrite length_replicate. lia.
Qed.

Lemma bitset_null_is_new_witness :
  ∃ set', bitset_null [0x0005000100000002; 7; 1] 100 = Some set'
    ∧ bitset_empty set' = Some true
    ∧ bitset_new {| avail := 3; junk := λ _, 0 |} 100 = Some set'.
Proof.
  destruct (bitset_null_is_new [0x0005000100000002; 7; 1] 100)
    as (set' & Hn & _ & He & _ & Hnew).
  - lia.
  - vm_compute. discriminate.
  - exists set'. split; [exact Hn|]. split; [exact He|].
    apply Hnew; vm_compute; [reflexivity|discriminate].
Defined.

(** X18: [bitset_copy(dst, src)] into storage that holds [size(src)] payload
    lanes transfers the whole header lane (size, flags, tag) and the payload
    lanes [1..size(src)]; the lanes of [dst] above are untouched and
    [bitset_equal] of the result and [src] is true. *)
Theorem bitset_copy_transfers (dst src : bitset) :
  holds src → (size_of src < length dst)%nat →
  ∃ dst', bitset_copy dst src = Some dst'
    ∧ length dst' = length dst
    ∧ (∀ i, (i ≤ size_of src)%nat → dst' !! i = src !! i)
    ∧ (∀ i, (size_of src < i)%nat → dst' !! i = dst !! i)
    ∧ bitset_get_tag dst' = bitset_get_tag src
    ∧ (∀ flag, bitset_get_flag dst' flag = bitset_get_flag src flag)
    ∧ bitset_equal dst' src = Some true
    ∧ bitset_ord dst' = bitset_ord src.
Proof.
  intros Hs Hd.
  destruct (bitset_copy_spec dst src Hs Hd)
    as (dst' & Hc & Hlen & Hin & Hout & Hsz & Htag & Hfl).
  exists dst'. split; [done|]. split; [done|]. split; [done|].
  split; [done|]. split; [done|]. split; [done|].
  assert (size_of dst' = size_of src) as Hs'
    by (unfold size_of; by rewrite Hin by lia).
  assert (holds dst') as Hh by (unfold holds in *; lia).
  split.
  - destruct (bitset_equal_spec dst' src Hh) as (z & Hz & Hzi);
      [unfold holds in Hs; lia|].
    rewrite Hz. f_equal. apply Hzi. intros i Hi. apply Hin. lia.
  - unfold bitset_ord. unfold bitset_get_size in Hsz. rewrite Hsz.
    destruct (holds_field_size src Hs) as (n & -> & Hn & _).
    cbn [mbind option_bind]. rewrite Hn. apply sum_down_ext.
    intros i Hi. unfold load. by rewrite Hin by lia.
Qed.

Lemma bitset_copy_transfers_witness :
  ∃ dst', bitset_copy [0; 9; 9; 9] [0x0005000100000002; 7; 1] = Some dst'
    ∧ bitset_equal dst' [0x0005000100000002; 7; 1] = Some true.
Proof.
  destruct (bitset_copy_transfers [0; 9; 9; 9] [0x0005000100000002; 7; 1])
    as (dst' & Hc & _ & _ & _ & _ & _ & He & _).
  - unfold holds. vm_compute. lia.
  - vm_compute. lia.
  - exists dst'. split; [exact Hc|exact He].
Defined.

(** X19: for a bitset whose size is below [0xFFFFFFFF] and an allocator that
    can supply [size + 1] lanes, [bitset_dupl] returns exactly the header and
    the [size] payload lanes of its argument, whatever the fresh memory held;
    the duplicate is [bitset_equal] to the original, and copying the original
    back into it changes nothing.  When the allocator cannot supply the
    lanes, the call does not return. *)
Theorem bitset_dupl_duplicates hp (a : bitset) :
  holds a →
  Z.of_nat (size_of a) + 1 < 2 ^ 32 →
  (Z.of_nat (size_of a) + 1 <= avail hp →
   ∃ d, bitset_dupl hp a = Some d
     ∧ d = take (S (size_of a)) a
     ∧ (length a = S (size_of a) → d = a)
     ∧ bitset_equal d a = Some true
     ∧ bitset_copy d a = Some d)
  ∧ (avail hp < Z.of_nat (size_of a) + 1 → bitset_dupl hp a = None).
Proof.
  intros Hs Hmax. split.
  - intros Hav.
    destruct (bitset_copy_dupl hp a Hs Hmax Hav)
      as (d & r & Hd & Hc & Hr & Hin & He).
    rewrite (bitset_dupl_spec hp a Hs Hmax Hav) in Hd. injection Hd as <-.
    subst r. eexists. split; [by apply bitset_dupl_spec|].
    split; [done|]. split; [|done].
    intros Hlen. apply take_ge. lia.
  - intros Hav. destruct (holds_field_size a Hs) as (n & Hn & Hsz & Hr).
    unfold bitset_dupl. rewrite Hn. cbn [mbind option_bind]. cbv zeta.
    rewrite (Z.mod_small (n + 1)) by lia.
    unfold xmalloc. by rewrite decide_False by lia.
Qed.

Lemma bitset_dupl_duplicates_witness :
  ∃ d, bitset_dupl {| avail := 8; junk := λ _, 77 |}
         [0x0005000100000002; 7; 1] = Some d
       ∧ d = [0x0005000100000002; 7; 1].
Proof.
  destruct (bitset_dupl_duplicates {| avail := 8; junk := λ _, 77 |}
              [0x0005000100000002; 7; 1]) as [H _].
  - unfold holds. vm_compute. lia.
  - vm_compute. reflexivity.
  - destruct H as (d & Hd & _ & Hfull & _).
    + vm_compute. discriminate.
    + exists d. split; [exact Hd|]. apply Hfull. reflexivity.
Defined.

(** X20: [bitset_equal] looks at the payload only, up to the size of its
    first operand: on bitsets of equal declared size it is reflexive,
    symmetric and transitive, and replacing an operand by one that differs in
    the flags or the tag alone does not change the result. *)
Theorem bitset_equal_equivalence (a b c a' : bitset) :
  holds a → holds b → holds c →
  size_of a = size_of b → size_of b = size_of c →
  bitset_equal a a = Some true
  ∧ bitset_equal b a = bitset_equal a b
  ∧ (bitset_equal a b = Some true → bitset_equal b c = Some true →
     bitset_equal a c = Some true)
  ∧ (header_only a a' →
     bitset_equal a' b = bitset_equal a b
     ∧ bitset_equal b a' = bitset_equal b a).
Proof.
  intros Ha Hb Hc Hab Hbc.
  assert (size_of a < length b)%nat as L1 by (unfold holds in Hb; lia).
  assert (size_of b < length a)%nat as L2 by (unfold holds in Ha; lia).
  assert (size_of b < length c)%nat as L3 by (unfold holds in Hc; lia).
  assert (size_of a < length c)%nat as L4 by lia.
  destruct (bitset_equal_spec a a) as (x0 & Hx0 & Hx0i);
    [done|unfold holds in Ha; lia|].
  destruct (bitset_equal_spec a b) as (x & Hx & Hxi); [done..|].
  destruct (bitset_equal_spec b a) as (y & Hy & Hyi); [done..|].
  destruct (bitset_equal_spec b c) as (z & Hz & Hzi); [done..|].
  destruct (bitset_equal_spec a c) as (w & Hw & Hwi); [done..|].
  split; [rewrite Hx0; f_equal; by apply Hx0i|]. split; [|split].
  - rewrite Hx, Hy. f_equal. apply bool_eq_iff. rewrite Hxi, Hyi, Hab.
    split; intros H i Hi; symmetry; by apply H.
  - rewrite Hx, Hz, Hw. intros [= ->] [= ->]. f_equal. apply Hwi.
    intros i Hi. rewrite (proj1 Hxi eq_refl i Hi).
    apply (proj1 Hzi eq_refl). lia.
  - intros (Hlen & Hsz & Hpay).
    assert (size_of a' = size_of a) as Hs'.
    { destruct (holds_header a Ha) as (ha & Hha & _).
      rewrite (get_size_of _ _ Hha) in Hsz.
      rewrite (get_size_size_of _ _ Hsz). unfold size_of. by rewrite Hha. }
    assert (holds a') as Ha' by (unfold holds in *; lia).
    destruct (bitset_equal_spec a' b) as (x' & Hx' & Hx'i);
      [done|lia|].
    destruct (bitset_equal_spec b a') as (y' & Hy' & Hy'i);
      [done|lia|].
    split.
    + rewrite Hx, Hx'. f_equal. apply bool_eq_iff. rewrite Hxi, Hx'i, Hs'.
      split; intros H i Hi; [rewrite <- Hpay by lia|rewrite Hpay by lia];
        by apply H.
    + rewrite Hy, Hy'. f_equal. apply bool_eq_iff. rewrite Hyi, Hy'i.
      split; intros H i Hi; [rewrite <- Hpay by lia|rewrite Hpay by lia];
        by apply H.
Qed.

Lemma bitset_equal_equivalence_witness :
  bitset_equal [2; 7; 1] [2; 7; 1] = Some true
  ∧ bitset_equal [0x0005000100000002; 7; 1] [2; 7; 1]
    = bitset_equal [2; 7; 1] [2; 7; 1].
Proof.
  destruct (bitset_equal_equivalence [2; 7; 1] [2; 7; 1] [2; 7; 1]
              [0x0005000100000002; 7; 1]) as (Hrefl & _ & _ & Hhdr).
  - unfold holds. vm_compute. lia.
  - unfold holds. vm_compute. lia.
  - unfold holds. vm_compute. lia.
  - reflexivity.
  - reflexivity.
  - split; [exact Hrefl|]. apply Hhdr.
    split; [reflexivity|]. split; [vm_compute; reflexivity|].
    intros [|i] Hi; [lia|reflexivity].
Defined.

(** X21: [bitset_dist(a, a)] returns what [bitset_ord(a)] returns, and
    for operands of equal declared size [bitset_dist] is symmetric. *)
Theorem bitset_dist_diag_sym (a b : bitset) :
  bitset_dist a a = bitset_ord a
  ∧ (holds a → holds b → size_of a = size_of b →
     bitset_dist a b = bitset_dist b a).
Proof.
  split.
  - unfold bitset_dist, bitset_ord.
    destruct (BITSET_FIELD_size a) as [n|]; [|done]. cbn [mbind option_bind].
    apply sum_down_ext. intros i Hi. unfold load.
    destruct (a !! i); [|done]. cbn [mbind option_bind].
    by rewrite Z.land_diag.
  - intros Ha Hb Hsz. unfold bitset_dist.
    destruct (holds_field_size a Ha) as (n & -> & Hn & _).
    destruct (holds_field_size b Hb) as (m & -> & Hm & _).
    cbn [mbind option_bind]. rewrite Hn, Hm, Hsz.
    apply sum_down_ext. intros i Hi. unfold load.
    destruct (a !! i), (b !! i); try done. cbn [mbind option_bind].
    by rewrite Z.land_comm.
Qed.

Lemma bitset_dist_diag_sym_witness :
  bitset_dist [2; 12; 10] [2; 10; 3] = bitset_dist [2; 10; 3] [2; 12; 10].
Proof.
  refine (proj2 (bitset_dist_diag_sym [2; 12; 10] [2; 10; 3]) _ _ _).
  - unfold holds. vm_compute. lia.
  - unfold holds. vm_compute. lia.
  - reflexivity.
Defined.

(** * Cardinality under single-element updates *)

Lemma count_agree (P Q : nat → Prop)
    `{!∀ k, Decision (P k)} `{!∀ k, Decision (Q k)} (l : list nat) :
  (∀ k, k ∈ l → (P k ↔ Q k)) →
  length (filter Q l) = length (filter P l).
Proof.
  induction l as [|x l IH]; intros Hagree; [done|].
  assert (P x ↔ Q x) as Hx by (apply Hagree; by left).
  specialize (IH ltac:(intros k Hk; apply Hagree; by right)).
  rewrite !filter_cons.
  destruct (decide (P x)), (decide (Q x)); cbn [length]; try lia; tauto.
Qed.

Lemma count_except (P Q : nat → Prop)
    `{!∀ k, Decision (P k)} `{!∀ k, Decision (Q k)} (b : nat) (l : list nat) :
  NoDup l → b ∈ l →
  (∀ k, k ∈ l → k ≠ b → (P k ↔ Q k)) →
  Z.of_nat (length (filter Q l)) + (if decide (P b) then 1 else 0)
  = Z.of_nat (length (filter P l)) + (if decide (Q b) then 1 else 0).
Proof.
  induction l as [|x l IH]; intros Hnd Hb Hagree.
  - by apply elem_of_nil in Hb.
  - apply NoDup_cons in Hnd as [Hx Hnd]. rewrite !filter_cons.
    apply elem_of_cons in Hb as [->|Hb].
    + assert (length (filter Q l) = length (filter P l)) as Hl.
      { apply count_agree. intros k Hk. apply Hagree; [by right|].
        intros ->. done. }
      destruct (decide (P x)), (decide (Q x)); cbn [length]; lia.
    + assert (x ≠ b) as Hne by (intros ->; done).
      assert (P x ↔ Q x) as Hpq by (apply Hagree; [by left|done]).
      specialize (IH Hnd Hb ltac:(intros k Hk; apply Hagree; by right)).
      destruct (decide (P x)), (decide (Q x)); cbn [length]; try lia; tauto.
Qed.

Lemma popcountll_except x y b :
  0 <= b < 64 →
  (∀ k, 0 <= k < 64 → k ≠ b → Z.testbit y k = Z.testbit x k) →
  popcountll y + (if Z.testbit x b then 1 else 0)
  = popcountll x + (if Z.testbit y b then 1 else 0).
Proof.
  intros Hb Hagree. unfold popcountll.
  pose proof (count_except
    (λ k : nat, Z.testbit x (Z.of_nat k) = true)
    (λ k : nat, Z.testbit y (Z.of_nat k) = true)
    (Z.to_nat b) (seq 0 64)) as H.
  cbv beta in H. rewrite Z2Nat.id in H by lia.
  assert (∀ t : bool, (if decide (t = true) then 1 else 0) = if t then 1 else 0)
    as Hd by (by intros []).
  rewrite !Hd in H. apply H.
  - apply NoDup_seq.
  - apply elem_of_seq. lia.
  - intros k Hk Hne. apply elem_of_seq in Hk. rewrite Hagree; [done|lia|lia].
Qed.

Lemma sum_down_shift (term term' : nat → option Z) n c d w :
  (∀ i, (1 ≤ i ≤ n)%nat → ∃ t, term i = Some t ∧ 0 <= t <= 64 ∧ term' i = Some t) →
  0 <= c → 0 <= c + d →
  c + 64 * Z.of_nat n < 2 ^ 64 → c + d + 64 * Z.of_nat n < 2 ^ 64 →
  sum_down n term c = Some w →
  sum_down n term' (c + d) = Some (w + d).
Proof.
  revert c w. induction n as [|n IH]; intros c w Ht Hc Hcd Hb Hbd Hw.
  - cbn [sum_down] in *. by injection Hw as <-.
  - destruct (Ht (S n)) as (t & Hts & Htr & Hts'); [lia|].
    rewrite sum_down_S, Hts in Hw. cbn [mbind option_bind] in Hw.
    rewrite sum_down_S, Hts'. cbn [mbind option_bind].
    assert (sz_add c t = c + t) as E
      by (unfold sz_add; rewrite Z.mod_small by lia; lia).
    assert (sz_add (c + d) t = c + t + d) as ->
      by (unfold sz_add; rewrite Z.mod_small by lia; lia).
    rewrite E in Hw. apply IH; [intros; apply Ht; lia|lia..|done].
Qed.

Lemma sum_down_bump (term term' : nat → option Z) n j d acc v :
  (∀ i, (1 ≤ i ≤ n)%nat →
     ∃ t, term i = Some t ∧ 0 <= t <= 64
       ∧ term' i = Some (if decide (i = j) then t + d else t)
       ∧ 0 <= (if decide (i = j) then t + d else t) <= 64) →
  0 <= acc → acc + 64 * Z.of_nat n < 2 ^ 64 →
  sum_down n term acc = Some v →
  sum_down n term' acc
  = Some (if decide (1 ≤ j ≤ n)%nat then v + d else v).
Proof.
  revert acc v. induction n as [|n IH]; intros acc v Ht Hacc Hb Hv.
  - cbn [sum_down] in *. rewrite decide_False by lia. done.
  - destruct (Ht (S n)) as (t & Hts & Htr & Hts' & Htr'); [lia|].
    rewrite sum_down_S, Hts in Hv. cbn [mbind option_bind] in Hv.
    rewrite sum_down_S, Hts'. cbn [mbind option_bind].
    assert (sz_add acc t = acc + t) as E
      by (unfold sz_add; rewrite Z.mod_small by lia; lia).
    rewrite E in Hv.
    destruct (decide (S n = j)) as [<-|Hne].
    + rewrite decide_True by lia.
      assert (sz_add acc (t + d) = acc + t + d) as ->
        by (unfold sz_add; rewrite Z.mod_small by lia; lia).
      apply (sum_down_shift term); [|lia..|done].
      intros i Hi. destruct (Ht i) as (u & Hu & Hur & Hu' & _); [lia|].
      rewrite decide_False in Hu' by lia. by exists u.
    + rewrite E.
      rewrite (IH (acc + t) v); [|intros; apply Ht; lia|lia|lia|done].
      f_equal. repeat case_decide; lia.
Qed.

Lemma bitset_ord_after_lane_write (set : bitset) i x y d :
  holds set → (1 ≤ i ≤ size_of set)%nat →
  set !! i = Some x →
  popcountll y = popcountll x + d →
  ∃ n, bitset_ord set = Some n ∧ bitset_ord (<[i := y]> set) = Some (n + d).
Proof.
  intros Hs Hi Hx Hpc.
  destruct (bitset_ord_spec set Hs) as (n & Hn & _).
  exists n. split; [done|].
  destruct (holds_field_size set Hs) as (m & Hm & Hsz & _).
  unfold bitset_ord in *. unfold BITSET_FIELD_size, load in *.
  rewrite list_lookup_insert_ne by lia.
  destruct (set !! 0%nat) as [h|]; [|done]. cbn [mbind option_bind] in *.
  injection Hm as <-. rewrite Hsz in *.
  rewrite (sum_down_bump (λ j, x ← set !! j; Some (popcountll x)) _
             (size_of set) i d 0 n).
  - by rewrite decide_True by lia.
  - intros j Hj.
    destruct (lookup_lt_ex set j) as [u Hu]; [unfold holds in Hs; lia|].
    rewrite Hu. cbn [mbind option_bind]. exists (popcountll u).
    split; [done|]. split; [apply popcountll_range|].
    destruct (decide (j = i)) as [->|Hne].
    + rewrite list_lookup_insert_eq by (by apply lookup_lt_Some in Hx).
      cbn [mbind option_bind]. rewrite Hu in Hx. injection Hx as <-.
      rewrite <- Hpc. split; [done|apply popcountll_range].
    + rewrite list_lookup_insert_ne by done. rewrite Hu.
      split; [done|apply popcountll_range].
  - lia.
  - by apply size_sum_bound.
  - done.
Qed.

(** X22: for an element [i] within the declared capacity, [bitset_set]
    raises [bitset_ord] by one when the element was absent and leaves it when
    it was present; [bitset_clear] lowers it by one when the element was
    present and leaves it when it was absent. *)
Theorem bitset_ord_after_set_clear (set : bitset) i :
  holds set → 0 <= i < 64 * Z.of_nat (size_of set) →
  ∃ n b, bitset_ord set = Some n ∧ bitset_get set i = Some b
    ∧ (∃ s1, bitset_set set i = Some s1
         ∧ bitset_ord s1 = Some (if b then n else n + 1))
    ∧ (∃ s2, bitset_clear set i = Some s2
         ∧ bitset_ord s2 = Some (if b then n - 1 else n)).
Proof.
  intros Hs Hi.
  destruct (holds_field_size set Hs) as (m & Hm & Hsz & Hr).
  assert (0 <= i < 2 ^ 64) as Hi64.
  { change (2 ^ 32) with 4294967296 in Hr.
    change (2 ^ 64) with 18446744073709551616. lia. }
  pose proof (ELEM_BIT_range i) as Hb.
  assert (1 ≤ Z.to_nat (ELEM_WORD i) ≤ size_of set)%nat as Hw.
  { rewrite ELEM_WORD_eq by done. Z.div_mod_to_equations. lia. }
  destruct (lookup_lt_ex set (Z.to_nat (ELEM_WORD i))) as [x Hx];
    [unfold holds in Hs; lia|].
  set (y1 := Z.lor x (shl64 1 (ELEM_BIT i))).
  set (y2 := Z.land x (not64 (shl64 1 (ELEM_BIT i)))).
  pose proof (popcountll_except x y1 (ELEM_BIT i) Hb) as P1.
  pose proof (popcountll_except x y2 (ELEM_BIT i) Hb) as P2.
  assert (Z.testbit y1 (ELEM_BIT i) = true) as B1.
  { unfold y1. rewrite set_bit_spec by lia. rewrite Z.eqb_refl.
    apply orb_true_r. }
  assert (Z.testbit y2 (ELEM_BIT i) = false) as B2.
  { unfold y2. rewrite clear_bit_spec by lia. rewrite Z.eqb_refl.
    apply andb_false_r. }
  rewrite B1 in P1. rewrite B2 in P2.
  specialize (P1 ltac:(intros k Hk Hne; unfold y1;
    rewrite set_bit_spec by lia;
    destruct (Z.eqb_spec (ELEM_BIT i) k); [done|apply orb_false_r])).
  specialize (P2 ltac:(intros k Hk Hne; unfold y2;
    rewrite clear_bit_spec by lia;
    destruct (Z.eqb_spec (ELEM_BIT i) k); [done|apply andb_true_r])).
  destruct (bitset_ord_after_lane_write set _ x y1
              (if Z.testbit x (ELEM_BIT i) then 0 else 1) Hs Hw Hx)
    as (n & Hn & Hn1); [destruct (Z.testbit x (ELEM_BIT i)); lia|].
  destruct (bitset_ord_after_lane_write set _ x y2
              (if Z.testbit x (ELEM_BIT i) then -1 else 0) Hs Hw Hx)
    as (n' & Hn' & Hn2); [destruct (Z.testbit x (ELEM_BIT i)); lia|].
  rewrite Hn in Hn'. injection Hn' as <-.
  exists n, (Z.testbit x (ELEM_BIT i)). split; [done|].
  split; [by apply bitset_get_Some|]. split.
  - exists (<[Z.to_nat (ELEM_WORD i) := y1]> set). split.
    + unfold bitset_set, load. cbv zeta. rewrite Hx. cbn [mbind option_bind].
      apply store_Some. by apply lookup_lt_Some in Hx.
    + rewrite Hn1. f_equal. destruct (Z.testbit x (ELEM_BIT i)); lia.
  - exists (<[Z.to_nat (ELEM_WORD i) := y2]> set). split.
    + unfold bitset_clear, load. cbv zeta. rewrite Hx. cbn [mbind option_bind].
      apply store_Some. by apply lookup_lt_Some in Hx.
    + rewrite Hn2. f_equal. destruct (Z.testbit x (ELEM_BIT i)); lia.
Qed.

Lemma bitset_ord_after_set_clear_witness :
  ∃ n s1, bitset_ord [2; 12; 10] = Some n
    ∧ bitset_set [2; 12; 10] 64 = Some s1
    ∧ bitset_ord s1 = Some (n + 1).
Proof.
  destruct (bitset_ord_after_set_clear [2; 12; 10] 64)
    as (n & b & Hn & Hg & (s1 & Hs1 & Ho) & _).
  - unfold holds. vm_compute. lia.
  - vm_compute. split; [discriminate|reflexivity].
  - vm_compute in Hg. injection Hg as <-.
    exists n, s1. split; [exact Hn|]. split; [exact Hs1|exact Ho].
Defined.

(** * Further laws of the algebra *)

(** X23: [bitset_merge(r, a, b, c)] yields the payload of [b] when [c] is
    empty and the payload of [a] when [a] and [b] coincide; over 64-bit lanes
    it yields the payload of [a] when every lane of [c] is all ones. *)
Theorem bitset_merge_extremes (r a b c : bitset) :
  holds a →
  (size_of a < length r)%nat → (size_of a < length b)%nat →
  (size_of a < length c)%nat →
  ∃ r', bitset_merge r a b c = Some r'
    ∧ ((∀ i, (1 ≤ i ≤ size_of a)%nat → c !! i = Some 0) →
       ∀ i, (1 ≤ i ≤ size_of a)%nat → r' !! i = b !! i)
    ∧ ((∀ i, (1 ≤ i ≤ size_of a)%nat → b !! i = a !! i) →
       ∀ i, (1 ≤ i ≤ size_of a)%nat → r' !! i = a !! i)
    ∧ (Forall word64 a → Forall word64 b →
       (∀ i, (1 ≤ i ≤ size_of a)%nat → c !! i = Some UINT64_MAX) →
       ∀ i, (1 ≤ i ≤ size_of a)%nat → r' !! i = a !! i).
Proof.
  intros Ha Hr Hb Hc.
  destruct (out3_lanes merge_lane r a b c Ha Hr Hb Hc)
    as (r' & Hres & _ & _ & Hl).
  exists r'. split; [exact Hres|]. split; [|split].
  - intros Hz i Hi. destruct (Hl i Hi) as (ai & bi & ci & Hai & Hbi & Hci & ->).
    rewrite (Hz i Hi) in Hci. injection Hci as <-. rewrite Hbi. f_equal.
    unfold merge_lane. by rewrite Z.land_0_r, Z.lxor_0_r.
  - intros Heq i Hi.
    destruct (Hl i Hi) as (ai & bi & ci & Hai & Hbi & Hci & ->).
    rewrite (Heq i Hi), Hai in Hbi. injection Hbi as <-. rewrite Hai. f_equal.
    unfold merge_lane. by rewrite Z.lxor_nilpotent, Z.land_0_l, Z.lxor_0_r.
  - intros Wa Wb Hones i Hi.
    destruct (Hl i Hi) as (ai & bi & ci & Hai & Hbi & Hci & ->).
    rewrite (Hones i Hi) in Hci. injection Hci as <-. rewrite Hai. f_equal.
    pose proof (lane_word64 a i ai Wa Hai) as Wai.
    pose proof (lane_word64 b i bi Wb Hbi) as Wbi.
    apply Z.bits_inj'. intros k Hk. rewrite merge_lane_select by done.
    rewrite UINT64_MAX_ones, Z.testbit_ones by lia.
    destruct (Z.leb_spec 0 k), (Z.ltb_spec k 64); try lia; [done|].
    cbn [andb]. by rewrite (word64_high ai), (word64_high bi).
Qed.

Lemma bitset_merge_extremes_witness :
  ∃ r', bitset_merge [0; 9; 9] [2; 12; 10] [2; 10; 3] [2; 0; 0] = Some r'
        ∧ r' !! 1%nat = Some 10.
Proof.
  destruct (bitset_merge_extremes [0; 9; 9] [2; 12; 10] [2; 10; 3] [2; 0; 0])
    as (r' & Hr & Hz & _).
  - unfold holds. vm_compute. lia.
  - vm_compute. lia.
  - vm_compute. lia.
  - vm_compute. lia.
  - exists r'. split; [exact Hr|].
    rewrite (Hz ltac:(intros [|[|[|?]]] H;
                       first [reflexivity | vm_compute in H; lia]) 1%nat);
      [reflexivity|vm_compute; lia].
Defined.

(** X24: a bitset that [bitset_empty] reports empty is disjoint from every
    set and implies every set of room for its declared size. *)
Theorem bitset_empty_is_bottom (a b : bitset) :
  holds a → (size_of a < length b)%nat →
  bitset_empty a = Some true →
  bitset_disjoint a b = Some true ∧ bitset_implies a b = Some true.
Proof.
  intros Ha Hb He.
  destruct (bitset_empty_spec a Ha) as (x & Hx & Hxi).
  rewrite Hx in He. injection He as ->.
  pose proof (proj1 Hxi eq_refl) as Hz. split.
  - destruct (bitset_disjoint_spec a b Ha Hb) as (y & Hy & Hyi).
    rewrite Hy. f_equal. apply Hyi. intros i ai bi Hi Hai Hbi.
    rewrite (Hz i Hi) in Hai. by injection Hai as <-.
  - destruct (bitset_implies_spec a b Ha Hb) as (y & Hy & Hyi).
    rewrite Hy. f_equal. apply Hyi. intros i ai bi Hi Hai Hbi.
    rewrite (Hz i Hi) in Hai. by injection Hai as <-.
Qed.

Lemma bitset_empty_is_bottom_witness :
  bitset_disjoint [2; 0; 0] [2; 10; 3] = Some true
  ∧ bitset_implies [2; 0; 0] [2; 10; 3] = Some true.
Proof.
  apply (bitset_empty_is_bottom [2; 0; 0] [2; 10; 3]).
  - unfold holds. vm_compute. lia.
  - vm_compute. lia.
  - vm_compute. reflexivity.
Defined.

(** X25: the in-place forms compute the payload of the out-of-place forms:
    [bitset_and_inplace(a, b)] and [bitset_or_inplace(a, b)] leave in [a] the
    lanes that [bitset_and(r, a, b)] and [bitset_or(r, a, b)] leave in [r],
    and intersection and union do not depend on the order of operands of
    equal declared size. *)
Theorem bitset_and_or_forms_agree (r a b : bitset) :
  holds a → (size_of a < length r)%nat → (size_of a < length b)%nat →
  (∃ r1 a1, bitset_and r a b = Some r1 ∧ bitset_and_inplace a b = Some a1
     ∧ ∀ i, (1 ≤ i ≤ size_of a)%nat → a1 !! i = r1 !! i)
  ∧ (∃ r2 a2, bitset_or r a b = Some r2 ∧ bitset_or_inplace a b = Some a2
       ∧ ∀ i, (1 ≤ i ≤ size_of a)%nat → a2 !! i = r2 !! i)
  ∧ (holds b → size_of b = size_of a →
     ∃ r1 r1' r2 r2',
       bitset_and r a b = Some r1 ∧ bitset_and r b a = Some r1'
       ∧ bitset_or r a b = Some r2 ∧ bitset_or r b a = Some r2'
       ∧ ∀ i, (1 ≤ i ≤ size_of a)%nat →
           r1' !! i = r1 !! i ∧ r2' !! i = r2 !! i).
Proof.
  intros Ha Hr Hb.
  assert (∀ g : Z → Z → Z,
    ∃ r1 a1,
      ('(r, n) ← BITSET_COPY_FIELD_size r a;
       for_down (Z.to_nat n)
         (λ i r, ai ← load a i; bi ← load b i; store r i (g ai bi)) r) = Some r1
      ∧ (n ← BITSET_FIELD_size a;
         for_down (Z.to_nat n)
           (λ i a, ai ← load a i; bi ← load b i; store a i (g ai bi)) a)
        = Some a1
      ∧ ∀ i, (1 ≤ i ≤ size_of a)%nat → a1 !! i = r1 !! i) as Hforms.
  { intros g.
    destruct (out2_lanes g r a b Ha Hr Hb) as (r1 & Hr1 & _ & _ & Hl).
    destruct (in2_pass_result g a b Ha Hb) as (a1 & Ha1 & _ & _ & Hla).
    exists r1, a1. split; [exact Hr1|]. split; [exact Ha1|].
    intros i Hi. destruct (Hl i Hi) as (ai & bi & Hai & Hbi & ->).
    destruct (Hla i Hi) as (x & y & Hx & Hy & ->).
    rewrite Hai in Hx. injection Hx as <-. rewrite Hbi in Hy. done. }
  split; [apply (Hforms Z.land)|]. split; [apply (Hforms Z.lor)|].
  intros Hhb Hsz.
  assert (∀ g : Z → Z → Z, (∀ x y, g x y = g y x) →
    ∃ r1 r1',
      ('(r, n) ← BITSET_COPY_FIELD_size r a;
       for_down (Z.to_nat n)
         (λ i r, ai ← load a i; bi ← load b i; store r i (g ai bi)) r) = Some r1
      ∧ ('(r, n) ← BITSET_COPY_FIELD_size r b;
         for_down (Z.to_nat n)
           (λ i r, ai ← load b i; bi ← load a i; store r i (g ai bi)) r)
        = Some r1'
      ∧ ∀ i, (1 ≤ i ≤ size_of a)%nat → r1' !! i = r1 !! i) as Hcomm.
  { intros g Hg.
    destruct (out2_lanes g r a b Ha Hr Hb) as (r1 & Hr1 & _ & _ & Hl).
    destruct (out2_lanes g r b a) as (r1' & Hr1' & _ & _ & Hl');
      [done|lia|unfold holds in Ha; lia|].
    exists r1, r1'. split; [exact Hr1|]. split; [exact Hr1'|].
    intros i Hi. destruct (Hl i Hi) as (ai & bi & Hai & Hbi & ->).
    destruct (Hl' i ltac:(lia)) as (x & y & Hx & Hy & ->).
    rewrite Hbi in Hx. injection Hx as <-. rewrite Hai in Hy.
    injection Hy as <-. by rewrite Hg. }
  destruct (Hcomm Z.land Z.land_comm) as (r1 & r1' & H1 & H1' & Hl1).
  destruct (Hcomm Z.lor Z.lor_comm) as (r2 & r2' & H2 & H2' & Hl2).
  exists r1, r1', r2, r2'. split; [exact H1|]. split; [exact H1'|].
  split; [exact H2|]. split; [exact H2'|]. intros i Hi. split; eauto.
Qed.

Lemma bitset_and_or_forms_agree_witness :
  ∃ r1 a1, bitset_and [0; 9; 9] [2; 12; 10] [2; 10; 3] = Some r1
    ∧ bitset_and_inplace [2; 12; 10] [2; 10; 3] = Some a1
    ∧ a1 !! 1%nat = r1 !! 1%nat.
Proof.
  destruct (bitset_and_or_forms_agree [0; 9; 9] [2; 12; 10] [2; 10; 3])
    as [(r1 & a1 & Hr & Ha & Hl) _].
  - unfold holds. vm_compute. lia.
  - vm_compute. lia.
  - vm_compute. lia.
  - exists r1, a1. split; [exact Hr|]. split; [exact Ha|].
    apply Hl. vm_compute. lia.
Defined.

(** X26: difference and intersection split a set: over 64-bit lanes, the
    results of [bitset_diff(r1, a, b)] and [bitset_and(r2, a, b)] are
    disjoint, and [bitset_or] of the two has the payload of [a]. *)
Theorem bitset_diff_and_partition (r1 r2 r3 a b : bitset) :
  holds a → Forall word64 a →
  (size_of a < length r1)%nat → (size_of a < length r2)%nat →
  (size_of a < length r3)%nat → (size_of a < length b)%nat →
  ∃ d m u,
    bitset_diff r1 a b = Some d
    ∧ bitset_and r2 a b = Some m
    ∧ bitset_disjoint d m = Some true
    ∧ bitset_or r3 d m = Some u
    ∧ bitset_equal u a = Some true.
Proof.
  intros Ha Wa Hr1 Hr2 Hr3 Hb.
  destruct (out2_lanes (λ x y, Z.land x (not64 y)) r1 a b Ha Hr1 Hb)
    as (d & Hd & Hds & Hdh & Hdl).
  destruct (out2_lanes Z.land r2 a b Ha Hr2 Hb) as (m & Hm & Hms & Hmh & Hml).
  destruct (out2_lanes Z.lor r3 d m) as (u & Hu & Hus & Huh & Hul);
    [done|lia|unfold holds in Hmh; lia|].
  exists d, m, u. split; [exact Hd|]. split; [exact Hm|]. split; [|split].
  - destruct (bitset_disjoint_spec d m) as (x & Hx & Hxi);
      [done|unfold holds in Hmh; lia|].
    rewrite Hx. f_equal. apply Hxi. intros i di mi Hi Hdi Hmi.
    destruct (Hdl i ltac:(lia)) as (ai & bi & Hai & Hbi & Hd').
    destruct (Hml i ltac:(lia)) as (ai' & bi' & Hai' & Hbi' & Hm').
    assert (ai' = ai) as -> by congruence. assert (bi' = bi) as -> by congruence.
    rewrite Hd' in Hdi. injection Hdi as <-.
    rewrite Hm' in Hmi. injection Hmi as <-.
    pose proof (lane_word64 a i ai Wa Hai) as Wai.
    apply Z.bits_inj'. intros k Hk. rewrite Z.bits_0, !Z.land_spec.
    destruct (Z.lt_ge_cases k 64).
    + rewrite not64_spec by lia. destruct (Z.ltb_spec k 64); [|lia].
      by destruct (Z.testbit ai k), (Z.testbit bi k).
    + by rewrite (word64_high ai).
  - exact Hu.
  - destruct (bitset_equal_spec u a) as (z & Hz & Hzi);
      [done|unfold holds in Ha; lia|].
    rewrite Hz. f_equal. apply Hzi. intros i Hi.
    destruct (Hul i ltac:(lia)) as (di & mi & Hdi & Hmi & ->).
    destruct (Hdl i ltac:(lia)) as (ai & bi & Hai & Hbi & Hd').
    destruct (Hml i ltac:(lia)) as (ai' & bi' & Hai' & Hbi' & Hm').
    assert (ai' = ai) as -> by congruence. assert (bi' = bi) as -> by congruence.
    rewrite Hd' in Hdi. injection Hdi as <-.
    rewrite Hm' in Hmi. injection Hmi as <-. rewrite Hai. f_equal.
    pose proof (lane_word64 a i ai Wa Hai) as Wai.
    apply Z.bits_inj'. intros k Hk. rewrite Z.lor_spec, !Z.land_spec.
    destruct (Z.lt_ge_cases k 64).
    + rewrite not64_spec by lia. destruct (Z.ltb_spec k 64); [|lia].
      by destruct (Z.testbit ai k), (Z.testbit bi k).
    + by rewrite (word64_high ai).
Qed.

Lemma bitset_diff_and_partition_witness :
  ∃ d m u,
    bitset_diff [0; 0; 0] [2; 12; 10] [2; 10; 3] = Some d
    ∧ bitset_and [0; 0; 0] [2; 12; 10] [2; 10; 3] = Some m
    ∧ bitset_disjoint d m = Some true
    ∧ bitset_or [0; 0; 0] d m = Some u
    ∧ bitset_equal u [2; 12; 10] = Some true.
Proof.
  apply (bitset_diff_and_partition [0; 0; 0] [0; 0; 0] [0; 0; 0]
           [2; 12; 10] [2; 10; 3]).
  - unfold holds. vm_compute. lia.
  - repeat constructor; unfold word64; lia.
  - vm_compute. lia.
  - vm_compute. lia.
  - vm_compute. lia.
  - vm_compute. lia.
Defined.

(** * The universe as the largest set *)

Lemma bitset_universe_bits (set : bitset) n :
  1 <= n <= 64 * (2 ^ 32 - 1) →
  (Z.to_nat ((n + 63) / 64) < length set)%nat →
  ∃ u, bitset_universe set n = Some u
    ∧ length u = length set
    ∧ ∀ i ui k, (1 ≤ i ≤ Z.to_nat ((n + 63) / 64))%nat → u !! i = Some ui →
        0 <= k < 64 →
        (Z.testbit ui k = true ↔ 64 * (Z.of_nat i - 1) + k < n).
Proof.
  intros Hn Hlen. set (w := (n + 63) / 64) in *.
  change (2 ^ 32) with 4294967296 in Hn.
  assert (1 <= n < 2 ^ 64) as Hn64
    by (change (2 ^ 64) with 18446744073709551616; lia).
  pose proof (ceil_lanes n Hn64) as Hw. fold w in Hw.
  assert (0 <= 64 * w - n < 64 ∧ 1 <= w) as [Hpad Hw1]
    by (unfold w; Z.div_mod_to_equations; lia).
  destruct (bitset_universe_lanes set n ltac:(lia))
    as (u & Hu & Hl & _ & Hfull & Hlast & _); [rewrite Hw; lia|].
  rewrite pad_bits_pos in Hlast by done. rewrite Hw in *.
  exists u. split; [done|]. split; [done|].
  intros i x k Hi Hx Hk.
  destruct (decide (i = Z.to_nat w)) as [->|Hne].
  - rewrite Hlast in Hx. injection Hx as <-.
    rewrite shifted_full_bits by lia.
    destruct (Z.ltb_spec k (64 - (64 * w - n))); split; try done; lia.
  - rewrite Hfull in Hx by lia. injection Hx as <-.
    rewrite UINT64_MAX_ones, Z.testbit_ones by lia.
    destruct (Z.leb_spec 0 k), (Z.ltb_spec k 64); try lia;
      (split; [intros _; lia|done]).
Qed.

(** X27: a bitset over 64-bit lanes, of the size of the universe of [n]
    elements, implies that universe exactly when it holds no element at index
    [n] or beyond, up to the end of its last lane. *)
Theorem bitset_universe_is_top (set a : bitset) n :
  1 <= n <= 64 * (2 ^ 32 - 1) →
  (Z.to_nat ((n + 63) / 64) < length set)%nat →
  holds a → size_of a = Z.to_nat ((n + 63) / 64) → Forall word64 a →
  ∃ u x, bitset_universe set n = Some u
    ∧ bitset_implies a u = Some x
    ∧ (x = true ↔
       ∀ e, n <= e < 64 * ((n + 63) / 64) → bitset_get a e = Some false).
Proof.
  intros Hn Hlen Ha Hsz Wa.
  destruct (bitset_universe_bits set n Hn Hlen) as (u & Hu & Hl & Hbits).
  set (w := (n + 63) / 64) in *.
  assert (1 <= w <= 4294967295) as Hwr.
  { change (2 ^ 32) with 4294967296 in Hn. unfold w.
    Z.div_mod_to_equations. lia. }
  destruct (bitset_implies_spec a u Ha) as (x & Hx & Hxi); [lia|].
  exists u, x. split; [done|]. split; [done|]. rewrite Hxi, Hsz. split.
  - intros H e He.
    assert (0 <= e < 2 ^ 64) as He64
      by (change (2 ^ 64) with 18446744073709551616; lia).
    assert (1 ≤ Z.to_nat (ELEM_WORD e) ≤ Z.to_nat w)%nat as Hi.
    { rewrite ELEM_WORD_eq by done. Z.div_mod_to_equations. lia. }
    destruct (lookup_lt_ex a (Z.to_nat (ELEM_WORD e))) as [ai Hai];
      [unfold holds in Ha; lia|].
    destruct (lookup_lt_ex u (Z.to_nat (ELEM_WORD e))) as [ui Hui]; [lia|].
    rewrite (bitset_get_Some a e ai Hai). f_equal.
    destruct (Z.testbit ai (ELEM_BIT e)) eqn:E; [|done]. exfalso.
    pose proof (ELEM_BIT_range e) as Hb.
    pose proof (lane_word64 a _ ai Wa Hai) as Wai.
    pose proof (proj1 (implies_lane_zero ai ui Wai) (H _ ai ui Hi Hai Hui)
                  (ELEM_BIT e) Hb E) as Hut.
    apply (Hbits _ ui _ Hi Hui Hb) in Hut.
    rewrite ELEM_WORD_eq, ELEM_BIT_eq in Hut by done.
    Z.div_mod_to_equations. lia.
  - intros H i ai ui Hi Hai Hui.
    pose proof (lane_word64 a _ ai Wa Hai) as Wai.
    apply implies_lane_zero; [done|]. intros k Hk Hak.
    apply (Hbits i ui k Hi Hui Hk).
    destruct (Z.lt_ge_cases (64 * (Z.of_nat i - 1) + k) n) as [|Hge]; [done|].
    exfalso. specialize (H (64 * (Z.of_nat i - 1) + k) ltac:(lia)).
    assert (0 <= 64 * (Z.of_nat i - 1) + k < 2 ^ 64) as He64
      by (change (2 ^ 64) with 18446744073709551616; lia).
    assert (ELEM_WORD (64 * (Z.of_nat i - 1) + k) = Z.of_nat i) as Ew.
    { rewrite ELEM_WORD_eq by done. Z.div_mod_to_equations. lia. }
    assert (ELEM_BIT (64 * (Z.of_nat i - 1) + k) = k) as Eb.
    { rewrite ELEM_BIT_eq. Z.div_mod_to_equations. lia. }
    rewrite (bitset_get_Some a _ ai) in H by (by rewrite Ew, Nat2Z.id).
    rewrite Eb, Hak in H. discriminate H.
Qed.

Lemma bitset_universe_is_top_witness :
  ∃ u x, bitset_universe [0; 0; 0] 100 = Some u
    ∧ bitset_implies [2; 12; 10] u = Some x
    ∧ (x = true ↔ ∀ e, 100 <= e < 128 → bitset_get [2; 12; 10] e = Some false).
Proof.
  apply (bitset_universe_is_top [0; 0; 0] [2; 12; 10] 100).
  - lia.
  - vm_compute. lia.
  - unfold holds. vm_compute. lia.
  - reflexivity.
  - repeat constructor; unfold word64; lia.
Defined.
